(** * Fantasy Stocks: a shallow embedding of [src/app.py]

    The development follows the layout of the program: the price cache and
    the quote fetcher first, then the draft, trade and game handlers that
    consume them.

    Modelling conventions.
    - A Python float is an IEEE binary64 number and is held as the
      rational [Q] it denotes.  The arithmetic on prices and points
      ([fadd], [fsub], [fmul], [fdiv], [round2]) returns the float nearest
      to the exact result ([fl]); a result beyond the largest float is
      outside the model.  The arithmetic on the clock (ages, delays, end
      dates) is exact.  [ext] adds the two infinities and NaN where the
      program compares with them.
    - [numpy] and pandas are not embedded.  The deviation of a price
      series and the two numpy operations on it ([np.mean], [round] of a
      numpy float) are parameters; a series too short for a deviation
      gives NaN.
    - The text of the forms is ASCII: [upper] and [strip] are [str.upper]
      and [str.strip] on such text.
    - [time.time()] and [datetime.now()] read one clock, a rational number
      of seconds held in the [world]; [time.sleep] advances it.
    - The JSON files are the persistent state.  [stock_cache.json] is the
      [cache] field of the [world]; [game_data.json] is a [game_data]
      record that every handler receives (its [load_data()]) and returns
      (the file's content when the request ends).  A handler that raises
      before [save_data] leaves the file as it was.
    - Embedded are the price layer ([get_cached_stock_info],
      [cache_stock_info], [fetch_stock_info]), [get_snake_order],
      [calculate_points], [calculate_volatility] and the handlers [draft],
      [trade] and [game], and after them the rest of the program:
      [names], [get_time_frame_dates], [start], [archive_game] and
      [new_game], with [game_history.json] as a list of entries.  HTML
      rendering and the graph files are left out. *)

From Stdlib Require Import QArith Qround Qabs Qpower Lqa.
From stdpp Require Import base option list sorting strings gmap.

Local Open Scope Z_scope.

(** ** Numbers *)

Definition Qltb (x y : Q) : bool := negb (Qle_bool y x).

(** A float is truthy when it is not zero. *)
Definition truthy (x : Q) : bool := negb (Qeq_bool x 0).

#[global] Instance Q_eq_dec : EqDecision Q.
Proof. solve_decision. Defined.

(** ** Strings: [str.upper] and [str.strip] on ASCII text *)

Definition ascii_upper (c : Ascii.ascii) : Ascii.ascii :=
  let n := Ascii.nat_of_ascii c in
  if ((97 <=? n)%nat && (n <=? 122)%nat)%bool
  then Ascii.ascii_of_nat (n - 32) else c.

Fixpoint upper (s : string) : string :=
  match s with
  | EmptyString => EmptyString
  | String c s' => String (ascii_upper c) (upper s')
  end.

(** The ASCII characters [str.strip] removes, those for which
    [str.isspace] holds: tab, line feed, vertical tab, form feed and
    carriage return (9 to 13), the four separators 28 to 31, and the
    space (32). *)
Definition is_space (c : Ascii.ascii) : bool :=
  let n := Ascii.nat_of_ascii c in
  ((9 <=? n)%nat && (n <=? 13)%nat) || ((28 <=? n)%nat && (n <=? 32)%nat).

Fixpoint lstrip (s : string) : string :=
  match s with
  | EmptyString => EmptyString
  | String c s' => if is_space c then lstrip s' else s
  end.

Definition strip (s : string) : string :=
  String.rev (lstrip (String.rev (lstrip s))).

(** Text all of whose characters are ASCII, the text on which [upper]
    and [strip] are [str.upper] and [str.strip]. *)
Fixpoint ascii_text (s : string) : bool :=
  match s with
  | EmptyString => true
  | String c s' => (Ascii.nat_of_ascii c <? 128)%nat && ascii_text s'
  end.

(** ** The world: cache file, clock and quote source *)

(** The dict [{'currentPrice': float}] that [fetch_stock_info] builds. *)
Record stock_info := { currentPrice : Q }.

(** One entry of [stock_cache.json]. *)
Record cache_entry := { info : stock_info; timestamp : Q }.

Record world := {
  cache : gmap string cache_entry;  (* stock_cache.json *)
  clock : Q;                        (* time.time() *)
  calls : nat;                      (* quote requests sent so far *)
  sleeps : list Q                   (* the time.sleep delays so far *)
}.

(** What one [yf.Ticker(ticker).history(period='1d')] request does: it
    yields the closing prices (possibly none), or raises. *)
Inductive response :=
| History (closes : list Q)
| HTTPError (status_code : Z)
| OtherError.

(** State passing over the world. *)
Definition M (A : Type) : Type := world → A * world.

#[global] Instance M_ret : MRet M := λ A a w, (a, w).
#[global] Instance M_bind : MBind M :=
  λ A B f m w, let '(a, w') := m w in f a w'.

Definition get_clock : M Q := λ w, (clock w, w).

Definition sleep (delay : Q) : M unit := λ w,
  (tt, {| cache := cache w; clock := (clock w + delay)%Q;
          calls := calls w; sleeps := sleeps w ++ [delay] |}).

Definition load_cache : M (gmap string cache_entry) := λ w, (cache w, w).

Definition save_cache (c : gmap string cache_entry) : M unit := λ w,
  (tt, {| cache := c; clock := clock w; calls := calls w;
          sleeps := sleeps w |}).

(** One more request has been sent. *)
Definition count_request (w : world) : world :=
  {| cache := cache w; clock := clock w; calls := S (calls w);
     sleeps := sleeps w |}.

Section Quotes.

(** [source ticker n] is the answer of the quote source to the request for
    [ticker] when [n] requests have been sent before it. *)
Variable source : string → nat → response.

Definition request_history (ticker : string) : M response := λ w,
  (source ticker (calls w), count_request w).

(** *** Price cache *)

Definition get_cached_stock_info (ticker : string) (cache_duration : Q)
  : M (option stock_info) :=
  cache ← load_cache;
  now ← get_clock;
  let ticker := upper ticker in
  match cache !! ticker with
  | Some cached_data =>
      if Qltb (now - timestamp cached_data) cache_duration
      then mret (Some (info cached_data))
      else mret None
  | None => mret None
  end.

Definition cache_stock_info (ticker : string) (info : stock_info) : M unit :=
  cache ← load_cache;
  let ticker := upper ticker in
  now ← get_clock;
  save_cache (<[ticker := {| info := info; timestamp := now |}]> cache).

(** *** Quote fetcher *)

(** The body of [for attempt in range(max_retries)], over the attempts
    that are left. *)
Fixpoint fetch_attempts (ticker : string) (max_retries : nat)
    (initial_delay : Z) (attempts : list nat) : M (option stock_info) :=
  match attempts with
  | [] => mret None
  | attempt :: rest =>
      r ← request_history ticker;
      match r with
      | History closes =>
          match last closes with
          | None => mret None
          | Some current =>
              if truthy current
              then mret (Some {| currentPrice := current |})
              else mret None
          end
      | HTTPError status_code =>
          if status_code =? 429 then
            if (attempt <? max_retries - 1)%nat then
              let delay := initial_delay * 2 ^ Z.of_nat attempt in
              _ ← sleep (inject_Z delay);
              fetch_attempts ticker max_retries initial_delay rest
            else mret None
          else mret None
      | OtherError => mret None
      end
  end.

Definition fetch_stock_info_with (ticker : string) (max_retries : nat)
    (initial_delay : Z) : M (option stock_info) :=
  fetch_attempts ticker max_retries initial_delay (seq 0 max_retries).

Definition fetch_stock_info (ticker : string) : M (option stock_info) :=
  fetch_stock_info_with ticker 5 10.

(** The lookup that [draft], [calculate_points] and [game] all spell out:
    the cache first, the fetcher otherwise, and a successful fetch is
    written back to the cache. *)
Definition get_price (ticker : string) : M (option Q) :=
  cached_info ← get_cached_stock_info ticker 21600;
  match cached_info with
  | Some i => mret (Some (currentPrice i))
  | None =>
      info ← fetch_stock_info ticker;
      match info with
      | Some i =>
          _ ← cache_stock_info ticker i;
          mret (Some (currentPrice i))
      | None => mret None
      end
  end.

End Quotes.

(** ** The game record ([game_data.json]) *)

Record pick := { ticker : string; price : Q; time : Q }.

Record player := { name : string; max_picks : Z; picked : list string }.

Record trade := {
  t_id : Z;
  from_player : string;
  to_player : string;
  offer_ticker : string;
  request_ticker : string;
  t_status : string
}.

(** A float that may be [float('inf')], [-float('inf')] or NaN. *)
Inductive ext := NegInf | Fin (q : Q) | PosInf | NaN.

(** What [returns.std() * np.sqrt(252)] gives for a series that is not
    empty: NaN when the series has fewer than two returns, that is one
    or two rows, and a number otherwise. *)
Inductive deviation := Undefined | Deviation (v : Q).

Record milestone := {
  m_time : Q;
  m_type : string;
  winner : option string;
  value : ext
}.

(** A Python dict keeps its keys in insertion order, and
    [data['picks'].items()] is iterated in that order: an association
    list, searched from the front. *)
Abbreviation dict V := (list (string * V)).

Record game_data := {
  players : list player;
  draft_order : list string;
  picks : dict (list pick);
  status : string;
  all_picks : list string;
  time_frame : option string;
  start_date : option Q;
  end_date : option Q;
  trades : list trade;
  milestones : list milestone;
  trade_limits : gmap string Z
}.

#[global] Instance pick_eq_dec : EqDecision pick.
Proof. solve_decision. Defined.

(** The record [load_data] returns when there is no file, which is also
    the record [new_game] writes. *)
Definition blank_data : game_data :=
  {| players := []; draft_order := []; picks := []; status := "setup";
     all_picks := []; time_frame := None; start_date := None;
     end_date := None; trades := []; milestones := []; trade_limits := ∅ |}.

(** Field updates. *)
Definition set_picks (ps : dict (list pick)) (data : game_data) : game_data :=
  {| players := players data; draft_order := draft_order data; picks := ps;
     status := status data; all_picks := all_picks data;
     time_frame := time_frame data; start_date := start_date data;
     end_date := end_date data; trades := trades data;
     milestones := milestones data; trade_limits := trade_limits data |}.

Definition set_players (pl : list player) (data : game_data) : game_data :=
  {| players := pl; draft_order := draft_order data; picks := picks data;
     status := status data; all_picks := all_picks data;
     time_frame := time_frame data; start_date := start_date data;
     end_date := end_date data; trades := trades data;
     milestones := milestones data; trade_limits := trade_limits data |}.

Definition set_trades (ts : list trade) (lim : gmap string Z)
    (data : game_data) : game_data :=
  {| players := players data; draft_order := draft_order data;
     picks := picks data; status := status data;
     all_picks := all_picks data; time_frame := time_frame data;
     start_date := start_date data; end_date := end_date data;
     trades := ts; milestones := milestones data; trade_limits := lim |}.

Definition set_status (s : string) (data : game_data) : game_data :=
  {| players := players data; draft_order := draft_order data;
     picks := picks data; status := s; all_picks := all_picks data;
     time_frame := time_frame data; start_date := start_date data;
     end_date := end_date data; trades := trades data;
     milestones := milestones data; trade_limits := trade_limits data |}.

Definition set_milestones (ms : list milestone) (data : game_data)
  : game_data :=
  {| players := players data; draft_order := draft_order data;
     picks := picks data; status := status data;
     all_picks := all_picks data; time_frame := time_frame data;
     start_date := start_date data; end_date := end_date data;
     trades := trades data; milestones := ms;
     trade_limits := trade_limits data |}.

(** Exceptions that escape a handler (the request then ends in an error
    and [save_data] is not reached). *)
Inductive exn := IndexError | KeyError | ValueError | StopIteration.

(** *** List and dict operations of Python *)

Section PyList.
Context {A : Type} `{EqDecision A}.

(** [l.remove(x)]: drops the first element equal to [x]; [None] stands
    for the ValueError raised when there is none. *)
Fixpoint list_remove (x : A) (l : list A) : option (list A) :=
  match l with
  | [] => None
  | y :: l' => if decide (x = y) then Some l' else cons y <$> list_remove x l'
  end.

End PyList.

(** [next(p for p in l if P p)], [None] when the generator is exhausted. *)
Definition find_first {A} (P : A → Prop) `{∀ x, Decision (P x)} (l : list A)
  : option A :=
  snd <$> list_find P l.

Section Dict.
Context {V : Type}.

(** [d[k]], [None] for the KeyError. *)
Fixpoint dict_get (k : string) (d : dict V) : option V :=
  match d with
  | [] => None
  | (k', v) :: d' => if decide (k = k') then Some v else dict_get k d'
  end.

(** [d[k] = v]: an existing key keeps its place, a new key goes last. *)
Fixpoint dict_set (k : string) (v : V) (d : dict V) : dict V :=
  match d with
  | [] => [(k, v)]
  | (k', v') :: d' =>
      if decide (k = k') then (k', v) :: d' else (k', v') :: dict_set k v d'
  end.

End Dict.

(** [d.setdefault(k, []).append(x)] *)
Definition setdefault_append {A} (k : string) (x : A) (d : dict (list A))
  : dict (list A) :=
  dict_set k (default [] (dict_get k d) ++ [x]) d.

(** ** Draft engine *)

Definition get_snake_order {A} (players : list A) (total_rounds : nat)
  : list A :=
  foldl (λ order i,
           if Nat.even i then order ++ players else order ++ reverse players)
        [] (seq 0 total_rounds).

(** The round that [get_snake_order] appends in iteration [i]. *)
Definition snake_round {A} (players : list A) (i : nat) : list A :=
  if Nat.even i then players else reverse players.

(** What a POST to [/draft] answers. *)
Inductive draft_result :=
| Picked                                          (* redirect to /draft *)
| NoTicker (current_player : string)              (* "Please enter a stock ticker!" *)
| AlreadyDrafted (ticker current_player : string) (* "... has already been drafted!" *)
| UnableToFetch (ticker current_player : string)  (* "Unable to fetch data for ..." *)
| DraftRaised (e : exn).

(** The error pages show [data['draft_order'][0]]. *)
Definition draft_error_page (data : game_data)
    (page : string → draft_result) : draft_result :=
  match draft_order data with
  | [] => DraftRaised IndexError
  | current_player :: _ => page current_player
  end.

Definition add_picked (who ticker : string) (p : player) : player :=
  if decide (name p = who)
  then {| name := name p; max_picks := max_picks p;
          picked := picked p ++ [ticker] |}
  else p.

Section Handlers.

Variable source : string → nat → response.

(** [draft()] on a POST with form fields [name] and [ticker]. *)
Definition draft_post (who raw_ticker : string) (data : game_data)
  : M (draft_result * game_data) :=
  let ticker := strip (upper raw_ticker) in
  if decide (ticker = "") then
    mret (draft_error_page data NoTicker, data)
  else if decide (ticker ∈ all_picks data) then
    mret (draft_error_page data (AlreadyDrafted ticker), data)
  else
    current ← get_price source ticker;
    match current with
    | None => mret (draft_error_page data (UnableToFetch ticker), data)
    | Some current =>
        now ← get_clock;
        let new_pick := {| ticker := ticker; price := current; time := now |} in
        match list_remove who (draft_order data) with
        | None => mret (DraftRaised ValueError, data)
        | Some order =>
            mret (Picked,
                  {| players := add_picked who ticker <$> players data;
                     draft_order := order;
                     picks := setdefault_append who new_pick (picks data);
                     status := status data;
                     all_picks := all_picks data ++ [ticker];
                     time_frame := time_frame data;
                     start_date := start_date data;
                     end_date := end_date data;
                     trades := trades data;
                     milestones := milestones data;
                     trade_limits := trade_limits data |})
        end
    end.

(** [draft()] on a GET: an empty queue closes the draft; otherwise the
    page names the player on turn and shows the price of the ticker to
    preview, if one is asked for. *)
Definition draft_get (preview : option string) (data : game_data)
  : M (option (string * option Q) * game_data) :=
  match draft_order data with
  | [] => mret (None, set_status "done" data)
  | current_player :: _ =>
      match preview with
      | Some ticker =>
          if decide (ticker = "") then mret (Some (current_player, None), data)
          else
            stock_price ← get_price source ticker;
            mret (Some (current_player, stock_price), data)
      | None => mret (Some (current_player, None), data)
      end
  end.

End Handlers.

(** ** Trade engine *)

Inductive trade_result :=
| ToGame                      (* redirect to /game: the phase is not done *)
| ToTrade                     (* redirect to /trade *)
| TradeError                  (* "Invalid trade or trade limit reached!" *)
| TradeRaised (e : exn).

(** The [propose] action. *)
Definition propose (from_player to_player offer_ticker request_ticker : string)
    (data : game_data) : trade_result * game_data :=
  if decide (from_player = to_player ∨
             default 0 (trade_limits data !! from_player) ≤ 0)
  then (TradeError, data)
  else
    let trade_id := Z.of_nat (length (trades data)) + 1 in
    let new_trade :=
      {| t_id := trade_id; from_player := from_player;
         to_player := to_player; offer_ticker := offer_ticker;
         request_ticker := request_ticker; t_status := "pending" |} in
    (ToTrade,
     set_trades (trades data ++ [new_trade])
                (alter (λ n, n - 1) from_player (trade_limits data)) data).

(** [trade['status'] = response] on the first trade whose id is
    [trade_id], the one [next(...)] returned. *)
Fixpoint set_trade_status (trade_id : Z) (response : string)
    (ts : list trade) : list trade :=
  match ts with
  | [] => []
  | t :: ts' =>
      if decide (t_id t = trade_id)
      then {| t_id := t_id t; from_player := from_player t;
              to_player := to_player t; offer_ticker := offer_ticker t;
              request_ticker := request_ticker t; t_status := response |}
           :: ts'
      else t :: set_trade_status trade_id response ts'
  end.

(** One round of the loop over [data['players']] after an accepted
    trade. *)
Definition swap_picked (t : trade) (p : player) : exn + player :=
  if decide (name p = from_player t) then
    match list_remove (offer_ticker t) (picked p) with
    | None => inl ValueError
    | Some l => inr {| name := name p; max_picks := max_picks p;
                       picked := l ++ [request_ticker t] |}
    end
  else if decide (name p = to_player t) then
    match list_remove (request_ticker t) (picked p) with
    | None => inl ValueError
    | Some l => inr {| name := name p; max_picks := max_picks p;
                       picked := l ++ [offer_ticker t] |}
    end
  else inr p.

Fixpoint swap_all_picked (t : trade) (pl : list player)
  : exn + list player :=
  match pl with
  | [] => inr []
  | p :: pl' =>
      match swap_picked t p with
      | inl e => inl e
      | inr p' =>
          match swap_all_picked t pl' with
          | inl e => inl e
          | inr pl'' => inr (p' :: pl'')
          end
      end
  end.

(** The four list operations of an accepted trade.  [from_picks] and
    [to_picks] are the lists stored in the dict, so each operation acts on
    the list its key holds at that moment. *)
Definition swap_picks (t : trade) (ps : dict (list pick))
  : exn + dict (list pick) :=
  match dict_get (from_player t) ps, dict_get (to_player t) ps with
  | None, _ | _, None => inl KeyError
  | Some from_picks, Some to_picks =>
      match find_first (λ p, ticker p = offer_ticker t) from_picks,
            find_first (λ p, ticker p = request_ticker t) to_picks with
      | None, _ | _, None => inl StopIteration
      | Some from_pick, Some to_pick =>
          match list_remove from_pick from_picks with
          | None => inl ValueError
          | Some l1 =>
              let ps1 := dict_set (from_player t) l1 ps in
              match list_remove to_pick
                      (default [] (dict_get (to_player t) ps1)) with
              | None => inl ValueError
              | Some l2 =>
                  let ps2 := dict_set (to_player t) l2 ps1 in
                  let ps3 :=
                    dict_set (from_player t)
                      (default [] (dict_get (from_player t) ps2) ++ [to_pick])
                      ps2 in
                  inr (dict_set (to_player t)
                         (default [] (dict_get (to_player t) ps3)
                          ++ [from_pick])
                         ps3)
              end
          end
      end
  end.

(** The [respond] action. *)
Definition respond (trade_id : Z) (response : string) (data : game_data)
  : trade_result * game_data :=
  match find_first (λ t, t_id t = trade_id) (trades data) with
  | None => (ToTrade, data)
  | Some t =>
      let data1 :=
        set_trades (set_trade_status trade_id response (trades data))
                   (trade_limits data) data in
      if decide (response = "accepted") then
        match swap_picks t (picks data1) with
        | inl e => (TradeRaised e, data)
        | inr ps =>
            match swap_all_picked t (players data1) with
            | inl e => (TradeRaised e, data)
            | inr pl => (ToTrade, set_players pl (set_picks ps data1))
            end
        end
      else (ToTrade, data1)
  end.

Inductive trade_action :=
| Propose (from_player to_player offer_ticker request_ticker : string)
| Respond (trade_id : Z) (response : string).

(** [trade()] on a POST. *)
Definition trade_post (action : trade_action) (data : game_data)
  : trade_result * game_data :=
  if decide (status data = "done") then
    match action with
    | Propose f t o r => propose f t o r data
    | Respond i r => respond i r data
    end
  else (ToGame, data).

(** ** Scoring engine *)

(** Python's [round(x, 2)] on the rational [x]: to the nearest hundredth,
    a tie going to the even one. *)
Definition round_half_even (x : Q) : Z :=
  let f := Qfloor x in
  match (x - inject_Z f ?= 1 # 2)%Q with
  | Lt => f
  | Gt => f + 1
  | Eq => if Z.even f then f else f + 1
  end.

(** *** Binary64 arithmetic

    A Python float is an IEEE 754 binary64 number.  The finite ones are
    the rationals [m * 2 ^ e] with [|m| < 2 ^ 53] and [-1074 <= e], and
    every arithmetic operation returns the one of them nearest to the
    exact result, a tie going to the even [m].  That number is [fl x];
    results beyond the largest binary64 number, where Python has
    [inf], are outside the model. *)
Definition pow2 (e : Z) : Q := (2 ^ e)%Q.

(** [floor (log2 |x|)] for [x] other than 0. *)
Definition binade (x : Q) : Z :=
  let k := Z.log2 (Z.abs (Qnum x)) - Z.log2 (Zpos (Qden x)) in
  if Qle_bool (pow2 k) (Qabs x) then k else k - 1.

Definition fl (x : Q) : Q :=
  if Qeq_bool x 0 then 0%Q
  else
    let e := Z.max (binade x - 52) (-1074) in
    Qred (inject_Z (round_half_even (x / pow2 e)) * pow2 e).

(** [x + y], [x - y], [x * y] and [x / y] on floats. *)
Definition fadd (x y : Q) : Q := fl (x + y).
Definition fsub (x y : Q) : Q := fl (x - y).
Definition fmul (x y : Q) : Q := fl (x * y).
Definition fdiv (x y : Q) : Q := fl (x / y).

(** [round(x, 2)] on a float: the value is rounded to the nearest
    hundredth, a tie going to the even one, and the float nearest to
    that hundredth is returned. *)
Definition round2 (x : Q) : Q :=
  fl (inject_Z (round_half_even (x * 100)) / 100).

Definition round2_ext (x : ext) : ext :=
  match x with
  | Fin q => Fin (round2 q)
  | _ => x
  end.

Definition ext_ltb (x y : ext) : bool :=
  match x, y with
  | NaN, _ | _, NaN => false
  | NegInf, NegInf => false
  | NegInf, _ => true
  | Fin _, NegInf => false
  | Fin a, Fin b => Qltb a b
  | Fin _, PosInf => true
  | PosInf, _ => false
  end.

(** [((current - price) / price) * 100], three float operations; [None]
    is the ZeroDivisionError. *)
Definition pct_change (current price : Q) : option Q :=
  if Qeq_bool price 0 then None
  else Some (fmul (fdiv (fsub current price) price) 100).

Definition Qsum (l : list Q) : Q := foldr Qplus 0%Q l.

(** The arithmetic mean. *)
Definition mean (l : list Q) : Q := (Qsum l / inject_Z (Z.of_nat (length l)))%Q.

#[global] Instance deviation_eq_dec : EqDecision deviation.
Proof. solve_decision. Defined.

(** The numbers among the values. *)
Definition numbers (l : list deviation) : list Q :=
  omap (λ d, match d with Deviation v => Some v | Undefined => None end) l.

(** What the program asks of numpy.  [np_mean l] stands for [np.mean] on
    a list of numbers that is not empty, in whatever order numpy adds
    them up; [np_round x] stands for [round(x, 2)] on a numpy float,
    which is numpy's own rounding. *)
Record numpy := { np_mean : list Q → Q; np_round : Q → Q }.

Section Scoring.

Variable source : string → nat → response.

(** [annualized_volatility ticker start end] stands for the history
    request of [calculate_volatility] over the window and the pandas
    computation on it: [Some v] with
    [v = returns.std() * np.sqrt(252)] when the series is not empty,
    [None] when it is empty or the request raises. *)
Variable annualized_volatility : string → Q → Q → option deviation.

Variable np : numpy.

(** [np.mean(volatilities)]: NaN as soon as one of the values is. *)
Definition mean_volatility (volatilities : list deviation) : ext :=
  if decide (Undefined ∈ volatilities) then NaN
  else Fin (np_mean np (numbers volatilities)).

(** The loop of [calculate_points], with its two accumulators. *)
Fixpoint points_loop (picks : list pick) (total_change : Q) (count : nat)
  : M (Q * nat) :=
  match picks with
  | [] => mret (total_change, count)
  | pick :: rest =>
      current ← get_price source (ticker pick);
      match current with
      | None => points_loop rest total_change count
      | Some current =>
          match pct_change current (price pick) with
          | None => points_loop rest total_change count
          | Some change =>
              points_loop rest (fadd total_change change) (S count)
          end
      end
  end.

Definition calculate_points (picks : list pick) : M Q :=
  match picks with
  | [] => mret 0%Q
  | _ =>
      r ← points_loop picks 0%Q 0%nat;
      let '(total_change, count) := r in
      mret (if (0 <? count)%nat
            then round2 (fdiv total_change (inject_Z (Z.of_nat count)))
            else 0%Q)
  end.

(** [min(datetime.now(), end_date)], the end of the window asked for. *)
Definition window_end (now end_date : Q) : Q :=
  if Qle_bool now end_date then now else end_date.

Definition calculate_volatility (picks : list pick)
    (start_date end_date : option Q) : M ext :=
  match start_date, end_date with
  | Some start, Some end_date =>
      now ← get_clock;
      let end_ := window_end now end_date in
      let volatilities :=
        omap (λ pick, annualized_volatility (ticker pick) start end_) picks in
      mret (match volatilities with
            | [] => PosInf
            | _ => mean_volatility volatilities
            end)
  | _, _ => mret PosInf
  end.

(** ** Game summary *)

(** [not milestone['winner']] *)
Definition no_winner (m : milestone) : bool :=
  match winner m with
  | None => true
  | Some w => bool_decide (w = "")
  end.

(** The inner loop of the [highest_gain] branch over one player's picks. *)
Fixpoint gain_picks (player : string) (picks : list pick)
    (max_gain : ext) (winner : option string) : M (ext * option string) :=
  match picks with
  | [] => mret (max_gain, winner)
  | pick :: rest =>
      current ← get_price source (ticker pick);
      match current with
      | None => gain_picks player rest max_gain winner
      | Some current =>
          match pct_change current (price pick) with
          | None => gain_picks player rest max_gain winner
          | Some gain =>
              if ext_ltb max_gain (Fin gain)
              then gain_picks player rest (Fin gain) (Some player)
              else gain_picks player rest max_gain winner
          end
      end
  end.

Fixpoint gain_players (items : dict (list pick))
    (max_gain : ext) (winner : option string) : M (ext * option string) :=
  match items with
  | [] => mret (max_gain, winner)
  | (player, picks) :: rest =>
      r ← gain_picks player picks max_gain winner;
      gain_players rest r.1 r.2
  end.

(** [round(min_volatility, 2)]: a volatility that is a number comes from
    [np.mean] and is a numpy float; the infinity is Python's. *)
Definition np_round_ext (x : ext) : ext :=
  match x with
  | Fin q => Fin (np_round np q)
  | _ => x
  end.

(** The loop of the [lowest_volatility] branch. *)
Fixpoint volatility_players (start_date end_date : option Q)
    (items : dict (list pick)) (min_volatility : ext)
    (winner : option string) : M (ext * option string) :=
  match items with
  | [] => mret (min_volatility, winner)
  | (player, picks) :: rest =>
      volatility ← calculate_volatility picks start_date end_date;
      if ext_ltb volatility min_volatility
      then volatility_players start_date end_date rest volatility (Some player)
      else volatility_players start_date end_date rest min_volatility winner
  end.

(** One round of the loop over [data['milestones']]: the milestone as it
    is afterwards, and the local variable [winner]. *)
Definition process_milestone (data : game_data) (now : Q)
    (winner_var : option string) (m : milestone)
  : M (milestone * option string) :=
  if Qle_bool (m_time m) now && no_winner m then
    if decide (m_type m = "highest_gain") then
      r ← gain_players (picks data) NegInf None;
      mret ({| m_time := m_time m; m_type := m_type m; winner := r.2;
               value := round2_ext r.1 |}, r.2)
    else if decide (m_type m = "lowest_volatility") then
      r ← volatility_players (start_date data) (end_date data)
            (picks data) PosInf None;
      mret ({| m_time := m_time m; m_type := m_type m; winner := r.2;
               value := np_round_ext r.1 |}, r.2)
    else mret (m, winner_var)
  else mret (m, winner_var).

Fixpoint process_milestones (data : game_data) (now : Q)
    (winner_var : option string) (ms : list milestone)
  : M (list milestone * option string) :=
  match ms with
  | [] => mret ([], winner_var)
  | m :: rest =>
      r ← process_milestone data now winner_var m;
      r' ← process_milestones data now r.2 rest;
      mret (r.1 :: r'.1, r'.2)
  end.

(** One row of the leaderboard, and one row of a player's summary. *)
Record entry := { e_name : string; points : Q; bonus : Z }.

Record summary := {
  s_ticker : string;
  draft_price : Q;
  current_price : option Q;
  change : Q
}.

(** [sum(5 for m in milestone_results if m['winner'] == player)] *)
Definition milestone_bonus (milestone_results : list milestone)
    (player : string) : Z :=
  foldr Z.add 0
    ((λ _, 5) <$> filter (λ m, winner m = Some player) milestone_results).

(** The loop over a player's picks that fills [summaries[player]]. *)
Fixpoint summarize (picks : list pick) : M (list summary) :=
  match picks with
  | [] => mret []
  | pick :: rest =>
      current ← get_price source (ticker pick);
      let shown :=
        match current with
        | None => (None, 0%Q)
        | Some c =>
            if truthy c then
              match pct_change c (price pick) with
              | Some change => (Some c, change)
              | None => (None, 0%Q)
              end
            else (Some c, 0%Q)
        end in
      rows ← summarize rest;
      mret ({| s_ticker := ticker pick; draft_price := price pick;
               current_price := shown.1; change := round2 shown.2 |}
            :: rows)
  end.

(** The loop over [data['picks'].items()] that builds the leaderboard
    and the summaries. *)
Fixpoint leaderboard_loop (milestone_results : list milestone)
    (items : dict (list pick)) : M (list entry * dict (list summary)) :=
  match items with
  | [] => mret ([], [])
  | (player, picks) :: rest =>
      points ← calculate_points picks;
      let bonus := milestone_bonus milestone_results player in
      let points := fadd points (inject_Z bonus) in
      rows ← summarize picks;
      r ← leaderboard_loop milestone_results rest;
      mret ({| e_name := player; points := points; bonus := bonus |} :: r.1,
            (player, rows) :: r.2)
  end.

(** [leaderboard.sort(key=lambda x: x['points'], reverse=True)].  Python's
    sort is stable, also with [reverse=True]; a stable sort has one
    possible result, which this insertion sort computes. *)
Fixpoint insert_desc (x : entry) (l : list entry) : list entry :=
  match l with
  | [] => [x]
  | y :: l' =>
      if Qltb (points x) (points y) then y :: insert_desc x l' else x :: l
  end.

Definition sort_desc (l : list entry) : list entry := foldr insert_desc [] l.

Record game_view := {
  leaderboard : list entry;
  summaries : dict (list summary);
  game_ended : bool;
  shown_winner : option string;
  milestone_results : list milestone
}.

(** The check at the top of [game()]: has the clock passed [end_date]? *)
Definition expired (data : game_data) (now : Q) : bool :=
  match end_date data with
  | Some end_date => Qltb end_date now
  | None => false
  end.

(** [game()], up to the rendering of the page. *)
Definition game (data : game_data) : M (game_view * game_data) :=
  now ← get_clock;
  let game_ended := expired data now in
  let data := if game_ended then set_status "finished" data else data in
  now ← get_clock;
  ms ← process_milestones data now None (milestones data);
  let data := set_milestones ms.1 data in
  r ← leaderboard_loop ms.1 (picks data);
  let leaderboard := sort_desc r.1 in
  let winner :=
    match game_ended, leaderboard with
    | true, first :: _ => Some (e_name first)
    | _, _ => ms.2
    end in
  mret ({| leaderboard := leaderboard; summaries := r.2;
           game_ended := game_ended; shown_winner := winner;
           milestone_results := ms.1 |}, data).

End Scoring.

(** ** The requests of a game *)

(** The requests that read or write the game record, and what each
    leaves in the two files. *)
Inductive request :=
| PostDraft (name ticker : string)
| GetDraft (preview : option string)
| PostTrade (action : trade_action)
| GetGame.

Section Requests.
Variable source : string → nat → response.
Variable annualized_volatility : string → Q → Q → option deviation.
Variable np : numpy.

Definition handle (st : game_data * world) (req : request)
  : game_data * world :=
  match req with
  | PostDraft who raw =>
      let r := draft_post source who raw st.1 st.2 in (r.1.2, r.2)
  | GetDraft preview =>
      let r := draft_get source preview st.1 st.2 in (r.1.2, r.2)
  | PostTrade action => ((trade_post action st.1).2, st.2)
  | GetGame =>
      let r := game source annualized_volatility np st.1 st.2 in (r.1.2, r.2)
  end.

Definition run (st : game_data * world) (reqs : list request)
  : game_data * world :=
  foldl handle st reqs.

End Requests.

(** ** Notions used in the statements *)

(** The delay slept after the rate-limited attempt [attempt]. *)
Definition backoff_delay (initial_delay : Z) (attempt : nat) : Q :=
  inject_Z (initial_delay * 2 ^ Z.of_nat attempt).

(** The world after [k] rate-limited attempts, the first of them numbered
    [attempt]: each one sent a request and then slept. *)
Fixpoint after_retries (initial_delay : Z) (attempt k : nat) (w : world)
  : world :=
  match k with
  | O => w
  | S k' =>
      after_retries initial_delay (S attempt) k'
        {| cache := cache w;
           clock := (clock w + backoff_delay initial_delay attempt)%Q;
           calls := S (calls w);
           sleeps := sleeps w ++ [backoff_delay initial_delay attempt] |}
  end.

(** The cache has no usable entry for the ticker: none at all, or one
    whose age has reached the time to live. *)
Definition cache_miss (w : world) (ticker : string) : Prop :=
  cache w !! upper ticker = None
  ∨ ∃ e, cache w !! upper ticker = Some e
         ∧ (21600 <= clock w - timestamp e)%Q.

(** The tickers of a pick list, and the pick list a player holds (a
    player without an entry in [data['picks']] holds none). *)
Definition tickers (l : list pick) : list string := ticker <$> l.

Definition held (data : game_data) (who : string) : list pick :=
  default [] (dict_get who (picks data)).

(** The player's [picked] list is the ticker list of the player's picks. *)
Definition synced (ps : dict (list pick)) (p : player) : Prop :=
  picked p = tickers (default [] (dict_get (name p) ps)).

(** The trade with its status replaced. *)
Definition with_status (response : string) (t : trade) : trade :=
  {| t_id := t_id t; from_player := from_player t; to_player := to_player t;
     offer_ticker := offer_ticker t; request_ticker := request_ticker t;
     t_status := response |}.

(** The pick lists of [ps'] are those of [ps], but for the two parties of
    the trade, who hold [new_from] and [new_to]. *)
Definition swapped_lists (t : trade) (new_from new_to : list pick)
    (ps ps' : dict (list pick)) : Prop :=
  dict_get (from_player t) ps' = Some new_from
  ∧ dict_get (to_player t) ps' = Some new_to
  ∧ ∀ other, other ≠ from_player t → other ≠ to_player t →
             dict_get other ps' = dict_get other ps.


(** *** Well-formed records *)

(** All the picks of the game, player after player. *)
Definition all_held (ps : dict (list pick)) : list pick := mjoin ps.*2.

(** No pick has a draft price of zero. *)
Definition priced (ps : dict (list pick)) : Prop :=
  Forall (λ item, Forall (λ p, ¬ (price p == 0)%Q) item.2) ps.

(** What the handlers keep true of the game record: a player has one
    pick list, a ticker is held once in the whole game and is registered
    as drafted, draft prices are not zero, the [picked] lists agree with
    the pick lists, and a trade has two different parties. *)
Record well_formed (data : game_data) : Prop := {
  wf_keys : NoDup (picks data).*1;
  wf_tickers : NoDup (tickers (all_held (picks data)));
  wf_drafted : ∀ tk, tk ∈ tickers (all_held (picks data)) → tk ∈ all_picks data;
  wf_priced : priced (picks data);
  wf_synced : Forall (synced (picks data)) (players data);
  wf_parties : Forall (λ t, from_player t ≠ to_player t) (trades data)
}.

(** No cached price is zero. *)
Definition cache_priced (w : world) : Prop :=
  map_Forall (λ _ e, ¬ (currentPrice (info e) == 0)%Q) (cache w).

(** A computation that keeps the cache free of zero prices. *)
Definition keeps_priced {A} (m : M A) : Prop :=
  ∀ w, cache_priced w → cache_priced (m w).2.

(** *** The leaderboard in the words of the specification *)

#[global] Instance Qeq_decision (x y : Q) : Decision (x == y)%Q := Qeq_dec x y.

Section LeaderboardSpec.
Variable source : string → nat → response.










End LeaderboardSpec.

(** No row has fewer points than a later one. *)
Definition descending (l : list entry) : Prop :=
  StronglySorted (λ a b, (points b <= points a)%Q) l.


(** ** Sample inputs *)

(** A quote source that is rate-limited four times and then answers. *)
Definition flaky_source : string → nat → response :=
  λ _ n, if (n <? 4)%nat then HTTPError 429 else History [375 # 2]%Q.

(** A quote source that answers at once. *)
Definition steady_source : string → nat → response :=
  λ _ _, History [100; 110]%Q.

(** No cache file yet, the clock at [t]. *)
Definition cold_world (t : Q) : world :=
  {| cache := ∅; clock := t; calls := 0; sleeps := [] |}.

(** A cache holding AAPL at 100, fetched at time 1000. *)
Definition warm_world (t : Q) : world :=
  {| cache := {[ "AAPL" := {| info := {| currentPrice := 100 |};
                                timestamp := 1000 |} ]};
     clock := t; calls := 0; sleeps := [] |}.

(** Two players, two rounds, nothing drafted yet: ann is on turn. *)
Definition opening_data : game_data :=
  {| players := [ {| name := "ann"; max_picks := 2; picked := [] |};
                  {| name := "bob"; max_picks := 2; picked := [] |} ];
     draft_order := get_snake_order ["ann"; "bob"] 2;
     picks := []; status := "draft"; all_picks := [];
     time_frame := Some "1 Quarter"; start_date := Some 0%Q;
     end_date := Some 7776000%Q; trades := [];
     milestones :=
       [ {| m_time := 2592000; m_type := "highest_gain";
            winner := None; value := Fin 0 |};
         {| m_time := 5184000; m_type := "lowest_volatility";
            winner := None; value := PosInf |} ];
     trade_limits := {[ "ann" := 3; "bob" := 3 ]} |}.

(** Two players, one round, both picks made: the queue is empty. *)
Definition drafted_data : game_data :=
  {| players := [ {| name := "ann"; max_picks := 1; picked := ["AAPL"] |};
                  {| name := "bob"; max_picks := 1; picked := ["MSFT"] |} ];
     draft_order := [];
     picks := [ ("ann", [ {| ticker := "AAPL"; price := 100; time := 10 |} ]);
                ("bob", [ {| ticker := "MSFT"; price := 50; time := 20 |} ]) ];
     status := "done"; all_picks := ["AAPL"; "MSFT"];
     time_frame := Some "1 Quarter"; start_date := Some 0%Q;
     end_date := Some 7776000%Q; trades := [];
     milestones :=
       [ {| m_time := 2592000; m_type := "highest_gain";
            winner := None; value := Fin 0 |};
         {| m_time := 5184000; m_type := "lowest_volatility";
            winner := None; value := PosInf |} ];
     trade_limits := {[ "ann" := 3; "bob" := 3 ]} |}.

(** The drafted game with ann's proposal to give AAPL for bob's MSFT,
    its status being [st]. *)
Definition proposed_data (st : string) : game_data :=
  set_trades
    [ {| t_id := 1; from_player := "ann"; to_player := "bob";
         offer_ticker := "AAPL"; request_ticker := "MSFT"; t_status := st |} ]
    {[ "ann" := 2; "bob" := 3 ]}
    drafted_data.

(** A numpy that adds up without error and rounds as Python does. *)
Definition sample_numpy : numpy := {| np_mean := mean; np_round := round2 |}.

(** A history source without any series, and one with a series for
    every ticker but MSFT. *)
Definition no_history : string → Q → Q → option deviation := λ _ _ _, None.

Definition some_history : string → Q → Q → option deviation :=
  λ ticker _ _,
    if decide (ticker = "MSFT") then None else Some (Deviation (1 # 4)).



(** Two players, one round, nothing drafted yet. *)
Definition short_data : game_data :=
  {| players := [ {| name := "ann"; max_picks := 1; picked := [] |};
                  {| name := "bob"; max_picks := 1; picked := [] |} ];
     draft_order := get_snake_order ["ann"; "bob"] 1;
     picks := []; status := "draft"; all_picks := [];
     time_frame := Some "1 Quarter"; start_date := Some 0%Q;
     end_date := Some 7776000%Q; trades := [];
     milestones :=
       [ {| m_time := 2592000; m_type := "highest_gain";
            winner := None; value := Fin 0 |};
         {| m_time := 5184000; m_type := "lowest_volatility";
            winner := None; value := PosInf |} ];
     trade_limits := {[ "ann" := 3; "bob" := 3 ]} |}.

(** A quote source with A at 110 and every other ticker at 45. *)
Definition two_prices : string → nat → response :=
  λ ticker _, History [if decide (ticker = "A") then 110 else 45]%Q.



(** The same world at a later time. *)
Definition at_time (t : Q) (w : world) : world :=
  {| cache := cache w; clock := t; calls := calls w; sleeps := sleeps w |}.

(** * The rest of the program *)

(** ** Setting up a game: [names], [get_time_frame_dates] and [start] *)

(** [timedelta(days=n)], in seconds. *)
Definition days (n : Z) : Q := inject_Z (n * 86400).

(** The leap-year test written out in the [Calendar Year] branch. *)
Definition leap_year (y : Z) : bool :=
  (y mod 4 =? 0) && (negb (y mod 100 =? 0) || (y mod 400 =? 0)).

(** [int(num_picks)] once anything but ['1'], ['5'] and ['10'] has been
    replaced by ['5']. *)
Definition parse_num_picks (num_picks : string) : nat :=
  if decide (num_picks = "1") then 1%nat
  else if decide (num_picks = "10") then 10%nat
  else 5%nat.

Definition time_frames : list string :=
  ["1 Quarter"; "6 Months"; "Fiscal Year"; "Calendar Year"; "Custom"].

Definition normal_time_frame (time_frame : string) : string :=
  if decide (time_frame ∈ time_frames) then time_frame else "1 Quarter".

(** The fields the two set-up forms send.  [f_num_players] is
    [int(num_players)]; [f_custom_days] is [int(custom_days)], and [None]
    when the field is absent or empty; [f_player i] is
    [request.form.get('player{i}')].  A form whose number fields do not
    read as integers is sent back to the index page by both handlers and
    has no representation here. *)
Record setup_form := {
  f_num_players : Z;
  f_num_picks : string;
  f_time_frame : string;
  f_custom_days : option Z;
  f_player : nat → option string
}.

(** [names()]: [None] is the redirect to the index page, otherwise the
    values written into the hidden fields of the name form
    ([custom_days] only when it is truthy). *)
Definition names (form : setup_form) : option (Z * string * string * option Z) :=
  if decide (f_num_players form < 2 ∨ 12 < f_num_players form) then None
  else
    let num_picks :=
      if decide (f_num_picks form ∈ ["1"; "5"; "10"])
      then f_num_picks form else "5" in
    let time_frame := normal_time_frame (f_time_frame form) in
    if decide (time_frame = "Custom") then
      match f_custom_days form with
      | None => None
      | Some custom_days =>
          if decide (custom_days < 30 ∨ 730 < custom_days) then None
          else Some (f_num_players form, num_picks, time_frame,
                     if decide (custom_days = 0) then None
                     else Some custom_days)
      end
    else Some (f_num_players form, num_picks, time_frame, None).

Inductive start_exn := TypeError | AttributeError.

Inductive start_result :=
| Started                 (* redirect to /draft *)
| ToIndex                 (* redirect to the index page *)
| EmptyName               (* "All player names must be non-empty!" *)
| RepeatedName            (* "Player names must be unique!" *)
| StartRaised (e : start_exn).

Definition player_names (players : list player) : list string :=
  name <$> players.

(** The loop of [start] over the name fields; [player_names] is the set
    of the names already in [players]. *)
Fixpoint read_players (form_player : nat → option string) (max : Z)
    (indices : list nat) (players : list player)
  : start_result + list player :=
  match indices with
  | [] => inr players
  | i :: rest =>
      match form_player i with
      | None => inl (StartRaised AttributeError)
      | Some raw =>
          let stripped := strip raw in
          if decide (stripped = "") then inl EmptyName
          else if decide (stripped ∈ player_names players)
          then inl RepeatedName
          else read_players form_player max rest
                 (players ++ [ {| name := stripped; max_picks := max;
                                  picked := [] |} ])
      end
  end.

(** [{p['name']: 3 for p in players}] *)
Definition initial_trade_limits (players : list player) : gmap string Z :=
  foldl (λ limits p, <[name p := 3]> limits) ∅ players.

(** The two milestones [start] schedules, from
    [duration = (end_dt - start_dt).days]. *)
Definition game_duration (start_date end_date : Q) : Z :=
  Qfloor ((end_date - start_date) / 86400).

Definition initial_milestones (start_date end_date : Q) : list milestone :=
  let duration := game_duration start_date end_date in
  [ {| m_time := (start_date + days (duration / 3))%Q;
       m_type := "highest_gain"; winner := None; value := Fin 0 |};
    {| m_time := (start_date + days (2 * duration / 3))%Q;
       m_type := "lowest_volatility"; winner := None; value := PosInf |} ].

Section Setup.

(** The calendar of [datetime]: the year, month and day of an instant,
    and the instant at which a day begins. *)
Variables year month day : Q → Z.
Variable datetime : Z → Z → Z → Q.

Definition get_time_frame_dates (time_frame : string) (start_date : Q)
    (custom_days : option Z) : Q :=
  let start := start_date in
  if decide (time_frame = "1 Quarter") then (start + days 90)%Q
  else if decide (time_frame = "6 Months") then (start + days 180)%Q
  else if decide (time_frame = "Fiscal Year") then
    let y := year start in
    let y :=
      if (6 <? month start) || ((month start =? 6) && (30 <? day start))
      then y + 1 else y in
    datetime y 6 30
  else if decide (time_frame = "Calendar Year") then
    let end_date := (start + days 365)%Q in
    if (month start <=? 2) && (3 <=? month end_date)
       && leap_year (year end_date)
    then (end_date + days 1)%Q else end_date
  else
    match custom_days with
    | Some n =>
        if decide (time_frame = "Custom" ∧ n ≠ 0) then (start + days n)%Q
        else start
    | None => start
    end.

(** [start()]: the answer and the content of [game_data.json]
    afterwards. *)
Definition start (form : setup_form) (data : game_data)
  : M (start_result * game_data) :=
  let num_players := f_num_players form in
  if decide (num_players < 2 ∨ 12 < num_players) then mret (ToIndex, data)
  else
    let num_picks := parse_num_picks (f_num_picks form) in
    let time_frame := normal_time_frame (f_time_frame form) in
    let custom_days := f_custom_days form in
    let checked :=
      if decide (time_frame = "Custom") then
        match custom_days with
        | None => Some (StartRaised TypeError)
        | Some n => if decide (n < 30 ∨ 730 < n) then Some ToIndex else None
        end
      else None in
    match checked with
    | Some answer => mret (answer, data)
    | None =>
        match read_players (f_player form) (Z.of_nat num_picks)
                (seq 1 (Z.to_nat num_players)) [] with
        | inl answer => mret (answer, data)
        | inr players =>
            start_date ← get_clock;
            let end_date :=
              get_time_frame_dates time_frame start_date custom_days in
            mret (Started,
                  {| players := players;
                     draft_order :=
                       get_snake_order (player_names players) num_picks;
                     picks := []; status := "draft"; all_picks := [];
                     time_frame := Some time_frame;
                     start_date := Some start_date;
                     end_date := Some end_date; trades := [];
                     milestones := initial_milestones start_date end_date;
                     trade_limits := initial_trade_limits players |})
        end
    end.

End Setup.

(** ** Closing a game: [archive_game] and [new_game] *)

(** One row of an archived leaderboard, and one entry of
    [game_history.json]. *)
Record archived_row := { a_name : string; a_points : Q }.

Record history_entry := {
  h_id : Z;
  h_end_date : string;
  h_time_frame : option string;
  h_winner : option string;
  h_leaderboard : list archived_row;
  h_picks : dict (list pick)
}.

(** The stable descending sort, on archived rows. *)
Fixpoint insert_row (x : archived_row) (l : list archived_row)
  : list archived_row :=
  match l with
  | [] => [x]
  | y :: l' =>
      if Qltb (a_points x) (a_points y) then y :: insert_row x l' else x :: l
  end.

Definition sort_rows (l : list archived_row) : list archived_row :=
  foldr insert_row [] l.

Inductive new_game_result :=
| BackToIndex             (* redirect to the index page *)
| NewGameRaised.          (* TypeError: the record has no end date to cut *)

Section Archive.
Variable source : string → nat → response.

(** [date_text t] is the first ten characters of the ISO text of the
    instant [t], as [data['end_date'][:10]] cuts them. *)
Variable date_text : Q → string.

(** The loop of [archive_game] over [data['picks'].items()]. *)
Fixpoint archive_rows (items : dict (list pick)) : M (list archived_row) :=
  match items with
  | [] => mret []
  | (player, picks) :: rest =>
      points ← calculate_points source picks;
      rows ← archive_rows rest;
      mret ({| a_name := player; a_points := points |} :: rows)
  end.

(** [archive_game]: the history file afterwards, or [None] when cutting
    the end date raises. *)
Definition archive_game (history : list history_entry) (data : game_data)
  : M (option (list history_entry)) :=
  rows ← archive_rows (picks data);
  let leaderboard := sort_rows rows in
  match end_date data with
  | None => mret None
  | Some end_date =>
      mret (Some (history ++
        [ {| h_id := Z.of_nat (length history) + 1;
             h_end_date := date_text end_date;
             h_time_frame := time_frame data;
             h_winner := match leaderboard with
                         | first :: _ => Some (a_name first)
                         | [] => None
                         end;
             h_leaderboard := leaderboard;
             h_picks := picks data |} ]))
  end.

(** [new_game()]: the answer and the two files afterwards. *)
Definition new_game (history : list history_entry) (data : game_data)
  : M (new_game_result * game_data * list history_entry) :=
  if decide (status data = "finished") then
    archived ← archive_game history data;
    match archived with
    | None => mret (NewGameRaised, data, history)
    | Some history' => mret (BackToIndex, blank_data, history')
    end
  else mret (BackToIndex, blank_data, history).

End Archive.

(** ** A whole session *)

(** The three files. *)
Record session := {
  s_data : game_data;
  s_history : list history_entry;
  s_world : world
}.

Inductive session_request :=
| Start (form : setup_form)
| NewGame
| Play (req : request).

Section Session.
Variable source : string → nat → response.
Variable annualized_volatility : string → Q → Q → option deviation.
Variable np : numpy.
Variables year month day : Q → Z.
Variable datetime : Z → Z → Z → Q.
Variable date_text : Q → string.

Definition serve (s : session) (req : session_request) : session :=
  match req with
  | Start form =>
      let r := start year month day datetime form (s_data s) (s_world s) in
      {| s_data := r.1.2; s_history := s_history s; s_world := r.2 |}
  | NewGame =>
      let r := new_game source date_text (s_history s) (s_data s)
                 (s_world s) in
      {| s_data := r.1.1.2; s_history := r.1.2; s_world := r.2 |}
  | Play req =>
      let st := handle source annualized_volatility np
                  (s_data s, s_world s) req in
      {| s_data := st.1; s_history := s_history s; s_world := st.2 |}
  end.

Definition serve_all (s : session) (reqs : list session_request) : session :=
  foldl serve s reqs.

End Session.

(** *** What a session keeps true *)

(** The proposals a player has made, and the turns a player has left. *)
Definition proposals (who : string) (ts : list trade) : nat :=
  length (filter (λ t, from_player t = who) ts).

Definition turns_left (who : string) (queue : list string) : nat :=
  length (filter (λ x, x = who) queue).

(** A quota is never negative, and with the proposals made it adds up to
    the three a player starts with; a name without a quota has made no
    proposal. *)
Definition quota_ok (data : game_data) : Prop :=
  ∀ who,
    match trade_limits data !! who with
    | Some n => 0 ≤ n ∧ n + Z.of_nat (proposals who (trades data)) = 3
    | None => proposals who (trades data) = 0%nat
    end.

(** The trades are numbered 1, 2, ... in the order of the list. *)
Definition ids_sequential (ts : list trade) : Prop :=
  ∀ i t, ts !! i = Some t → t_id t = Z.of_nat i + 1.

(** The turns a player has left and the tickers the player holds add up
    to the picks per player. *)
Definition turns_ok (data : game_data) : Prop :=
  Forall (λ p, Z.of_nat (turns_left (name p) (draft_order data))
               + Z.of_nat (length (picked p)) = max_picks p)
         (players data).

(** A finished game has an end date. *)
Definition dated (data : game_data) : Prop :=
  status data = "finished" → is_Some (end_date data).

(** The draft is over once the phase is [done] or a trade has been
    proposed: the queue is empty. *)
Definition draft_closed (data : game_data) : Prop :=
  status data = "done" ∨ trades data ≠ [] → draft_order data = [].

(** The archived games are numbered 1, 2, ... *)
Definition history_ids (history : list history_entry) : Prop :=
  ∀ i e, history !! i = Some e → h_id e = Z.of_nat i + 1.

(** What every request keeps true of the three files: the books of the
    session, and the shape of the record and of the cache. *)
Record session_ok (s : session) : Prop := {
  ok_quota : quota_ok (s_data s);
  ok_ids : ids_sequential (trades (s_data s));
  ok_turns : turns_ok (s_data s);
  ok_dated : dated (s_data s);
  ok_history : history_ids (s_history s)
}.

Definition session_sound (s : session) : Prop :=
  well_formed (s_data s) ∧ cache_priced (s_world s).

(** The session before the first game. *)
Definition new_session (w : world) : session :=
  {| s_data := blank_data; s_history := []; s_world := w |}.

(** *** The highest-gain milestone in the words of its rule *)

Section GainSpec.
Variable source : string → nat → response.



End GainSpec.


(** *** The cost of a computation *)

(** A computation that makes at most [lookups] price lookups: a lookup
    sends at most 5 quote requests and sleeps at most 150 seconds, so the
    computation sends at most [5 * lookups] requests and takes the clock
    forward by at most [150 * lookups] seconds, and never back. *)
Definition within_budget {A} (m : M A) (lookups : nat) : Prop :=
  ∀ w,
    (calls w ≤ calls (m w).2 ≤ calls w + 5 * lookups)%nat
    ∧ (clock w <= clock (m w).2)%Q
    ∧ (clock (m w).2 <= clock w + inject_Z (150 * Z.of_nat lookups))%Q.

(** The number of picks in the game. *)
Definition pick_count (ps : dict (list pick)) : nat := length (all_held ps).

(** ** Sample set-up forms and sessions *)

(** A calendar in which every instant falls on 30 June 2025, the
    midnight of that day being the instant 0. *)
Definition sample_year : Q → Z := λ _, 2025.
Definition sample_month : Q → Z := λ _, 6.
Definition sample_day : Q → Z := λ _, 30.
Definition sample_datetime : Z → Z → Z → Q := λ _ _ _, 0%Q.
Definition sample_date_text : Q → string := λ _, "2025-06-30".

(** The name form filled in for ann and bob, one pick each. *)
Definition sample_form (time_frame : string) (custom_days : option Z)
  : setup_form :=
  {| f_num_players := 2; f_num_picks := "1"; f_time_frame := time_frame;
     f_custom_days := custom_days;
     f_player := λ i, if decide (i = 1%nat) then Some " ann "
                      else if decide (i = 2%nat) then Some "bob"
                      else None |}.

(** A game from the set-up to a trade and the summary page. *)
Definition sample_requests : list session_request :=
  [ Start (sample_form "1 Quarter" None);
    Play (PostDraft "ann" "aapl");
    Play (PostDraft "bob" "msft");
    Play (GetDraft None);
    Play (PostTrade (Propose "ann" "bob" "AAPL" "MSFT"));
    Play (PostTrade (Respond 1 "accepted"));
    Play GetGame ].

(** * Properties *)

(** ** Snake order *)

Section SnakeOrder.
Context {A : Type}.
Implicit Types (players : list A) (r i : nat).

Lemma snake_round_length players i :
  length (snake_round players i) = length players.
Proof. unfold snake_round. destruct (Nat.even i); by rewrite ?length_reverse. Qed.

Lemma get_snake_order_S players r :
  get_snake_order players (S r)
  = get_snake_order players r ++ snake_round players r.
Proof.
  unfold get_snake_order, snake_round.
  rewrite seq_S, foldl_app. simpl. by destruct (Nat.even r).
Qed.

Lemma get_snake_order_length players r :
  length (get_snake_order players r) = (length players * r)%nat.
Proof.
  induction r as [|r IH]; [simpl; lia|].
  rewrite get_snake_order_S, length_app, snake_round_length, IH. lia.
Qed.

Lemma get_snake_order_round players r i :
  (i < r)%nat →
  take (length players) (drop (i * length players) (get_snake_order players r))
  = snake_round players i.
Proof.
  induction r as [|r IH]; [lia|]. intros Hi.
  rewrite get_snake_order_S.
  destruct (decide (i = r)) as [->|Hne].
  - rewrite drop_app_length'
      by (rewrite get_snake_order_length; lia).
    rewrite <- (snake_round_length players r) at 1. apply firstn_all.
  - assert (Hlt : (i < r)%nat) by lia.
    rewrite drop_app_le by (rewrite get_snake_order_length; nia).
    rewrite take_app_le; [by apply IH|].
    rewrite length_drop, get_snake_order_length. nia.
Qed.

End SnakeOrder.

(** C8. For a player list of length N and R rounds the draft queue has
    length N×R, and the slice of round [i] (0-indexed, [i < R]) is the
    player list, forward when [i] is even and reversed when [i] is odd.
    It holds for the empty player list as well. *)
Theorem snake_order_rounds {A} (players : list A) (total_rounds : nat) :
  length (get_snake_order players total_rounds)
  = (length players * total_rounds)%nat
  ∧ ∀ i, (i < total_rounds)%nat →
      take (length players)
           (drop (i * length players) (get_snake_order players total_rounds))
      = if Nat.even i then players else reverse players.
Proof.
  split; [apply get_snake_order_length|].
  intros i Hi. by apply get_snake_order_round.
Qed.

Lemma snake_order_rounds_witness :
  (1 < 2)%nat
  ∧ take 3 (drop (1 * 3) (get_snake_order ["ann"; "bob"; "cy"] 2))
    = ["cy"; "bob"; "ann"].
Proof.
  split; [lia|].
  apply (proj2 (snake_order_rounds ["ann"; "bob"; "cy"] 2) 1%nat). lia.
Defined.

(** ** Price cache and quote fetcher *)

Lemma Qltb_lt (x y : Q) : Qltb x y = true ↔ (x < y)%Q.
Proof.
  unfold Qltb. rewrite negb_true_iff, <- not_true_iff_false, Qle_bool_iff.
  split; [apply Qnot_le_lt | apply Qlt_not_le].
Qed.

Lemma Qltb_ge (x y : Q) : Qltb x y = false ↔ (y <= x)%Q.
Proof. unfold Qltb. by rewrite negb_false_iff, Qle_bool_iff. Qed.

Lemma truthy_nonzero (x : Q) : truthy x = true ↔ ¬ (x == 0)%Q.
Proof.
  unfold truthy. by rewrite negb_true_iff, <- not_true_iff_false, Qeq_bool_iff.
Qed.

Section Retry.
Variable source : string → nat → response.
Variables (ticker : string) (max_retries : nat) (initial_delay : Z).

Lemma after_retries_cache a k w :
  cache (after_retries initial_delay a k w) = cache w.
Proof. revert a w. induction k as [|k IH]; intros a w; simpl; [done|]. by rewrite IH. Qed.

Lemma after_retries_calls a k w :
  calls (after_retries initial_delay a k w) = (k + calls w)%nat.
Proof.
  revert a w. induction k as [|k IH]; intros a w; simpl; [done|].
  rewrite IH. simpl. lia.
Qed.

Lemma after_retries_sleeps a k w :
  sleeps (after_retries initial_delay a k w)
  = sleeps w ++ (backoff_delay initial_delay <$> seq a k).
Proof.
  revert a w. induction k as [|k IH]; intros a w; simpl.
  - by rewrite app_nil_r.
  - rewrite IH. simpl. by rewrite <- app_assoc.
Qed.

Lemma after_retries_clock a k w :
  (clock (after_retries initial_delay a k w)
   == clock w + Qsum (backoff_delay initial_delay <$> seq a k))%Q.
Proof.
  revert a w. induction k as [|k IH]; intros a w; simpl.
  - unfold Qsum. simpl. lra.
  - rewrite IH. simpl. unfold Qsum. simpl. symmetry. apply Qplus_assoc.
Qed.

(** A run of rate-limited answers walks through the attempts, as long as
    the last attempt of the budget is not among them. *)
Lemma fetch_attempts_rate_limited k : ∀ a w rest,
  (∀ j, (j < k)%nat → source ticker (j + calls w) = HTTPError 429) →
  (a + k ≤ max_retries - 1)%nat →
  fetch_attempts source ticker max_retries initial_delay (seq a k ++ rest) w
  = fetch_attempts source ticker max_retries initial_delay rest
      (after_retries initial_delay a k w).
Proof.
  induction k as [|k IH]; intros a w rest Hsrc Hle; [done|].
  simpl. unfold mbind at 1, M_bind, request_history.
  pose proof (Hsrc 0%nat ltac:(lia)) as H0. simpl in H0. rewrite H0. simpl.
  assert (Ha : (a <? max_retries - 1)%nat = true) by (apply Nat.ltb_lt; lia).
  rewrite Ha. unfold mbind, M_bind, sleep. simpl.
  apply IH; [|lia].
  intros j Hj. simpl. rewrite <- (Hsrc (S j)) by lia. f_equal. lia.
Qed.

(** The fetcher leaves the cache alone and sends at least one request,
    provided it is given an attempt at all. *)
Lemma fetch_attempts_cache attempts : ∀ w,
  cache (fetch_attempts source ticker max_retries initial_delay attempts w).2
  = cache w.
Proof.
  induction attempts as [|a rest IH]; intros w; simpl; [done|].
  unfold mbind at 1, M_bind, request_history.
  destruct (source ticker (calls w)) as [closes|code|]; simpl; try done.
  - destruct (last closes) as [c|]; [destruct (truthy c)|]; done.
  - destruct (code =? 429); [|done].
    destruct (a <? max_retries - 1)%nat; [|done].
    unfold mbind, M_bind, sleep. simpl. by rewrite IH.
Qed.

Lemma fetch_attempts_calls a rest w :
  (calls w
   < calls (fetch_attempts source ticker max_retries initial_delay
              (a :: rest) w).2)%nat.
Proof.
  revert a w. induction rest as [|b rest IH]; intros a w; simpl;
    unfold mbind at 1, M_bind, request_history;
    destruct (source ticker (calls w)) as [closes|code|]; simpl; try lia.
  - destruct (last closes) as [c|]; [destruct (truthy c)|]; simpl; lia.
  - destruct (code =? 429); [|simpl; lia].
    destruct (a <? max_retries - 1)%nat; simpl; lia.
  - destruct (last closes) as [c|]; [destruct (truthy c)|]; simpl; lia.
  - destruct (code =? 429); [|simpl; lia].
    destruct (a <? max_retries - 1)%nat; [|simpl; lia].
    unfold mbind at 1, M_bind, sleep.
    etrans; [|apply IH]. simpl. lia.
Qed.

End Retry.

Section PriceLookup.
Variable source : string → nat → response.
Implicit Types (ticker : string) (w : world) (e : cache_entry).

Lemma get_cached_hit ticker w e :
  cache w !! upper ticker = Some e →
  (clock w - timestamp e < 21600)%Q →
  get_cached_stock_info ticker 21600 w = (Some (info e), w).
Proof.
  intros He Hage. unfold get_cached_stock_info, mbind, M_bind, load_cache,
    get_clock. rewrite He.
  by rewrite (proj2 (Qltb_lt _ _) Hage).
Qed.

Lemma get_cached_miss ticker w :
  cache_miss w ticker → get_cached_stock_info ticker 21600 w = (None, w).
Proof.
  unfold get_cached_stock_info, mbind, M_bind, load_cache, get_clock.
  intros [Hnone|(e & He & Hage)].
  - by rewrite Hnone.
  - rewrite He. by rewrite (proj2 (Qltb_ge _ _) Hage).
Qed.

(** Four rate-limited answers and then a price. *)
Lemma fetch_fifth_price ticker w closes p :
  (∀ j, (j < 4)%nat → source ticker (j + calls w) = HTTPError 429) →
  source ticker (4 + calls w) = History closes →
  last closes = Some p → ¬ (p == 0)%Q →
  fetch_stock_info source ticker w
  = (Some {| currentPrice := p |}, count_request (after_retries 10 0 4 w)).
Proof.
  intros Hlim Hfifth Hlast Hp.
  unfold fetch_stock_info, fetch_stock_info_with.
  change (seq 0 5) with (seq 0 4 ++ [4%nat]).
  rewrite fetch_attempts_rate_limited by (done || (simpl; lia)).
  cbn [fetch_attempts]. unfold mbind at 1, M_bind, request_history.
  rewrite after_retries_calls, Hfifth, Hlast.
  by rewrite (proj2 (truthy_nonzero p) Hp).
Qed.

(** Five rate-limited answers. *)
Lemma fetch_all_rate_limited ticker w :
  (∀ j, (j < 5)%nat → source ticker (j + calls w) = HTTPError 429) →
  fetch_stock_info source ticker w
  = (None, count_request (after_retries 10 0 4 w)).
Proof.
  intros Hlim.
  unfold fetch_stock_info, fetch_stock_info_with.
  change (seq 0 5) with (seq 0 4 ++ [4%nat]).
  rewrite fetch_attempts_rate_limited
    by ((intros; apply Hlim; lia) || (simpl; lia)).
  cbn [fetch_attempts]. unfold mbind at 1, M_bind, request_history.
  by rewrite after_retries_calls, (Hlim 4%nat) by lia.
Qed.

End PriceLookup.

(** C1. With no usable cache entry for the ticker, four rate-limited
    answers followed by a price make [fetch_stock_info], and the price
    lookup built on it, return that price after exactly 5 requests, having
    slept 10, 20, 40 and 80 seconds ([initial_delay * 2^attempt]) between
    the attempts, 150 in all; five rate-limited answers make them return
    nothing after exactly 5 requests. *)
Theorem fetch_backoff (source : string → nat → response)
    (ticker : string) (w : world) :
  cache_miss w ticker →
  (∀ j, (j < 4)%nat → source ticker (j + calls w)%nat = HTTPError 429) →
  let delays := backoff_delay 10 <$> seq 0 4 in
  let fetched := fetch_stock_info source ticker w in
  let r := get_price source ticker w in
  delays = [10; 20; 40; 80]%Q
  ∧ (∀ closes p,
       source ticker (4 + calls w)%nat = History closes →
       last closes = Some p → ¬ (p == 0)%Q →
       fetched.1 = Some {| currentPrice := p |}
       ∧ r.1 = Some p
       ∧ calls fetched.2 = (5 + calls w)%nat
       ∧ calls r.2 = (5 + calls w)%nat
       ∧ sleeps r.2 = sleeps w ++ delays
       ∧ (clock r.2 == clock w + (10 + 20 + 40 + 80))%Q)
  ∧ (source ticker (4 + calls w)%nat = HTTPError 429 →
       fetched.1 = None
       ∧ r.1 = None
       ∧ calls fetched.2 = (5 + calls w)%nat
       ∧ calls r.2 = (5 + calls w)%nat
       ∧ sleeps r.2 = sleeps w ++ delays).
Proof.
  intros Hmiss Hlim delays fetched r. split; [reflexivity|]. split.
  - intros closes p Hfifth Hlast Hp.
    pose proof (fetch_fifth_price source ticker w closes p
                  Hlim Hfifth Hlast Hp) as Hfetch.
    subst fetched r. unfold get_price, mbind, M_bind.
    rewrite (get_cached_miss ticker w Hmiss), Hfetch. simpl.
    repeat split; try done.
    + subst delays. simpl. by rewrite <- !app_assoc.
    + change (backoff_delay 10 0) with 10%Q.
      change (backoff_delay 10 1) with 20%Q.
      change (backoff_delay 10 2) with 40%Q.
      change (backoff_delay 10 3) with 80%Q. lra.
  - intros Hfifth.
    assert (Hall : ∀ j, (j < 5)%nat →
                        source ticker (j + calls w)%nat = HTTPError 429).
    { intros j Hj. destruct (decide (j = 4%nat)) as [->|]; [done|].
      apply Hlim. lia. }
    pose proof (fetch_all_rate_limited source ticker w Hall) as Hfetch.
    subst fetched r. unfold get_price, mbind, M_bind.
    rewrite (get_cached_miss ticker w Hmiss), Hfetch. simpl.
    repeat split; try done.
    subst delays. simpl. by rewrite <- !app_assoc.
Qed.

Lemma fetch_backoff_witness :
  (get_price flaky_source "AAPL" (cold_world 0)).1 = Some (375 # 2)%Q
  ∧ calls (get_price flaky_source "AAPL" (cold_world 0)).2 = 5%nat.
Proof.
  assert (Hmiss : cache_miss (cold_world 0) "AAPL") by (left; apply lookup_empty).
  assert (Hlim : ∀ j, (j < 4)%nat →
            flaky_source "AAPL" (j + calls (cold_world 0))%nat = HTTPError 429).
  { intros j Hj. unfold flaky_source. simpl.
    by rewrite (proj2 (Nat.ltb_lt _ _)) by lia. }
  destruct (fetch_backoff flaky_source "AAPL" (cold_world 0) Hmiss Hlim)
    as (_ & Hprice & _).
  destruct (Hprice [375 # 2]%Q (375 # 2)%Q eq_refl eq_refl)
    as (_ & Hr & _ & Hcalls & _); [by intros [=]|].
  by split.
Defined.

Section CacheTTL.
Variable source : string → nat → response.
Implicit Types (ticker : string) (w : world) (e : cache_entry).

Lemma fetch_stock_info_cache ticker w :
  cache (fetch_stock_info source ticker w).2 = cache w.
Proof. apply fetch_attempts_cache. Qed.

Lemma fetch_stock_info_calls ticker w :
  (calls w < calls (fetch_stock_info source ticker w).2)%nat.
Proof. apply fetch_attempts_calls. Qed.

(** On a miss the lookup is the fetcher's answer, written to the cache
    when there is one. *)
Lemma get_price_miss ticker w :
  cache_miss w ticker →
  get_price source ticker w
  = let fetched := fetch_stock_info source ticker w in
    match fetched.1 with
    | Some i => (Some (currentPrice i), (cache_stock_info ticker i fetched.2).2)
    | None => (None, fetched.2)
    end.
Proof.
  intros Hmiss. unfold get_price, mbind, M_bind.
  rewrite (get_cached_miss ticker w Hmiss).
  destruct (fetch_stock_info source ticker w) as [[i|] w1]; [|done].
  simpl. by destruct (cache_stock_info ticker i w1).
Qed.

End CacheTTL.

(** C2. An entry under the upper-cased ticker whose age is below 21600
    is returned as it is and nothing else happens: no request is sent.
    With no entry, or one whose age is 21600 or more, the fetcher is
    run: a request for the ticker is sent, the answer of the lookup is the
    fetcher's, and a price it returns is stored under the upper-cased
    ticker with the clock's reading, the other entries staying as they
    were. *)
Theorem cache_ttl (source : string → nat → response)
    (ticker : string) (w : world) :
  (∀ e, cache w !! upper ticker = Some e →
        (clock w - timestamp e < 21600)%Q →
        get_price source ticker w = (Some (currentPrice (info e)), w))
  ∧ (cache_miss w ticker →
     let r := get_price source ticker w in
     r.1 = currentPrice <$> (fetch_stock_info source ticker w).1
     ∧ (calls w < calls r.2)%nat
     ∧ ∀ p, r.1 = Some p →
         cache r.2
         = <[upper ticker := {| info := {| currentPrice := p |};
                               timestamp := clock r.2 |}]> (cache w)).
Proof.
  split.
  - intros e He Hage. unfold get_price, mbind, M_bind.
    by rewrite (get_cached_hit ticker w e He Hage).
  - intros Hmiss r. subst r. rewrite (get_price_miss source ticker w Hmiss).
    pose proof (fetch_stock_info_calls source ticker w) as Hcalls.
    pose proof (fetch_stock_info_cache source ticker w) as Hcache.
    destruct (fetch_stock_info source ticker w) as [[[p]|] w1]; simpl in *.
    + repeat split; [done|]. intros q [= <-]. by rewrite Hcache.
    + repeat split; [done|]. by intros q [=].
Qed.

Lemma cache_ttl_witness :
  get_price steady_source "aapl" (warm_world 22599)
  = (Some 100%Q, warm_world 22599)
  ∧ (calls (warm_world 22600)
     < calls (get_price steady_source "aapl" (warm_world 22600)).2)%nat.
Proof.
  split.
  - apply (proj1 (cache_ttl steady_source "aapl" (warm_world 22599))
             {| info := {| currentPrice := 100 |}; timestamp := 1000 |}).
    + reflexivity.
    + reflexivity.
  - apply (proj2 (cache_ttl steady_source "aapl" (warm_world 22600))).
    right. exists {| info := {| currentPrice := 100 |}; timestamp := 1000 |}.
    split; [reflexivity|]. by intros [=].
Defined.

(** ** Draft engine *)

Section PyListFacts.
Context {A : Type} `{EqDecision A}.
Implicit Types (x : A) (l : list A).

Lemma list_remove_Some x l l' :
  list_remove x l = Some l' ↔
  ∃ l1 l2, l = l1 ++ (x :: l2) ∧ (x ∉ l1) ∧ l' = l1 ++ l2.
Proof.
  revert l'. induction l as [|y l IH]; intros l'; simpl.
  - split; [done|]. intros (l1 & l2 & Hl & _). by destruct l1.
  - destruct (decide (x = y)) as [<-|Hne].
    + split.
      * intros [= <-]. exists [], l. split_and!; [done| |done].
        apply not_elem_of_nil.
      * intros (l1 & l2 & Hl & Hnot & ->). destruct l1 as [|z l1].
        -- by injection Hl as ->.
        -- injection Hl as -> _. exfalso. apply Hnot. left.
    + destruct (list_remove x l) as [l''|] eqn:Hrem; simpl.
      * destruct (proj1 (IH l'') eq_refl) as (l1 & l2 & -> & Hnot & ->).
        split.
        -- intros [= <-]. exists (y :: l1), l2. split_and!; [done| |done].
           by apply not_elem_of_cons.
        -- intros (k1 & k2 & Hl & Hk & ->). f_equal.
           destruct k1 as [|z k1]; [by injection Hl as ->|].
           injection Hl as <- Hl. simpl. f_equal.
           apply not_elem_of_cons in Hk as [_ Hk].
           assert (Hsome : Some (l1 ++ l2) = Some (k1 ++ k2)); [|by injection Hsome].
           apply IH. eauto.
      * split; [done|]. intros (k1 & k2 & Hl & Hk & ->).
        destruct k1 as [|z k1]; [by injection Hl as ->|].
        injection Hl as <- Hl. apply not_elem_of_cons in Hk as [_ Hk].
        assert (Hsome : None = Some (k1 ++ k2)); [|done].
        apply IH. eauto.
Qed.

Lemma list_remove_None x l : list_remove x l = None ↔ x ∉ l.
Proof.
  induction l as [|y l IH]; simpl.
  - split; [intros _; apply not_elem_of_nil | done].
  - destruct (decide (x = y)) as [<-|Hne].
    + split; [done|]. intros Hnot. exfalso. apply Hnot. left.
    + rewrite not_elem_of_cons. destruct (list_remove x l); simpl.
      * split; [done|]. intros [_ Hnot]. by apply IH in Hnot.
      * split; [|done]. intros _. split; [done|]. by apply IH.
Qed.

Lemma list_remove_head x l : list_remove x (x :: l) = Some l.
Proof. simpl. by rewrite decide_True. Qed.

End PyListFacts.

Section DictFacts.
Context {V : Type}.
Implicit Types (k : string) (v : V) (d : dict V).

Lemma dict_get_set_eq k v d : dict_get k (dict_set k v d) = Some v.
Proof.
  induction d as [|[k' v'] d IH]; simpl.
  - by rewrite decide_True.
  - case_decide as Hk; simpl; [by rewrite decide_True|].
    by rewrite decide_False.
Qed.

Lemma dict_get_set_ne k k' v d :
  k ≠ k' → dict_get k' (dict_set k v d) = dict_get k' d.
Proof.
  intros Hne. induction d as [|[k0 v0] d IH]; simpl.
  - by rewrite decide_False.
  - destruct (decide (k = k0)) as [->|Hk]; simpl.
    + by rewrite !decide_False by done.
    + by rewrite IH.
Qed.

Lemma dict_set_keys k v d :
  is_Some (dict_get k d) → (dict_set k v d).*1 = d.*1.
Proof.
  induction d as [|[k' v'] d IH]; simpl; [by intros [? [=]]|].
  case_decide as Hk; [done|]. intros Hsome. simpl. f_equal. by apply IH.
Qed.

End DictFacts.

Section Draft.
Variable source : string → nat → response.
Implicit Types (who raw : string) (data : game_data) (w : world).

(** A request that does not end in [Picked] writes nothing. *)
Lemma draft_post_unsaved who raw data w :
  (draft_post source who raw data w).1.1 ≠ Picked →
  (draft_post source who raw data w).1.2 = data.
Proof.
  unfold draft_post. repeat case_decide; try done.
  unfold mbind, M_bind.
  destruct (get_price source (strip (upper raw)) w) as [[current|] w1];
    try done.
  simpl. by destruct (list_remove who (draft_order data)).
Qed.

(** A ticker that is already drafted is refused before anything else is
    looked at; the answer names the player at the front of the queue. *)
Lemma draft_post_duplicate who raw data w :
  strip (upper raw) ≠ "" →
  strip (upper raw) ∈ all_picks data →
  draft_post source who raw data w
  = (draft_error_page data (AlreadyDrafted (strip (upper raw))), data, w).
Proof.
  intros Hne Hin. unfold draft_post. by rewrite decide_False, decide_True.
Qed.

Lemma draft_post_duplicate_turn who raw data w current_player rest :
  strip (upper raw) ≠ "" →
  strip (upper raw) ∈ all_picks data →
  draft_order data = current_player :: rest →
  draft_post source who raw data w
  = (AlreadyDrafted (strip (upper raw)) current_player, data, w).
Proof.
  intros Hne Hin Hq. rewrite draft_post_duplicate by done.
  unfold draft_error_page. by rewrite Hq.
Qed.

(** What a successful pick writes. *)
Lemma draft_post_picked who raw data w :
  (draft_post source who raw data w).1.1 = Picked →
  ∃ order current,
    list_remove who (draft_order data) = Some order
    ∧ (get_price source (strip (upper raw)) w).1 = Some current
    ∧ (strip (upper raw) ∉ all_picks data)
    ∧ draft_order (draft_post source who raw data w).1.2 = order
    ∧ all_picks (draft_post source who raw data w).1.2
      = all_picks data ++ [strip (upper raw)]
    ∧ picks (draft_post source who raw data w).1.2
      = setdefault_append who
          {| ticker := strip (upper raw); price := current;
             time := clock (get_price source (strip (upper raw)) w).2 |}
          (picks data).
Proof.
  unfold draft_post. case_decide as Hempty.
  { unfold draft_error_page. simpl. by destruct (draft_order data). }
  case_decide as Hdup.
  { unfold draft_error_page. simpl. by destruct (draft_order data). }
  unfold mbind, M_bind.
  destruct (get_price source (strip (upper raw)) w) as [[current|] w1].
  - simpl. destruct (list_remove who (draft_order data)) as [order|];
      simpl; [|done].
    intros _. by exists order, current.
  - unfold draft_error_page. simpl. by destruct (draft_order data).
Qed.

End Draft.

(** C6, as the code has it.  [draft_order.remove(name)] drops the first
    entry equal to the submitting player, wherever it stands: a successful
    pick removes exactly that entry, which is the front entry when the
    player is on turn; nothing compares the front entry with the player.
    So a submission under a name that stands anywhere in the queue, at
    the front or further back, is recorded, provided the ticker is not
    empty, not yet drafted and has a price: the request ends in the
    redirect, the first entry of that name leaves the queue, and the pick
    is appended to the picks of that name.  A name that is nowhere in the
    queue gets no pick recorded. *)
Theorem draft_removes_first_entry (source : string → nat → response)
    (who raw : string) (data : game_data) (w : world) :
  let r := draft_post source who raw data w in
  (r.1.1 = Picked →
     (∃ before after,
        draft_order data = before ++ (who :: after)
        ∧ (who ∉ before)
        ∧ draft_order r.1.2 = before ++ after)
     ∧ (head (draft_order data) = Some who →
        draft_order r.1.2 = tail (draft_order data)))
  ∧ (∀ before after current,
       draft_order data = before ++ (who :: after) → (who ∉ before) →
       strip (upper raw) ≠ "" → (strip (upper raw) ∉ all_picks data) →
       (get_price source (strip (upper raw)) w).1 = Some current →
       r.1.1 = Picked
       ∧ draft_order r.1.2 = before ++ after
       ∧ held r.1.2 who
         = held data who
           ++ [ {| ticker := strip (upper raw); price := current;
                   time := clock r.2 |} ]
       ∧ all_picks r.1.2 = all_picks data ++ [strip (upper raw)])
  ∧ ((who ∉ draft_order data) → r.1.1 ≠ Picked ∧ r.1.2 = data).
Proof.
  intros r. split_and!.
  - intros Hpicked.
    destruct (draft_post_picked source who raw data w Hpicked)
      as (order & current & Hrem & _ & _ & Horder & _).
    fold r in Horder. rewrite Horder. split.
    + by apply list_remove_Some.
    + destruct (draft_order data) as [|front rest]; [done|].
      intros [= ->]. rewrite list_remove_head in Hrem. by injection Hrem.
  - intros before after current Hqueue Hbefore Hempty Hnew Hprice.
    assert (Hrem : list_remove who (draft_order data) = Some (before ++ after)).
    { apply list_remove_Some. by exists before, after. }
    subst r. unfold draft_post.
    rewrite decide_False by done. rewrite decide_False by done.
    unfold mbind, M_bind.
    destruct (get_price source (strip (upper raw)) w) as [current' w1].
    cbn [fst] in Hprice. subst current'. cbn [get_clock fst snd].
    rewrite Hrem. cbn [fst snd mret M_ret draft_order all_picks].
    split_and!; [done|done| |done].
    unfold held, setdefault_append. cbn [picks].
    by rewrite dict_get_set_eq.
  - intros Hnot.
    assert (Hne : r.1.1 ≠ Picked).
    { intros Hpicked.
      destruct (draft_post_picked source who raw data w Hpicked)
        as (order & _ & Hrem & _).
      apply list_remove_None in Hnot. congruence. }
    split; [done|]. by apply draft_post_unsaved.
Qed.

Lemma draft_removes_first_entry_witness :
  let r := draft_post steady_source "bob" "msft" opening_data (cold_world 5) in
  r.1.1 = Picked
  ∧ draft_order r.1.2 = ["ann"] ++ ["bob"; "ann"]
  ∧ held r.1.2 "bob"
    = held opening_data "bob"
      ++ [ {| ticker := strip (upper "msft"); price := 110;
              time := clock r.2 |} ]
  ∧ all_picks r.1.2 = all_picks opening_data ++ [strip (upper "msft")].
Proof.
  apply (proj1 (proj2 (draft_removes_first_entry steady_source "bob" "msft"
                         opening_data (cold_world 5)))
           ["ann"] ["bob"; "ann"] 110%Q).
  - reflexivity.
  - apply (bool_decide_unpack _). vm_compute. exact I.
  - vm_compute. discriminate.
  - apply (bool_decide_unpack _). vm_compute. exact I.
  - reflexivity.
Defined.

(** C6 as stated fails: with ann at the front of the queue, a pick sent
    under bob's name is accepted and recorded, and the entry that goes is
    bob's first one, the second of the queue. *)
Lemma draft_out_of_turn :
  let r := draft_post steady_source "bob" "msft" opening_data (cold_world 5) in
  draft_order opening_data = ["ann"; "bob"; "bob"; "ann"]
  ∧ r.1.1 = Picked
  ∧ draft_order r.1.2 = ["ann"; "bob"; "ann"]
  ∧ dict_get "bob" (picks r.1.2)
    = Some [ {| ticker := "MSFT"; price := 110; time := 5 |} ].
Proof. vm_compute. by repeat split. Qed.

(** C9 at an empty queue.  Once the last turn is taken the queue is
    empty; a POST for a ticker that is already drafted then reaches
    [data['draft_order'][0]] while building the error page, so the request
    ends in an IndexError and not in the duplicate message.  Nothing is
    written. *)
Theorem duplicate_pick_empty_queue :
  draft_post steady_source "ann" "aapl" drafted_data (cold_world 30)
  = (DraftRaised IndexError, drafted_data, cold_world 30).
Proof. reflexivity. Qed.

(** ** Trade engine *)

Section FindFirst.
Context {A : Type} (P : A → Prop) `{∀ x, Decision (P x)}.

Lemma find_first_cons x l :
  find_first P (x :: l) = if decide (P x) then Some x else find_first P l.
Proof.
  unfold find_first. simpl. case_decide; [done|].
  by destruct (list_find P l) as [[i y]|].
Qed.

Lemma find_first_Some l x :
  find_first P l = Some x →
  ∃ l1 l2, l = l1 ++ (x :: l2) ∧ P x ∧ Forall (λ y, ¬ P y) l1.
Proof.
  induction l as [|y l IH]; [done|]. rewrite find_first_cons.
  case_decide as Hy.
  - intros [= ->]. by exists [], l.
  - intros Hfind. destruct (IH Hfind) as (l1 & l2 & -> & Hx & Hl1).
    exists (y :: l1), l2. split_and!; [done|done|]. by constructor.
Qed.

Lemma find_first_None l : find_first P l = None ↔ Forall (λ y, ¬ P y) l.
Proof.
  induction l as [|y l IH]; [by split|]. rewrite find_first_cons.
  case_decide as Hy.
  - split; [done|]. by inversion 1.
  - rewrite IH. split; [by constructor | by inversion 1].
Qed.

Lemma find_first_app l1 x l2 :
  Forall (λ y, ¬ P y) l1 → P x → find_first P (l1 ++ x :: l2) = Some x.
Proof.
  induction 1 as [|y l1 Hy _ IH]; intros Hx; simpl; rewrite find_first_cons.
  - by rewrite decide_True.
  - rewrite decide_False by done. by apply IH.
Qed.

End FindFirst.

(** The pick [next(...)] finds for a ticker that is held, and what
    [remove] then leaves. *)
Lemma find_pick (tk : string) (l : list pick) :
  tk ∈ tickers l →
  ∃ l1 x l2,
    l = l1 ++ (x :: l2) ∧ ticker x = tk ∧ (tk ∉ tickers l1)
    ∧ find_first (λ p, ticker p = tk) l = Some x
    ∧ list_remove x l = Some (l1 ++ l2).
Proof.
  intros Hin.
  destruct (find_first (λ p, ticker p = tk) l) as [x|] eqn:Hfind.
  - destruct (find_first_Some _ l x Hfind) as (l1 & l2 & -> & Hx & Hl1).
    assert (Hnot : tk ∉ tickers l1).
    { unfold tickers. rewrite list_elem_of_fmap. intros (y & Hy & Hyl).
      rewrite Forall_forall in Hl1. by apply (Hl1 y). }
    exists l1, x, l2. split_and!; try done.
    apply list_remove_Some. exists l1, l2. split_and!; try done.
    intros Hxl. apply Hnot. unfold tickers. rewrite list_elem_of_fmap. eauto.
  - exfalso. apply find_first_None in Hfind.
    unfold tickers in Hin. apply list_elem_of_fmap in Hin as (y & Hy & Hyl).
    rewrite Forall_forall in Hfind. by apply (Hfind y).
Qed.

Section DictShape.
Context {V : Type}.
Implicit Types (k : string) (v : V) (d : dict V).

Lemma dict_get_None k d : dict_get k d = None ↔ k ∉ d.*1.
Proof.
  induction d as [|[k' v'] d IH]; simpl.
  - split; [intros _; apply not_elem_of_nil | done].
  - rewrite not_elem_of_cons. case_decide as Hk.
    + split; [done|]. by intros [? _].
    + rewrite IH. by split; [|intros [_ ?]].
Qed.

Lemma dict_get_elem k v d : dict_get k d = Some v → (k, v) ∈ d.
Proof.
  induction d as [|[k' v'] d IH]; simpl; [done|].
  case_decide as Hk.
  - intros [= ->]. subst. left.
  - intros Hget. right. by apply IH.
Qed.

Lemma dict_set_keys_new k v d :
  dict_get k d = None → (dict_set k v d).*1 = d.*1 ++ [k].
Proof.
  induction d as [|[k' v'] d IH]; simpl; [done|].
  case_decide as Hk; [done|]. intros Hget. simpl. f_equal. by apply IH.
Qed.

Lemma dict_set_Forall (P : string * V → Prop) k v d :
  Forall P d → P (k, v) → Forall P (dict_set k v d).
Proof.
  intros Hd Hkv. induction Hd as [|[k' v'] d Hx Hd IH]; simpl.
  - by constructor.
  - case_decide as Hk; constructor; try done. by subst.
Qed.

End DictShape.

Section AllHeld.
Implicit Types (k : string) (l : list pick) (ps : dict (list pick)).

Lemma all_held_cons k l ps : all_held ((k, l) :: ps) = l ++ all_held ps.
Proof. done. Qed.

(** Replacing one player's list replaces its part of [all_held]. *)
Lemma all_held_dict_set k l l' ps :
  dict_get k ps = Some l →
  all_held (dict_set k l' ps) ++ l ≡ₚ all_held ps ++ l'.
Proof.
  induction ps as [|[k' v'] ps IH]; cbn [dict_get dict_set]; [done|].
  case_decide as Hk.
  - intros [= ->]. rewrite !all_held_cons, <- !app_assoc.
    rewrite (Permutation_app_comm l' _), !app_assoc.
    f_equiv. apply Permutation_app_comm.
  - intros Hget. rewrite !all_held_cons, <- !app_assoc. f_equiv.
    by apply IH.
Qed.

Lemma all_held_dict_set_new k l ps :
  dict_get k ps = None → all_held (dict_set k l ps) = all_held ps ++ l.
Proof.
  induction ps as [|[k' v'] ps IH]; cbn [dict_get dict_set].
  - intros _. unfold all_held. simpl. by rewrite app_nil_r.
  - case_decide as Hk; [done|]. intros Hget.
    by rewrite !all_held_cons, IH, app_assoc.
Qed.

Lemma all_held_remove k l1 x l2 ps :
  dict_get k ps = Some (l1 ++ x :: l2) →
  all_held (dict_set k (l1 ++ l2) ps) ++ [x] ≡ₚ all_held ps.
Proof.
  intros Hget. apply (Permutation_app_inv_r (l1 ++ l2)).
  rewrite <- (all_held_dict_set k _ _ ps Hget), <- !app_assoc.
  f_equiv. simpl. apply Permutation_middle.
Qed.

Lemma all_held_append k l x ps :
  dict_get k ps = Some l →
  all_held (dict_set k (l ++ [x]) ps) ≡ₚ all_held ps ++ [x].
Proof.
  intros Hget. apply (Permutation_app_inv_r l).
  rewrite (all_held_dict_set k _ _ ps Hget), <- !app_assoc.
  f_equiv. apply Permutation_app_comm.
Qed.

Lemma all_held_setdefault_append k x ps :
  all_held (setdefault_append k x ps) ≡ₚ x :: all_held ps.
Proof.
  unfold setdefault_append.
  destruct (dict_get k ps) as [l|] eqn:Hget; simpl.
  - rewrite (all_held_append k l x ps Hget).
    by rewrite <- Permutation_cons_append.
  - rewrite (all_held_dict_set_new k _ ps Hget).
    by rewrite <- Permutation_cons_append.
Qed.

Lemma all_held_elem k l ps : dict_get k ps = Some l → l ⊆ all_held ps.
Proof.
  intros Hget x Hx. unfold all_held. apply list_elem_of_join.
  exists l. split; [done|]. apply list_elem_of_fmap.
  exists (k, l). split; [done|]. by apply dict_get_elem.
Qed.

End AllHeld.

Lemma priced_get (k : string) (l : list pick) (ps : dict (list pick)) :
  priced ps → dict_get k ps = Some l → Forall (λ p, ¬ (price p == 0)%Q) l.
Proof.
  intros Hps Hget. unfold priced in Hps. rewrite Forall_forall in Hps.
  apply (Hps (k, l)). by apply dict_get_elem.
Qed.

Section Swap.
Variable t : trade.
Variables (l1 l2 m1 m2 : list pick) (from_pick to_pick : pick).
Hypothesis Hparties : from_player t ≠ to_player t.
Hypothesis Hoffer : ticker from_pick = offer_ticker t.
Hypothesis Hrequest : ticker to_pick = request_ticker t.
Hypothesis Hl1 : offer_ticker t ∉ tickers l1.
Hypothesis Hm1 : request_ticker t ∉ tickers m1.

Local Abbreviation swapped :=
  (swapped_lists t (l1 ++ l2 ++ [to_pick]) (m1 ++ m2 ++ [from_pick])).

Lemma first_offer :
  find_first (λ p, ticker p = offer_ticker t) (l1 ++ from_pick :: l2)
  = Some from_pick
  ∧ list_remove from_pick (l1 ++ from_pick :: l2) = Some (l1 ++ l2).
Proof.
  split.
  - apply find_first_app; [|done]. apply Forall_forall. intros y Hy Hty.
    apply Hl1. unfold tickers. rewrite list_elem_of_fmap. eauto.
  - apply list_remove_Some. exists l1, l2.
    split_and!; try done. intros Hin. apply Hl1. unfold tickers.
    rewrite list_elem_of_fmap. eauto.
Qed.

Lemma first_request :
  find_first (λ p, ticker p = request_ticker t) (m1 ++ to_pick :: m2)
  = Some to_pick
  ∧ list_remove to_pick (m1 ++ to_pick :: m2) = Some (m1 ++ m2).
Proof.
  split.
  - apply find_first_app; [|done]. apply Forall_forall. intros y Hy Hty.
    apply Hm1. unfold tickers. rewrite list_elem_of_fmap. eauto.
  - apply list_remove_Some. exists m1, m2.
    split_and!; try done. intros Hin. apply Hm1. unfold tickers.
    rewrite list_elem_of_fmap. eauto.
Qed.

Lemma swap_picks_swapped (ps : dict (list pick)) :
  dict_get (from_player t) ps = Some (l1 ++ from_pick :: l2) →
  dict_get (to_player t) ps = Some (m1 ++ to_pick :: m2) →
  ∃ ps', swap_picks t ps = inr ps' ∧ swapped ps ps' ∧ ps'.*1 = ps.*1
         ∧ all_held ps' ≡ₚ all_held ps
         ∧ (priced ps → priced ps').
Proof.
  intros Hfrom Hto. unfold swap_picks. rewrite Hfrom, Hto.
  destruct first_offer as [-> ->]. destruct first_request as [-> Hrem].
  set (ps1 := dict_set (from_player t) (l1 ++ l2) ps).
  assert (Hto1 : dict_get (to_player t) ps1 = Some (m1 ++ to_pick :: m2)).
  { subst ps1. by rewrite dict_get_set_ne. }
  rewrite Hto1. simpl. rewrite Hrem.
  set (ps2 := dict_set (to_player t) (m1 ++ m2) ps1).
  assert (Hfrom2 : dict_get (from_player t) ps2 = Some (l1 ++ l2)).
  { subst ps2 ps1. by rewrite dict_get_set_ne, dict_get_set_eq. }
  rewrite Hfrom2. simpl.
  set (ps3 := dict_set (from_player t) ((l1 ++ l2) ++ [to_pick]) ps2).
  assert (Hto3 : dict_get (to_player t) ps3 = Some (m1 ++ m2)).
  { subst ps3 ps2. by rewrite dict_get_set_ne, dict_get_set_eq. }
  rewrite Hto3. simpl.
  eexists. split; [done|]. split_and!.
  - split_and!.
    + subst ps3. rewrite dict_get_set_ne, dict_get_set_eq by done.
      by rewrite <- app_assoc.
    + rewrite dict_get_set_eq. by rewrite <- app_assoc.
    + intros other Hf Ht. subst ps3 ps2 ps1.
      by rewrite !dict_get_set_ne by done.
  - subst ps3 ps2 ps1. rewrite !dict_set_keys; [done|..];
      rewrite ?dict_get_set_eq, ?dict_get_set_ne, ?dict_get_set_eq by done;
      by eauto.
  - rewrite (all_held_append _ _ from_pick ps3 Hto3). subst ps3.
    rewrite (all_held_append _ _ to_pick ps2 Hfrom2).
    rewrite <- (all_held_remove _ _ _ _ ps Hfrom).
    fold ps1. rewrite <- (all_held_remove _ _ _ _ ps1 Hto1).
    by fold ps2.
  - intros Hps.
    pose proof (priced_get _ _ _ Hps Hfrom) as Hl.
    pose proof (priced_get _ _ _ Hps Hto) as Hm.
    apply Forall_app in Hl as [Hl1' [Hfp Hl2']%Forall_cons].
    apply Forall_app in Hm as [Hm1' [Htp Hm2']%Forall_cons].
    unfold priced. subst ps3 ps2 ps1.
    repeat (apply dict_set_Forall; simpl;
            rewrite ?Forall_app, ?Forall_singleton); by split_and?.
Qed.

Lemma swap_all_picked_synced (ps ps' : dict (list pick)) (pl : list player) :
  dict_get (from_player t) ps = Some (l1 ++ from_pick :: l2) →
  dict_get (to_player t) ps = Some (m1 ++ to_pick :: m2) →
  swapped ps ps' →
  Forall (synced ps) pl →
  ∃ pl', swap_all_picked t pl = inr pl' ∧ Forall (synced ps') pl'
         ∧ name <$> pl' = name <$> pl
         ∧ max_picks <$> pl' = max_picks <$> pl.
Proof.
  intros Hfrom Hto (Hfrom' & Hto' & Hother).
  induction 1 as [|p pl Hp _ (pl' & Hpl & Hsync & Hnames & Hmax)]; simpl.
  { by exists []. }
  unfold swap_picked, synced in *.
  destruct (decide (name p = from_player t)) as [Hpf|Hpf].
  - rewrite Hpf, Hfrom in Hp. simpl in Hp. unfold tickers in Hp.
    rewrite fmap_app, fmap_cons, Hoffer in Hp.
    rewrite Hp, (proj2 (list_remove_Some _ _ (tickers l1 ++ tickers l2)))
      by (exists (tickers l1), (tickers l2); by split_and!).
    rewrite Hpl. eexists. split; [done|]. split; [|split; simpl; by f_equal].
    constructor; [|done]. simpl. rewrite Hpf, Hfrom'. simpl.
    unfold tickers. by rewrite !fmap_app, <- app_assoc, <- Hrequest.
  - destruct (decide (name p = to_player t)) as [Hpt|Hpt].
    + rewrite Hpt, Hto in Hp. simpl in Hp. unfold tickers in Hp.
      rewrite fmap_app, fmap_cons, Hrequest in Hp.
      rewrite Hp, (proj2 (list_remove_Some _ _ (tickers m1 ++ tickers m2)))
        by (exists (tickers m1), (tickers m2); by split_and!).
      rewrite Hpl. eexists. split; [done|]. split; [|split; simpl; by f_equal].
      constructor; [|done]. simpl. rewrite Hpt, Hto'. simpl.
      unfold tickers. by rewrite !fmap_app, <- app_assoc, <- Hoffer.
    + rewrite Hpl. eexists. split; [done|]. split; [|split; simpl; by f_equal].
      constructor; [|done]. by rewrite Hother.
Qed.

End Swap.

Lemma set_trade_status_found (trade_id : Z) (response : string)
    (ts : list trade) (t : trade) :
  find_first (λ t, t_id t = trade_id) ts = Some t →
  find_first (λ t, t_id t = trade_id) (set_trade_status trade_id response ts)
  = Some (with_status response t).
Proof.
  induction ts as [|t' ts IH]; [done|]. rewrite find_first_cons. simpl.
  destruct (decide (t_id t' = trade_id)) as [Hid|Hid].
  - intros [= ->]. rewrite find_first_cons. by rewrite decide_True.
  - intros Hfind. rewrite find_first_cons, decide_False by done. by apply IH.
Qed.

Lemma NoDup_middle {A} (l1 l2 : list A) (x : A) :
  NoDup (l1 ++ x :: l2) → x ∉ l1 ++ l2.
Proof.
  rewrite NoDup_app, NoDup_cons. intros (_ & Hdisj & Hx & _).
  rewrite elem_of_app. intros [Hin|Hin]; [|done].
  apply (Hdisj x Hin). left.
Qed.

Lemma held_elem (data : game_data) (who tk : string) :
  tk ∈ tickers (held data who) →
  dict_get who (picks data) = Some (held data who).
Proof.
  unfold held. destruct (dict_get who (picks data)); [done|].
  simpl. by intros ?%elem_of_nil.
Qed.

(** What an accepted answer does to a trade whose picks are held, whatever
    the status of the trade was. *)
Lemma respond_accepted_moves (data : game_data) (trade_id : Z) (t : trade) :
  find_first (λ t, t_id t = trade_id) (trades data) = Some t →
  from_player t ≠ to_player t →
  offer_ticker t ∈ tickers (held data (from_player t)) →
  request_ticker t ∈ tickers (held data (to_player t)) →
  NoDup (tickers (held data (from_player t))
         ++ tickers (held data (to_player t))) →
  Forall (synced (picks data)) (players data) →
  let r := respond trade_id "accepted" data in
  let from_picks := held r.2 (from_player t) in
  let to_picks := held r.2 (to_player t) in
  r.1 = ToTrade
  ∧ (∃ from_pick to_pick l1 l2 m1 m2,
       held data (from_player t) = l1 ++ from_pick :: l2
       ∧ ticker from_pick = offer_ticker t
       ∧ held data (to_player t) = m1 ++ to_pick :: m2
       ∧ ticker to_pick = request_ticker t
       ∧ from_picks = l1 ++ l2 ++ [to_pick]
       ∧ to_picks = m1 ++ m2 ++ [from_pick])
  ∧ request_ticker t ∈ tickers from_picks
  ∧ (offer_ticker t ∉ tickers from_picks)
  ∧ offer_ticker t ∈ tickers to_picks
  ∧ (request_ticker t ∉ tickers to_picks)
  ∧ (length from_picks + length to_picks
     = length (held data (from_player t))
       + length (held data (to_player t)))%nat
  ∧ name <$> players r.2 = name <$> players data
  ∧ max_picks <$> players r.2 = max_picks <$> players data
  ∧ Forall (λ p, picked p = tickers (held r.2 (name p))) (players r.2)
  ∧ (∀ other, other ≠ from_player t → other ≠ to_player t →
              held r.2 other = held data other)
  ∧ find_first (λ t, t_id t = trade_id) (trades r.2)
    = Some (with_status "accepted" t).
Proof.
  intros Hfind Hparties Hoffer Hrequest Hnodup Hsync.
  pose proof (held_elem _ _ _ Hoffer) as Hfrom.
  pose proof (held_elem _ _ _ Hrequest) as Hto.
  destruct (find_pick _ _ Hoffer)
    as (l1 & from_pick & l2 & Hfl & Hfp & Hl1 & _ & _).
  destruct (find_pick _ _ Hrequest)
    as (m1 & to_pick & m2 & Htl & Htp & Hm1 & _ & _).
  rewrite Hfl in Hfrom. rewrite Htl in Hto. rewrite Hfl, Htl in Hnodup.
  destruct (swap_picks_swapped t l1 l2 m1 m2 from_pick to_pick
              Hparties Hfp Htp Hl1 Hm1 (picks data) Hfrom Hto)
    as (ps' & Hswap & Hswapped & _).
  destruct (swap_all_picked_synced t l1 l2 m1 m2 from_pick to_pick)
    with (ps := picks data) (ps' := ps') (pl := players data)
    as (pl' & Hpl & Hsync' & Hnames & Hmax); try done.
  destruct Hswapped as (Hfrom' & Hto' & Hother).
  intros r from_picks to_picks.
  assert (Hr : r = (ToTrade,
                    set_players pl'
                      (set_picks ps'
                         (set_trades
                            (set_trade_status trade_id "accepted" (trades data))
                            (trade_limits data) data)))).
  { subst r. unfold respond. rewrite Hfind. simpl. by rewrite Hswap, Hpl. }
  assert (Hfp' : from_picks = l1 ++ l2 ++ [to_pick]).
  { subst from_picks. rewrite Hr. unfold held. simpl. by rewrite Hfrom'. }
  assert (Htp' : to_picks = m1 ++ m2 ++ [from_pick]).
  { subst to_picks. rewrite Hr. unfold held. simpl. by rewrite Hto'. }
  unfold tickers in *. rewrite !fmap_app, !fmap_cons, Hfp, Htp in Hnodup.
  assert (Hne : offer_ticker t ≠ request_ticker t).
  { intros Heq. apply NoDup_app in Hnodup as (_ & Hdisj & _).
    apply (Hdisj (offer_ticker t)); rewrite elem_of_app; right;
      [left | rewrite Heq; left]. }
  assert (Hf : offer_ticker t ∉ (ticker <$> l1) ++ (ticker <$> l2)).
  { apply NoDup_app in Hnodup as (Hnd & _). by apply NoDup_middle. }
  assert (Ht : request_ticker t ∉ (ticker <$> m1) ++ (ticker <$> m2)).
  { apply NoDup_app in Hnodup as (_ & _ & Hnd). by apply NoDup_middle. }
  rewrite Hfp', Htp', Hfl, Htl. split_and!.
  - by rewrite Hr.
  - by exists from_pick, to_pick, l1, l2, m1, m2.
  - rewrite !fmap_app, !elem_of_app. right. right. simpl. rewrite Htp. left.
  - rewrite app_assoc, fmap_app, elem_of_app, fmap_app. simpl.
    rewrite Htp. intros [Hin|Hin%list_elem_of_singleton]; by auto.
  - rewrite !fmap_app, !elem_of_app. right. right. simpl. rewrite Hfp. left.
  - rewrite app_assoc, fmap_app, elem_of_app, fmap_app. simpl.
    rewrite Hfp. intros [Hin|Hin%list_elem_of_singleton]; by auto.
  - rewrite !length_app. simpl. lia.
  - by rewrite Hr.
  - by rewrite Hr.
  - by rewrite Hr.
  - intros other Hof Hot. rewrite Hr. unfold held. simpl.
    by rewrite Hother.
  - rewrite Hr. simpl. by apply set_trade_status_found.
Qed.

(** C3. When the trade's two parties are different players, the first
    holds a pick for the offered ticker, the second one for the requested
    ticker, no ticker occurs twice among their picks and the players'
    [picked] lists agree with their pick lists, accepting the trade
    succeeds and moves exactly those two picks: each is taken out of its
    owner's list and appended to the other's.  Afterwards the first
    player holds the requested ticker and not the offered one, the second
    the offered one and not the requested one, the two lists together are
    as long as before, the players are the same as before, in the same
    order and with the same number of picks allowed, the [picked] list of
    every one of them is the ticker list of the picks the player now
    holds, the other players' picks are untouched and the trade is
    accepted. *)
Theorem accepted_trade_swaps (data : game_data) (trade_id : Z) (t : trade) :
  find_first (λ t, t_id t = trade_id) (trades data) = Some t →
  from_player t ≠ to_player t →
  offer_ticker t ∈ tickers (held data (from_player t)) →
  request_ticker t ∈ tickers (held data (to_player t)) →
  NoDup (tickers (held data (from_player t))
         ++ tickers (held data (to_player t))) →
  Forall (synced (picks data)) (players data) →
  let r := respond trade_id "accepted" data in
  let from_picks := held r.2 (from_player t) in
  let to_picks := held r.2 (to_player t) in
  r.1 = ToTrade
  ∧ (∃ from_pick to_pick l1 l2 m1 m2,
       held data (from_player t) = l1 ++ from_pick :: l2
       ∧ ticker from_pick = offer_ticker t
       ∧ held data (to_player t) = m1 ++ to_pick :: m2
       ∧ ticker to_pick = request_ticker t
       ∧ from_picks = l1 ++ l2 ++ [to_pick]
       ∧ to_picks = m1 ++ m2 ++ [from_pick])
  ∧ request_ticker t ∈ tickers from_picks
  ∧ (offer_ticker t ∉ tickers from_picks)
  ∧ offer_ticker t ∈ tickers to_picks
  ∧ (request_ticker t ∉ tickers to_picks)
  ∧ (length from_picks + length to_picks
     = length (held data (from_player t))
       + length (held data (to_player t)))%nat
  ∧ name <$> players r.2 = name <$> players data
  ∧ max_picks <$> players r.2 = max_picks <$> players data
  ∧ Forall (λ p, picked p = tickers (held r.2 (name p))) (players r.2)
  ∧ (∀ other, other ≠ from_player t → other ≠ to_player t →
              held r.2 other = held data other)
  ∧ find_first (λ t, t_id t = trade_id) (trades r.2)
    = Some (with_status "accepted" t).
Proof. apply respond_accepted_moves. Qed.

Lemma accepted_trade_swaps_witness :
  "AAPL" ∈ tickers (held (respond 1 "accepted" (proposed_data "pending")).2
                         "bob")
  ∧ name <$> players (respond 1 "accepted" (proposed_data "pending")).2
    = name <$> players (proposed_data "pending")
  ∧ picked <$> players (respond 1 "accepted" (proposed_data "pending")).2
    = [["MSFT"]; ["AAPL"]].
Proof.
  destruct (accepted_trade_swaps (proposed_data "pending") 1
              {| t_id := 1; from_player := "ann"; to_player := "bob";
                 offer_ticker := "AAPL"; request_ticker := "MSFT";
                 t_status := "pending" |})
    as (_ & _ & _ & _ & Hheld & _ & _ & Hnames & _).
  - reflexivity.
  - simpl. discriminate.
  - vm_compute. left.
  - vm_compute. left.
  - apply (bool_decide_unpack _). vm_compute. exact I.
  - repeat constructor.
  - split_and!; [exact Hheld|exact Hnames|reflexivity].
Defined.

(** A request that ends in an exception writes nothing. *)
Lemma respond_unsaved (trade_id : Z) (response : string) (data : game_data) :
  (respond trade_id response data).1 ≠ ToTrade →
  (respond trade_id response data).2 = data.
Proof.
  unfold respond.
  destruct (find_first _ (trades data)) as [t|]; [|done].
  case_decide; [|done]. simpl.
  destruct (swap_picks t (picks data)) as [e|ps]; [done|].
  by destruct (swap_all_picked t (players data)).
Qed.

(** C4, as the code has it.  [respond] looks the trade up by its id alone
    and never reads its status.  With no trade of that id it changes
    nothing.  With one, pending or not, a response other than "accepted"
    replaces the status and leaves picks and players as they are.  An
    "accepted" response runs the swap, pending or not: when the parties
    hold the two picks it moves them as for a pending trade, each out of
    its owner's list and to the end of the other's, with the [picked]
    lists of the same players following; and a request that fails (a
    pick is missing) writes nothing. *)
Theorem respond_ignores_status (data : game_data) (trade_id : Z)
    (response : string) :
  let r := respond trade_id response data in
  (find_first (λ t, t_id t = trade_id) (trades data) = None →
   r = (ToTrade, data))
  ∧ (∀ t, find_first (λ t, t_id t = trade_id) (trades data) = Some t →
          response ≠ "accepted" →
          r = (ToTrade,
               set_trades (set_trade_status trade_id response (trades data))
                          (trade_limits data) data)
          ∧ find_first (λ t, t_id t = trade_id) (trades r.2)
            = Some (with_status response t)
          ∧ picks r.2 = picks data
          ∧ players r.2 = players data)
  ∧ (∀ t, find_first (λ t, t_id t = trade_id) (trades data) = Some t →
          r.1 = ToTrade →
          find_first (λ t, t_id t = trade_id) (trades r.2)
          = Some (with_status response t))
  ∧ (∀ t, find_first (λ t, t_id t = trade_id) (trades data) = Some t →
          response = "accepted" →
          from_player t ≠ to_player t →
          offer_ticker t ∈ tickers (held data (from_player t)) →
          request_ticker t ∈ tickers (held data (to_player t)) →
          NoDup (tickers (held data (from_player t))
                 ++ tickers (held data (to_player t))) →
          Forall (synced (picks data)) (players data) →
          r.1 = ToTrade
          ∧ (∃ from_pick to_pick l1 l2 m1 m2,
               held data (from_player t) = l1 ++ from_pick :: l2
               ∧ ticker from_pick = offer_ticker t
               ∧ held data (to_player t) = m1 ++ to_pick :: m2
               ∧ ticker to_pick = request_ticker t
               ∧ held r.2 (from_player t) = l1 ++ l2 ++ [to_pick]
               ∧ held r.2 (to_player t) = m1 ++ m2 ++ [from_pick])
          ∧ name <$> players r.2 = name <$> players data
          ∧ max_picks <$> players r.2 = max_picks <$> players data
          ∧ Forall (λ p, picked p = tickers (held r.2 (name p)))
              (players r.2)
          ∧ (∀ other, other ≠ from_player t → other ≠ to_player t →
                      held r.2 other = held data other)
          ∧ t_status <$> find_first (λ t, t_id t = trade_id) (trades r.2)
            = Some "accepted")
  ∧ (r.1 ≠ ToTrade → r.2 = data).
Proof.
  intros r. subst r. split_and!.
  - intros Hnone. unfold respond. by rewrite Hnone.
  - intros t Hfind Hresp. unfold respond. rewrite Hfind.
    rewrite decide_False by done. simpl. split_and!; try done.
    by apply set_trade_status_found.
  - intros t Hfind. unfold respond. rewrite Hfind.
    case_decide; simpl.
    + destruct (swap_picks t (picks data)) as [e|ps]; [done|].
      destruct (swap_all_picked t (players data)) as [e|pl]; [done|].
      simpl. intros _. by apply set_trade_status_found.
    + intros _. by apply set_trade_status_found.
  - intros t Hfind -> Hparties Hoffer Hrequest Hnodup Hsync.
    destruct (respond_accepted_moves data trade_id t Hfind Hparties Hoffer
                Hrequest Hnodup Hsync)
      as (Hok & Hmoved & _ & _ & _ & _ & _ & Hnames & Hmax & Hpicked
          & Hothers & Hstatus).
    split_and!; try done. by rewrite Hstatus.
  - apply respond_unsaved.
Qed.

Lemma respond_ignores_status_witness :
  t_status <$> find_first (λ t, t_id t = 1)
                 (trades (respond 1 "rejected" (proposed_data "accepted")).2)
  = Some "rejected"
  ∧ name <$> players (respond 1 "accepted" (proposed_data "rejected")).2
    = ["ann"; "bob"]
  ∧ Forall (λ p, picked p
                 = tickers (held (respond 1 "accepted"
                                    (proposed_data "rejected")).2 (name p)))
      (players (respond 1 "accepted" (proposed_data "rejected")).2).
Proof.
  split.
  - rewrite (proj1 (proj2 (proj1 (proj2
               (respond_ignores_status (proposed_data "accepted") 1
                  "rejected"))
               {| t_id := 1; from_player := "ann"; to_player := "bob";
                  offer_ticker := "AAPL"; request_ticker := "MSFT";
                  t_status := "accepted" |} eq_refl ltac:(discriminate)))).
    reflexivity.
  - destruct (proj1 (proj2 (proj2 (proj2
               (respond_ignores_status (proposed_data "rejected") 1
                  "accepted"))))
               {| t_id := 1; from_player := "ann"; to_player := "bob";
                  offer_ticker := "AAPL"; request_ticker := "MSFT";
                  t_status := "rejected" |} eq_refl eq_refl)
      as (_ & _ & Hnames & _ & Hpicked & _).
    + simpl. discriminate.
    + vm_compute. left.
    + vm_compute. left.
    + apply (bool_decide_unpack _). vm_compute. exact I.
    + repeat constructor.
    + split; [exact Hnames|exact Hpicked].
Defined.

(** C4 as stated fails: a trade that was rejected is accepted by a later
    response, and the picks change hands. *)
Lemma respond_after_rejection :
  let r := trade_post (Respond 1 "accepted") (proposed_data "rejected") in
  t_status <$> find_first (λ t, t_id t = 1) (trades (proposed_data "rejected"))
  = Some "rejected"
  ∧ r.1 = ToTrade
  ∧ t_status <$> find_first (λ t, t_id t = 1) (trades r.2) = Some "accepted"
  ∧ tickers (held (proposed_data "rejected") "ann") = ["AAPL"]
  ∧ tickers (held r.2 "ann") = ["MSFT"]
  ∧ tickers (held r.2 "bob") = ["AAPL"].
Proof. vm_compute. by repeat split. Qed.

(** ** Game summary: the end of the game *)

Section GameOver.
Variable source : string → nat → response.
Variable annualized_volatility : string → Q → Q → option deviation.
Variable np : numpy.

Lemma expired_iff (data : game_data) (now : Q) :
  expired data now = true ↔ ∃ e, end_date data = Some e ∧ (e < now)%Q.
Proof.
  unfold expired. destruct (end_date data) as [e|].
  - rewrite Qltb_lt. split; [by eauto|]. by intros (? & [= <-] & ?).
  - split; [done|]. by intros (? & [=] & _).
Qed.

Lemma game_status (data : game_data) (w : world) :
  status (game source annualized_volatility np data w).1.2
  = if expired data (clock w) then "finished" else status data.
Proof.
  unfold game, mbind, M_bind, get_clock.
  destruct (process_milestones _ _ _ _ _ _ _ w) as [ms w1].
  destruct (leaderboard_loop _ _ _ w1) as [r w2]. simpl.
  by destruct (expired data (clock w)).
Qed.

End GameOver.

(** C5, as the code has it.  A read by the game summary sets the phase
    to finished exactly when the record has an end date and the clock has
    passed it; the phase it finds is not looked at, so a draft that is
    still running is finished as well.  Otherwise the phase stays what it
    was, and a record without an end date, such as the blank setup
    record, is never finished by a read. *)
Theorem game_finishes_when_expired (source : string → nat → response)
    (annualized_volatility : string → Q → Q → option deviation)
    (np : numpy)
    (data : game_data) (w : world) :
  let r := game source annualized_volatility np data w in
  ((∃ e, end_date data = Some e ∧ (e < clock w)%Q) →
   status r.1.2 = "finished" ∧ game_ended r.1.1 = true)
  ∧ (¬ (∃ e, end_date data = Some e ∧ (e < clock w)%Q) →
     status r.1.2 = status data ∧ game_ended r.1.1 = false)
  ∧ (end_date data = None → status r.1.2 = status data).
Proof.
  intros r. subst r.
  pose proof (game_status source annualized_volatility np data w) as Hst.
  assert (Hended : game_ended (game source annualized_volatility np data w).1.1
                   = expired data (clock w)).
  { unfold game, mbind, M_bind, get_clock.
    destruct (process_milestones _ _ _ _ _ _ _ w) as [ms w1].
    by destruct (leaderboard_loop _ _ _ w1) as [r w2]. }
  rewrite Hst, Hended. split_and!.
  - intros Hexp. apply expired_iff in Hexp. by rewrite Hexp.
  - intros Hnot. destruct (expired data (clock w)) eqn:Hexp; [|done].
    by apply expired_iff in Hexp.
  - intros Hnone. unfold expired. by rewrite Hnone.
Qed.

Lemma game_finishes_when_expired_witness :
  status (game steady_source no_history sample_numpy drafted_data (cold_world 7776001)).1.2
  = "finished".
Proof.
  apply (proj1 (game_finishes_when_expired steady_source no_history sample_numpy
                  drafted_data (cold_world 7776001))).
  exists 7776000%Q. split; reflexivity.
Defined.

(** C5 as stated fails: the draft is still running (ann is on turn) when
    the end date passes, and a read of the game summary sets the phase to
    finished. *)
Lemma game_finishes_running_draft :
  let r := game steady_source no_history sample_numpy opening_data (cold_world 7776001) in
  status opening_data = "draft"
  ∧ draft_order opening_data = ["ann"; "bob"; "bob"; "ann"]
  ∧ status r.1.2 = "finished".
Proof. vm_compute. by repeat split. Qed.

(** ** Game summary: the lowest-volatility milestone *)

Lemma ext_ltb_irrefl (x : ext) : ext_ltb x x = false.
Proof.
  destruct x as [|a| |]; simpl; try done. apply Qltb_ge, Qle_refl.
Qed.

Lemma ext_ltb_asym (x y : ext) : ext_ltb x y = true → ext_ltb y x = false.
Proof.
  destruct x as [|a| |], y as [|b| |]; simpl; try done.
  rewrite Qltb_lt, Qltb_ge. apply Qlt_le_weak.
Qed.

Lemma ext_ltb_trans (x y z : ext) :
  ext_ltb x y = true → ext_ltb y z = true → ext_ltb x z = true.
Proof.
  destruct x as [|a| |], y as [|b| |], z as [|c| |]; simpl; try done.
  rewrite !Qltb_lt. apply Qlt_trans.
Qed.



Section LowestVolatility.
Variable annualized_volatility : string → Q → Q → option deviation.
Variable np : numpy.
Variables (start_date end_date : option Q).
Implicit Types (items : dict (list pick)) (w : world).

Local Abbreviation vol w picks :=
  (calculate_volatility annualized_volatility np picks start_date
     end_date w).1.

Lemma calculate_volatility_world picks w :
  (calculate_volatility annualized_volatility np picks start_date
     end_date w).2
  = w.
Proof.
  unfold calculate_volatility.
  by destruct start_date, end_date.
Qed.

(** The loop keeps the least volatility seen so far and the player it
    belongs to; only a strictly smaller value replaces them, and NaN is
    smaller than nothing. *)
Lemma volatility_players_least items : ∀ min_volatility winner w,
  let r := volatility_players annualized_volatility np start_date
             end_date items min_volatility winner w in
  r.2 = w
  ∧ (r.1.1 = min_volatility ∨ ext_ltb r.1.1 min_volatility = true)
  ∧ Forall (λ item, ext_ltb (vol w item.2) r.1.1 = false) items
  ∧ (r.1 = (min_volatility, winner)
     ∨ ∃ player picks,
         (player, picks) ∈ items
         ∧ r.1 = (vol w picks, Some player)
         ∧ ext_ltb (vol w picks) min_volatility = true).
Proof.
  induction items as [|[player picks] rest IH]; intros mv win w; simpl.
  { split_and!; [done|by left|done|by left]. }
  unfold mbind, M_bind.
  pose proof (calculate_volatility_world picks w) as Hw.
  destruct (calculate_volatility _ _ picks _ _ w) as [v w1] eqn:Hv.
  simpl in Hw. subst w1.
  assert (Hvol : vol w picks = v) by (by rewrite Hv).
  destruct (ext_ltb v mv) eqn:Hlt.
  - destruct (IH v (Some player) w) as (Hw & Hle & Hall & Hwho).
    split_and!; [done| | |].
    + right. destruct Hle as [Heq|Hle]; [by rewrite Heq|].
      by eapply ext_ltb_trans.
    + constructor; [|done]. cbn [snd]. rewrite Hvol.
      destruct Hle as [Heq|Hle];
        [rewrite Heq; apply ext_ltb_irrefl|by apply ext_ltb_asym].
    + right. destruct Hwho as [Hr|(p' & pk' & Hin & Hr & Hlt')].
      * exists player, picks. rewrite Hvol. split_and!; [left|done|done].
      * exists p', pk'. split_and!; [by right|done|].
        by eapply ext_ltb_trans.
  - destruct (IH mv win w) as (Hw & Hle & Hall & Hwho).
    split_and!; [done|done| |].
    + constructor; [|done]. cbn [snd]. rewrite Hvol.
      destruct Hle as [Heq|Hle]; [by rewrite Heq|].
      match goal with |- ?b = false => destruct b eqn:Hlow; [|done] end.
      by rewrite (ext_ltb_trans _ _ _ Hlow Hle) in Hlt.
    + destruct Hwho as [Hr|(p' & pk' & Hin & Hr & Hlt')]; [by left|].
      right. exists p', pk'. split_and!; [by right|done|done].
Qed.




End LowestVolatility.



(** ** Scoring and the leaderboard *)

(** *** Rounding

    The integer nearest to a rational, the bounds of a binade, and the
    float nearest to a rational. *)










Section Points.
Variable source : string → nat → response.
Implicit Types (picks : list pick) (w : world).




End Points.

Section Leaderboard.
Variable source : string → nat → response.
Implicit Types (l : list entry) (x : entry).



(** *** The sort *)

Lemma insert_desc_perm x l : insert_desc x l ≡ₚ x :: l.
Proof.
  induction l as [|y l IH]; simpl; [done|].
  destruct (Qltb (points x) (points y)); [|done].
  rewrite IH. apply Permutation_swap.
Qed.


Lemma insert_desc_descending x l :
  descending l → descending (insert_desc x l).
Proof.
  unfold descending. induction 1 as [|y l Hl IH Hy]; simpl.
  { repeat constructor. }
  destruct (Qltb (points x) (points y)) eqn:Hxy.
  - constructor; [done|]. rewrite insert_desc_perm.
    constructor; [|done]. by apply Qlt_le_weak, Qltb_lt.
  - apply Qltb_ge in Hxy. constructor; [by constructor|].
    constructor; [done|]. eapply Forall_impl; [exact Hy|].
    intros z Hz. simpl in Hz. by eapply Qle_trans.
Qed.

Lemma sort_desc_descending l : descending (sort_desc l).
Proof.
  induction l as [|x l IH]; simpl; [constructor|].
  by apply insert_desc_descending.
Qed.



End Leaderboard.




(** ** Invariants of the game record *)

Section CachePriced.
Variable source : string → nat → response.
Implicit Types (ticker : string) (w : world).

Lemma get_cached_stock_info_world ticker cache_duration w :
  (get_cached_stock_info ticker cache_duration w).2 = w.
Proof.
  unfold get_cached_stock_info, mbind, M_bind, load_cache, get_clock.
  destruct (cache w !! upper ticker) as [e|]; [|done].
  by destruct (Qltb _ _).
Qed.

Lemma get_cached_stock_info_priced ticker cache_duration w i :
  cache_priced w →
  (get_cached_stock_info ticker cache_duration w).1 = Some i →
  ¬ (currentPrice i == 0)%Q.
Proof.
  intros Hw. unfold get_cached_stock_info, mbind, M_bind, load_cache,
    get_clock.
  destruct (cache w !! upper ticker) as [e|] eqn:He; [|done].
  destruct (Qltb _ _); [|done]. intros [= <-].
  by apply (map_Forall_lookup_1 _ _ _ _ Hw He).
Qed.

Lemma fetch_attempts_truthy ticker max_retries initial_delay attempts :
  ∀ w i,
  (fetch_attempts source ticker max_retries initial_delay attempts w).1
  = Some i →
  ¬ (currentPrice i == 0)%Q.
Proof.
  induction attempts as [|a rest IH]; intros w i; simpl; [done|].
  unfold mbind at 1, M_bind, request_history.
  destruct (source ticker (calls w)) as [closes|code|]; simpl; try done.
  - destruct (last closes) as [c|]; [|done].
    destruct (truthy c) eqn:Hc; [|done].
    intros [= <-]. by apply truthy_nonzero.
  - destruct (code =? 429); [|done].
    destruct (a <? max_retries - 1)%nat; [|done].
    unfold mbind, M_bind, sleep. apply IH.
Qed.

(** The lookup never returns a zero price and never caches one. *)
Lemma get_price_priced ticker w :
  cache_priced w →
  cache_priced (get_price source ticker w).2
  ∧ ∀ p, (get_price source ticker w).1 = Some p → ¬ (p == 0)%Q.
Proof.
  intros Hw. unfold get_price, mbind, M_bind.
  pose proof (get_cached_stock_info_world ticker 21600 w) as Hsame.
  pose proof (get_cached_stock_info_priced ticker 21600 w) as Hhit.
  destruct (get_cached_stock_info ticker 21600 w) as [[i|] w0];
    simpl in Hsame, Hhit; subst w0.
  - split; [done|]. intros p [= <-]. by apply Hhit.
  - pose proof (fetch_stock_info_cache source ticker w) as Hcache.
    pose proof (fetch_attempts_truthy ticker 5 10 (seq 0 5) w) as Hprice.
    fold (fetch_stock_info_with source ticker 5 10) in Hprice.
    fold (fetch_stock_info source ticker) in Hprice.
    destruct (fetch_stock_info source ticker w) as [[i|] w1];
      simpl in Hcache, Hprice.
    + specialize (Hprice i eq_refl).
      unfold cache_stock_info, mbind, M_bind, load_cache, get_clock,
        save_cache. simpl. split.
      * assert (Hw1 : cache_priced w1)
          by (unfold cache_priced; by rewrite Hcache).
        by apply map_Forall_insert_2.
      * by intros p [= <-].
    + split; [|done]. unfold cache_priced. simpl. by rewrite Hcache.
Qed.

Lemma get_price_keeps_priced ticker : keeps_priced (get_price source ticker).
Proof. intros w Hw. by apply get_price_priced. Qed.

End CachePriced.

Section DraftInvariant.
Variable source : string → nat → response.
Implicit Types (ps : dict (list pick)) (data : game_data) (w : world).

Lemma setdefault_append_keys {A} k (x : A) (d : dict (list A)) :
  NoDup d.*1 → NoDup (setdefault_append k x d).*1.
Proof.
  intros Hd. unfold setdefault_append.
  destruct (dict_get k d) as [l|] eqn:Hget.
  - by rewrite dict_set_keys by (by rewrite Hget).
  - rewrite dict_set_keys_new by done.
    apply NoDup_app. split_and!; [done| |apply NoDup_singleton].
    intros k' Hk' ->%list_elem_of_singleton.
    by apply dict_get_None in Hget.
Qed.

Lemma setdefault_append_priced k (x : pick) ps :
  priced ps → ¬ (price x == 0)%Q → priced (setdefault_append k x ps).
Proof.
  intros Hps Hx. unfold setdefault_append. apply dict_set_Forall; [done|].
  simpl. apply Forall_app. split; [|by repeat constructor].
  destruct (dict_get k ps) as [l|] eqn:Hget; simpl; [|constructor].
  by eapply priced_get.
Qed.

Lemma synced_add_picked who (x : pick) ps (p : player) :
  synced ps p →
  synced (setdefault_append who x ps) (add_picked who (ticker x) p).
Proof.
  unfold synced, add_picked, setdefault_append. intros Hp.
  case_decide as Hname; simpl.
  - rewrite Hname, dict_get_set_eq. simpl. unfold tickers.
    rewrite fmap_app. simpl. f_equal. by rewrite Hp, Hname.
  - by rewrite dict_get_set_ne.
Qed.

(** A pick keeps the record well formed and the cache free of zero
    prices, whether it is accepted or not. *)
Lemma draft_post_well_formed who raw data w :
  well_formed data → cache_priced w →
  well_formed (draft_post source who raw data w).1.2
  ∧ cache_priced (draft_post source who raw data w).2.
Proof.
  intros Hwf Hw. unfold draft_post.
  case_decide as Hempty; [done|]. case_decide as Hdup; [done|].
  unfold mbind, M_bind.
  destruct (get_price_priced source (strip (upper raw)) w Hw)
    as [Hw1 Hprice].
  destruct (get_price source (strip (upper raw)) w) as [[current|] w1];
    [|done].
  specialize (Hprice current eq_refl). simpl in Hw1. simpl.
  destruct (list_remove who (draft_order data)) as [order|]; [|done].
  split; [|done]. destruct Hwf as [Hkeys Htk Hdr Hpr Hsy Hpa]. simpl.
  set (new_pick := {| ticker := strip (upper raw); price := current;
                      time := clock w1 |}).
  assert (Hperm : tickers (all_held (setdefault_append who new_pick
                                       (picks data)))
                  ≡ₚ strip (upper raw) :: tickers (all_held (picks data))).
  { unfold tickers. by rewrite all_held_setdefault_append. }
  constructor; simpl.
  - by apply setdefault_append_keys.
  - rewrite Hperm. apply NoDup_cons. split; [|done].
    intros Hin. by apply Hdup, Hdr.
  - intros tk. rewrite Hperm, elem_of_cons, elem_of_app.
    intros [->|Hin]; [right; left | left; by apply Hdr].
  - by apply setdefault_append_priced.
  - apply Forall_fmap. eapply Forall_impl; [exact Hsy|].
    intros p Hp. by apply (synced_add_picked who new_pick).
  - done.
Qed.

End DraftInvariant.

Section TradeInvariant.
Implicit Types (ps : dict (list pick)) (data : game_data) (t : trade).

Lemma held_submseteq k l ps : dict_get k ps = Some l → l ⊆+ all_held ps.
Proof.
  induction ps as [|[k' v'] ps IH]; cbn [dict_get]; [done|].
  rewrite all_held_cons. case_decide as Hk.
  - intros [= ->]. by apply submseteq_inserts_r.
  - intros Hget. by apply submseteq_inserts_l, IH.
Qed.

Lemma held_two_submseteq k1 k2 l1 l2 ps :
  k1 ≠ k2 → dict_get k1 ps = Some l1 → dict_get k2 ps = Some l2 →
  l1 ++ l2 ⊆+ all_held ps.
Proof.
  intros Hne. induction ps as [|[k' v'] ps IH]; cbn [dict_get]; [done|].
  rewrite all_held_cons.
  destruct (decide (k1 = k')) as [->|Hk1].
  - rewrite decide_False by done. intros [= ->] Hget.
    apply submseteq_app; [done|]. by eapply held_submseteq.
  - destruct (decide (k2 = k')) as [->|Hk2].
    + intros Hget [= ->]. rewrite (Permutation_app_comm l1 l2).
      apply submseteq_app; [done|]. by eapply held_submseteq.
    + intros Hget1 Hget2. by apply submseteq_inserts_l, IH.
Qed.

Lemma submseteq_NoDup {A} (l k : list A) : l ⊆+ k → NoDup k → NoDup l.
Proof.
  intros (k' & Hk)%submseteq_Permutation. rewrite Hk, NoDup_app.
  by intros (? & _).
Qed.

(** In a well-formed record no ticker occurs twice among the picks of two
    different players. *)
Lemma well_formed_disjoint data k1 k2 :
  well_formed data → k1 ≠ k2 →
  NoDup (tickers (held data k1) ++ tickers (held data k2)).
Proof.
  intros [_ Hnodup _ _ _ _] Hne. unfold tickers, held.
  rewrite <- fmap_app. eapply submseteq_NoDup; [|exact Hnodup].
  apply fmap_submseteq.
  destruct (dict_get k1 (picks data)) as [l1|] eqn:H1;
    destruct (dict_get k2 (picks data)) as [l2|] eqn:H2; simpl.
  - by eapply held_two_submseteq.
  - rewrite app_nil_r. by eapply held_submseteq.
  - by eapply held_submseteq.
  - apply submseteq_nil_l.
Qed.

Lemma find_first_elem {A} (P : A → Prop) `{∀ x, Decision (P x)}
    (l : list A) (x : A) :
  find_first P l = Some x → x ∈ l.
Proof.
  intros (l1 & l2 & -> & _ & _)%find_first_Some.
  rewrite elem_of_app. right. left.
Qed.

Lemma set_trade_status_parties trade_id response (ts : list trade) :
  Forall (λ t, from_player t ≠ to_player t) ts →
  Forall (λ t, from_player t ≠ to_player t)
    (set_trade_status trade_id response ts).
Proof.
  induction 1 as [|t ts Ht Hts IH]; simpl; [done|].
  case_decide; by constructor.
Qed.

Lemma swap_picks_found t ps ps' :
  swap_picks t ps = inr ps' →
  ∃ l1 from_pick l2 m1 to_pick m2,
    dict_get (from_player t) ps = Some (l1 ++ from_pick :: l2)
    ∧ dict_get (to_player t) ps = Some (m1 ++ to_pick :: m2)
    ∧ ticker from_pick = offer_ticker t
    ∧ ticker to_pick = request_ticker t
    ∧ (offer_ticker t ∉ tickers l1)
    ∧ (request_ticker t ∉ tickers m1).
Proof.
  unfold swap_picks.
  destruct (dict_get (from_player t) ps) as [lf|]; [|done].
  destruct (dict_get (to_player t) ps) as [lt|]; [|done].
  destruct (find_first _ lf) as [fp|] eqn:Hf; [|done].
  destruct (find_first _ lt) as [tp|] eqn:Ht; [|done].
  intros _.
  apply find_first_Some in Hf as (l1 & l2 & -> & Hfp & Hl1).
  apply find_first_Some in Ht as (m1 & m2 & -> & Htp & Hm1).
  exists l1, fp, l2, m1, tp, m2. split_and!; try done.
  - unfold tickers. rewrite list_elem_of_fmap. intros (y & Hy & Hin).
    rewrite Forall_forall in Hl1. by apply (Hl1 y).
  - unfold tickers. rewrite list_elem_of_fmap. intros (y & Hy & Hin).
    rewrite Forall_forall in Hm1. by apply (Hm1 y).
Qed.

Lemma propose_well_formed (proposer partner offer request : string) data :
  well_formed data →
  well_formed (propose proposer partner offer request data).2.
Proof.
  intros Hwf. unfold propose. case_decide as Hbad; [done|].
  destruct Hwf as [Hkeys Htk Hdr Hpr Hsy Hpa]. constructor; simpl; try done.
  apply Forall_app. split; [done|]. constructor; [|done]. simpl.
  intros ->. apply Hbad. by left.
Qed.

Lemma respond_well_formed trade_id response data :
  well_formed data → well_formed (respond trade_id response data).2.
Proof.
  intros Hwf. unfold respond.
  destruct (find_first _ (trades data)) as [t|] eqn:Hfind; [|done].
  destruct Hwf as [Hkeys Htk Hdr Hpr Hsy Hpa].
  assert (Hparties : from_player t ≠ to_player t).
  { rewrite Forall_forall in Hpa. by eapply Hpa, find_first_elem. }
  pose proof (set_trade_status_parties trade_id response _ Hpa) as Hpa'.
  case_decide as Hresp; [|by constructor]. simpl.
  destruct (swap_picks t (picks data)) as [e|ps'] eqn:Hswap; [by constructor|].
  destruct (swap_picks_found _ _ _ Hswap)
    as (l1 & fp & l2 & m1 & tp & m2 & Hfrom & Hto & Hfp & Htp & Hl1 & Hm1).
  destruct (swap_picks_swapped t l1 l2 m1 m2 fp tp Hparties Hfp Htp Hl1 Hm1
              (picks data) Hfrom Hto)
    as (ps'' & Hswap' & Hswapped & Hk & Hperm & Hpriced).
  assert (ps'' = ps') as -> by congruence.
  destruct (swap_all_picked_synced t l1 l2 m1 m2 fp tp)
    with (ps := picks data) (ps' := ps') (pl := players data)
    as (pl' & Hpl & Hsync' & _); try done.
  rewrite Hpl. constructor; simpl; try done.
  - by rewrite Hk.
  - unfold tickers. by rewrite Hperm.
  - intros tk. unfold tickers. rewrite Hperm. apply Hdr.
  - by apply Hpriced.
Qed.

Lemma trade_post_well_formed action data :
  well_formed data → well_formed (trade_post action data).2.
Proof.
  intros Hwf. unfold trade_post. case_decide; [|done].
  destruct action; [by apply propose_well_formed|by apply respond_well_formed].
Qed.

(** A record with no picks, no trades and empty [picked] lists, such as
    [start] writes, is well formed. *)
Lemma fresh_well_formed data :
  picks data = [] → trades data = [] →
  Forall (λ p, picked p = []) (players data) →
  well_formed data.
Proof.
  intros Hpicks Htrades Hplayers. constructor; rewrite ?Hpicks, ?Htrades;
    try by constructor.
  - by intros tk ?%elem_of_nil.
  - eapply Forall_impl; [exact Hplayers|]. intros p Hp. unfold synced.
    by rewrite Hp.
Qed.

End TradeInvariant.

Section GameInvariant.
Variable source : string → nat → response.
Variable annualized_volatility : string → Q → Q → option deviation.
Variable np : numpy.
Implicit Types (data : game_data) (w : world).

Lemma keeps_priced_ret {A} (a : A) : keeps_priced (mret a).
Proof. by intros w Hw. Qed.

Lemma keeps_priced_bind {A B} (m : M A) (f : A → M B) :
  keeps_priced m → (∀ a, keeps_priced (f a)) → keeps_priced (m ≫= f).
Proof.
  intros Hm Hf w Hw. unfold mbind, M_bind. specialize (Hm w Hw).
  destruct (m w) as [a w1]. by apply Hf.
Qed.

Lemma get_clock_keeps_priced : keeps_priced get_clock.
Proof. by intros w Hw. Qed.

Local Ltac keeps :=
  repeat first
    [ apply keeps_priced_ret
    | apply get_clock_keeps_priced
    | apply get_price_keeps_priced
    | apply keeps_priced_bind; [|intros ?]
    | progress cbn beta iota
    | match goal with
      | |- keeps_priced (match ?x with _ => _ end) => destruct x
      | |- keeps_priced (let '(_, _) := ?x in _) => destruct x
      end ].

Lemma points_loop_keeps_priced picks : ∀ total_change count,
  keeps_priced (points_loop source picks total_change count).
Proof.
  induction picks as [|pick rest IH]; intros total count; simpl; keeps;
    apply IH.
Qed.

Lemma calculate_points_keeps_priced picks :
  keeps_priced (calculate_points source picks).
Proof.
  unfold calculate_points. destruct picks as [|pick rest];
    [apply keeps_priced_ret|].
  apply keeps_priced_bind; [apply points_loop_keeps_priced|].
  intros [total count]. apply keeps_priced_ret.
Qed.

Lemma summarize_keeps_priced picks : keeps_priced (summarize source picks).
Proof. induction picks as [|pick rest IH]; simpl; keeps; apply IH. Qed.

Lemma leaderboard_loop_keeps_priced ms items :
  keeps_priced (leaderboard_loop source ms items).
Proof.
  induction items as [|[player picks] rest IH]; simpl; keeps;
    first [apply calculate_points_keeps_priced
          |apply summarize_keeps_priced|apply IH].
Qed.

Lemma gain_picks_keeps_priced player picks : ∀ max_gain winner,
  keeps_priced (gain_picks source player picks max_gain winner).
Proof.
  induction picks as [|pick rest IH]; intros max_gain winner; simpl; keeps;
    apply IH.
Qed.

Lemma gain_players_keeps_priced items : ∀ max_gain winner,
  keeps_priced (gain_players source items max_gain winner).
Proof.
  induction items as [|[player picks] rest IH]; intros max_gain winner;
    simpl; keeps; first [apply gain_picks_keeps_priced|apply IH].
Qed.

Lemma volatility_players_keeps_priced start_date end_date items :
  ∀ min_volatility winner,
  keeps_priced (volatility_players annualized_volatility np start_date end_date
                  items min_volatility winner).
Proof.
  intros mv win w Hw.
  by rewrite (proj1 (volatility_players_least annualized_volatility np
                       start_date end_date items mv win w)).
Qed.

Lemma process_milestone_keeps_priced data now winner_var m :
  keeps_priced (process_milestone source annualized_volatility np data now
                  winner_var m).
Proof.
  unfold process_milestone. destruct (_ && _); [|keeps].
  repeat case_decide; keeps;
    first [apply gain_players_keeps_priced
          |apply volatility_players_keeps_priced].
Qed.

Lemma process_milestones_keeps_priced data now ms : ∀ winner_var,
  keeps_priced (process_milestones source annualized_volatility np data now
                  winner_var ms).
Proof.
  induction ms as [|m rest IH]; intros winner_var; simpl; keeps;
    first [apply process_milestone_keeps_priced|apply IH].
Qed.

Lemma game_keeps_priced data :
  keeps_priced (game source annualized_volatility np data).
Proof.
  unfold game. keeps;
    first [apply process_milestones_keeps_priced
          |apply leaderboard_loop_keeps_priced].
Qed.

(** The game summary writes the phase and the milestones, nothing else. *)
Lemma game_record data w :
  let data' := (game source annualized_volatility np data w).1.2 in
  players data' = players data
  ∧ draft_order data' = draft_order data
  ∧ picks data' = picks data
  ∧ all_picks data' = all_picks data
  ∧ trades data' = trades data
  ∧ trade_limits data' = trade_limits data.
Proof.
  unfold game, mbind, M_bind, get_clock.
  destruct (process_milestones _ _ _ _ _ _ _ w) as [ms w1].
  destruct (leaderboard_loop _ _ _ w1) as [r w2]. simpl.
  by destruct (expired data (clock w)).
Qed.

Lemma game_well_formed data w :
  well_formed data →
  well_formed (game source annualized_volatility np data w).1.2.
Proof.
  intros [Hkeys Htk Hdr Hpr Hsy Hpa].
  destruct (game_record data w) as (Hpl & _ & Hps & Hap & Htr & _).
  constructor; by rewrite ?Hps, ?Hpl, ?Hap, ?Htr.
Qed.

Lemma draft_get_well_formed preview data w :
  well_formed data → cache_priced w →
  well_formed (draft_get source preview data w).1.2
  ∧ cache_priced (draft_get source preview data w).2.
Proof.
  intros Hwf Hw. unfold draft_get.
  destruct (draft_order data) as [|current_player rest].
  { split; [|done]. destruct Hwf. by constructor. }
  destruct preview as [ticker|]; [|done].
  case_decide; [done|]. unfold mbind, M_bind.
  pose proof (get_price_keeps_priced source ticker w Hw) as Hw1.
  by destruct (get_price source ticker w).
Qed.

(** Every request keeps the record well formed and the cache free of
    zero prices, and so does every sequence of requests. *)
Lemma handle_invariant (st : game_data * world) (req : request) :
  well_formed st.1 ∧ cache_priced st.2 →
  well_formed (handle source annualized_volatility np st req).1
  ∧ cache_priced (handle source annualized_volatility np st req).2.
Proof.
  intros [Hwf Hw]. destruct req as [who raw|preview|action|]; simpl.
  - by apply draft_post_well_formed.
  - by apply draft_get_well_formed.
  - split; [by apply trade_post_well_formed|done].
  - split; [by apply game_well_formed|by apply game_keeps_priced].
Qed.

Lemma run_invariant (reqs : list request) : ∀ st : game_data * world,
  well_formed st.1 ∧ cache_priced st.2 →
  well_formed (run source annualized_volatility np st reqs).1
  ∧ cache_priced (run source annualized_volatility np st reqs).2.
Proof.
  unfold run. induction reqs as [|req reqs IH]; intros st Hst; [done|].
  simpl. by apply IH, handle_invariant.
Qed.

End GameInvariant.

(** ** Worked examples *)

(** The scoring example of the specification: A drafted at 100 and now at
    110, B drafted at 50 and now at 45, give the mean of +10 and -10. *)
Example scoring_example :
  ((calculate_points two_prices
      [ {| ticker := "A"; price := 100; time := 0 |};
        {| ticker := "B"; price := 50; time := 0 |} ] (cold_world 1)).1
   == 0)%Q.
Proof. reflexivity. Qed.

(** [round(1/3, 2)] is the float 0.33, and the ties 0.125, 0.375 and
    -0.125 go to the even hundredth: 0.12, 0.38 and -0.12. *)
Example round2_examples :
  round2 (fl (1 # 3)) = (5944751508129055 # 18014398509481984)%Q
  ∧ round2 (1 # 8) = (1080863910568919 # 9007199254740992)%Q
  ∧ round2 (3 # 8) = (3422735716801577 # 9007199254740992)%Q
  ∧ round2 (- (1 # 8)) = (-1080863910568919 # 9007199254740992)%Q.
Proof. by vm_compute. Qed.

Example strip_upper_example : strip (upper "  aapl ") = "AAPL".
Proof. reflexivity. Qed.

(** Two players, one pick each: after both picks the next read of the
    draft page closes the draft; a read of the summary after the end date
    finishes the game and names a winner. *)
Example end_to_end :
  let st := run steady_source some_history sample_numpy (short_data, cold_world 5)
              [PostDraft "ann" "aapl"; PostDraft "bob" "msft"; GetDraft None] in
  let r := game steady_source some_history sample_numpy st.1 (at_time 7776001 st.2) in
  status st.1 = "done"
  ∧ draft_order st.1 = []
  ∧ all_picks st.1 = ["AAPL"; "MSFT"]
  ∧ calls st.2 = 2%nat
  ∧ status r.1.2 = "finished"
  ∧ is_Some (shown_winner r.1.1)
  ∧ calls r.2 = 4%nat.
Proof. vm_compute. split_and!; by eauto. Qed.

(** The leaderboard of the drafted game when both tickers stand at 110:
    bob's +120 and ann's +10, each with one milestone won. *)
Example leaderboard_example :
  (λ e, (e_name e, Qred (points e), bonus e))
  <$> leaderboard (game steady_source some_history sample_numpy drafted_data
                        (cold_world 6000000)).1.1
  = [ ("bob", 125%Q, 5); ("ann", 15%Q, 5) ].
Proof. by vm_compute. Qed.

(** * Properties of the rest of the program *)

(** ** Turns in the snake order *)

Lemma turns_left_app who (l1 l2 : list string) :
  turns_left who (l1 ++ l2) = (turns_left who l1 + turns_left who l2)%nat.
Proof. unfold turns_left. by rewrite filter_app, length_app. Qed.

Lemma turns_left_round who (players : list string) i :
  turns_left who (snake_round players i) = turns_left who players.
Proof.
  unfold snake_round, turns_left. destruct (Nat.even i); [done|].
  by rewrite filter_reverse, length_reverse.
Qed.

Lemma turns_left_none who (l : list string) :
  who ∉ l → turns_left who l = 0%nat.
Proof.
  unfold turns_left. intros Hnot.
  destruct (filter _ l) as [|y k] eqn:Hf; [done|].
  assert (Hy : y ∈ filter (λ x, x = who) l) by (rewrite Hf; left).
  apply list_elem_of_filter in Hy as [-> Hy]. done.
Qed.

Lemma turns_left_once who (l : list string) :
  NoDup l → who ∈ l → turns_left who l = 1%nat.
Proof.
  induction 1 as [|x l Hx Hl IH]; [by intros ?%elem_of_nil|].
  change (x :: l) with ([x] ++ l). rewrite turns_left_app.
  intros [->|Hin]%elem_of_cons.
  - rewrite (turns_left_none x l Hx). unfold turns_left.
    by rewrite filter_cons, decide_True.
  - rewrite IH by done. unfold turns_left.
    rewrite filter_cons, decide_False; [done|]. by intros ->.
Qed.

Lemma turns_left_snake_order who (players : list string) r :
  turns_left who (get_snake_order players r)
  = (r * turns_left who players)%nat.
Proof.
  induction r as [|r IH]; [done|].
  rewrite get_snake_order_S, turns_left_app, turns_left_round, IH. lia.
Qed.

(** X1. The snake order gives every entry of the player list the same
    number of turns: a name occurs in the queue of R rounds R times as
    often as in the player list, so exactly R times when the names are
    distinct, and a name outside the list never. *)
Theorem snake_order_turns (players : list string) (total_rounds : nat)
    (who : string) :
  turns_left who (get_snake_order players total_rounds)
  = (total_rounds * turns_left who players)%nat
  ∧ (NoDup players → who ∈ players →
     turns_left who (get_snake_order players total_rounds) = total_rounds)
  ∧ ((who ∉ players) →
     who ∉ get_snake_order players total_rounds).
Proof.
  pose proof (turns_left_snake_order who players) as Hcount.
  split_and!.
  - apply Hcount.
  - intros Hnd Hin. rewrite Hcount, turns_left_once by done. lia.
  - intros Hnot Hin. specialize (Hcount total_rounds).
    rewrite (turns_left_none who players Hnot) in Hcount.
    unfold turns_left in Hcount.
    destruct (filter _ (get_snake_order players total_rounds)) as [|y k] eqn:Hf;
      [|simpl in Hcount; lia].
    eapply (filter_nil_not_elem_of (λ x, x = who)); done.
Qed.

Lemma snake_order_turns_witness :
  turns_left "bob" (get_snake_order ["ann"; "bob"; "cy"] 5) = 5%nat.
Proof.
  apply (proj1 (proj2 (snake_order_turns ["ann"; "bob"; "cy"] 5 "bob"))).
  - apply (bool_decide_unpack _). vm_compute. exact I.
  - apply (bool_decide_unpack _). vm_compute. exact I.
Defined.

(** ** The fetcher on answers that are not retried *)

Section FetchBounds.
Variable source : string → nat → response.
Implicit Types (ticker : string) (w : world).

(** The attempts left are the tail of [range(max_retries)]: whatever the
    source answers, the fetcher stops after some of them, having slept
    after every attempt but the last. *)
Lemma fetch_attempts_world ticker max_retries initial_delay n :
  ∀ a w,
  (a + S n = max_retries)%nat →
  ∃ k, (k ≤ n)%nat
       ∧ (fetch_attempts source ticker max_retries initial_delay
            (seq a (S n)) w).2
         = count_request (after_retries initial_delay a k w).
Proof.
  induction n as [|n IH]; intros a w Ha.
  - exists 0%nat. split; [done|]. simpl.
    unfold mbind at 1, M_bind, request_history.
    destruct (source ticker (calls w)) as [closes|code|]; simpl; try done.
    + destruct (last closes) as [c|]; [destruct (truthy c)|]; done.
    + destruct (code =? 429); [|done].
      assert (Hlast : (a <? max_retries - 1)%nat = false)
        by (apply Nat.ltb_ge; lia).
      by rewrite Hlast.
  - cbn [seq fetch_attempts].
    unfold mbind at 1, M_bind, request_history.
    destruct (source ticker (calls w)) as [closes|code|]; cbn beta iota.
    + exists 0%nat. split; [lia|].
      destruct (last closes) as [c|]; [destruct (truthy c)|]; done.
    + destruct (code =? 429); [|exists 0%nat; split; [lia|done]].
      assert (Hmore : (a <? max_retries - 1)%nat = true)
        by (apply Nat.ltb_lt; lia).
      rewrite Hmore. unfold mbind at 1, M_bind, sleep. cbn beta iota.
      destruct (IH (S a)
                  {| cache := cache (count_request w);
                     clock := (clock (count_request w)
                               + inject_Z (initial_delay * 2 ^ Z.of_nat a))%Q;
                     calls := calls (count_request w);
                     sleeps := sleeps (count_request w)
                               ++ [inject_Z (initial_delay * 2 ^ Z.of_nat a)] |})
        as (k & Hk & Hw); [lia|].
      exists (S k). split; [lia|]. exact Hw.
    + exists 0%nat. split; [lia|done].
Qed.

End FetchBounds.

(** X2. Only rate limiting is retried.  When the first answer is not an
    HTTP 429, the fetcher sends exactly that one request and does not
    sleep: an empty history, a zero last close, any other HTTP error and
    any other exception give no price, and a non-zero last close is the
    price.  Clock and cache are as before. *)
Theorem fetch_not_retried (source : string → nat → response)
    (ticker : string) (w : world) :
  source ticker (calls w) ≠ HTTPError 429 →
  fetch_stock_info source ticker w
  = (match source ticker (calls w) with
     | History closes =>
         match last closes with
         | Some current =>
             if truthy current then Some {| currentPrice := current |}
             else None
         | None => None
         end
     | _ => None
     end, count_request w).
Proof.
  intros Hfirst. unfold fetch_stock_info, fetch_stock_info_with.
  cbn [seq fetch_attempts]. unfold mbind at 1, M_bind, request_history.
  destruct (source ticker (calls w)) as [closes|code|]; cbn beta iota.
  - destruct (last closes) as [c|]; [destruct (truthy c)|]; done.
  - destruct (code =? 429) eqn:Hcode; [|done].
    apply Z.eqb_eq in Hcode. by subst.
  - done.
Qed.

Lemma fetch_not_retried_witness :
  fetch_stock_info steady_source "AAPL" (cold_world 0)
  = (Some {| currentPrice := 110 |}, count_request (cold_world 0)).
Proof.
  apply (fetch_not_retried steady_source "AAPL" (cold_world 0)).
  discriminate.
Defined.

(** X3. The retries are bounded whatever the source answers: the fetcher
    sends between 1 and 5 requests, sleeps after each of them but the
    last, the delays being 10, 20, 40 and 80 in this order, and leaves
    the cache as it was; it never sleeps more than 150 in all. *)
Theorem fetch_bounded (source : string → nat → response)
    (ticker : string) (w : world) :
  let w' := (fetch_stock_info source ticker w).2 in
  ∃ retries,
    (retries < 5)%nat
    ∧ calls w' = (S retries + calls w)%nat
    ∧ sleeps w' = sleeps w ++ take retries [10; 20; 40; 80]%Q
    ∧ cache w' = cache w
    ∧ (clock w' == clock w + Qsum (take retries [10; 20; 40; 80]))%Q
    ∧ (clock w' <= clock w + 150)%Q.
Proof.
  intros w'. subst w'. unfold fetch_stock_info, fetch_stock_info_with.
  destruct (fetch_attempts_world source ticker 5 10 4 0%nat w eq_refl)
    as (k & Hk & ->).
  exists k. split; [lia|]. simpl.
  rewrite after_retries_calls, after_retries_sleeps, after_retries_cache.
  assert (Hdelays : backoff_delay 10 <$> seq 0 k
                    = take k [10; 20; 40; 80]%Q).
  { do 5 (destruct k as [|k]; [done|]). lia. }
  rewrite Hdelays. split_and!; try done.
  - by rewrite after_retries_clock, Hdelays.
  - rewrite after_retries_clock, Hdelays.
    do 5 (destruct k as [|k]; [unfold Qsum; simpl; lra|]). lia.
Qed.

(** ** The cache *)

Lemma Qltb_zero_age (t d : Q) : (0 < d)%Q → Qltb (t - t) d = true.
Proof. intros Hd. apply Qltb_lt. assert (t - t == 0)%Q by ring. lra. Qed.

(** X4. The cache gives back what was put in.  Right after
    [cache_stock_info] has stored an entry for a ticker, a lookup under
    any spelling of that ticker with the same upper-casing returns the
    stored info, for every positive cache duration; a lookup of a ticker
    with another upper-casing answers as it did before. *)
Theorem cache_round_trip (ticker ticker' : string) (i : stock_info)
    (cache_duration : Q) (w : world) :
  let w' := (cache_stock_info ticker i w).2 in
  (upper ticker' = upper ticker → (0 < cache_duration)%Q →
   get_cached_stock_info ticker' cache_duration w' = (Some i, w'))
  ∧ (upper ticker' ≠ upper ticker →
     (get_cached_stock_info ticker' cache_duration w').1
     = (get_cached_stock_info ticker' cache_duration w).1).
Proof.
  intros w'. subst w'.
  unfold cache_stock_info, get_cached_stock_info, mbind, M_bind, load_cache,
    get_clock, save_cache. simpl. split.
  - intros -> Hd. rewrite lookup_insert_eq. simpl.
    by rewrite Qltb_zero_age.
  - intros Hne. rewrite lookup_insert_ne by (by intros Heq).
    destruct (cache w !! upper ticker') as [e|]; [|done].
    by destruct (Qltb _ _).
Qed.

Lemma cache_round_trip_witness :
  get_cached_stock_info "aapl" 21600
    (cache_stock_info "Aapl" {| currentPrice := 7 |} (cold_world 3)).2
  = (Some {| currentPrice := 7 |},
     (cache_stock_info "Aapl" {| currentPrice := 7 |} (cold_world 3)).2).
Proof.
  apply (proj1 (cache_round_trip "Aapl" "aapl" {| currentPrice := 7 |}
                  21600 (cold_world 3))); reflexivity.
Defined.

(** X5. A price that was just looked up is served from the cache: when a
    lookup returns a price, the next lookup of the same ticker, in any
    spelling with the same upper-casing, returns the same price and sends
    no request (the world is as the first lookup left it). *)
Theorem get_price_again (source : string → nat → response)
    (ticker ticker' : string) (w : world) (p : Q) :
  (get_price source ticker w).1 = Some p →
  upper ticker' = upper ticker →
  get_price source ticker' (get_price source ticker w).2
  = (Some p, (get_price source ticker w).2).
Proof.
  intros Hp Hupper. revert Hp. unfold get_price at 1 3 4, mbind, M_bind.
  pose proof (get_cached_stock_info_world ticker 21600 w) as Hsame.
  destruct (get_cached_stock_info ticker 21600 w) as [[i|] w0] eqn:Hcached;
    simpl in Hsame; subst w0.
  - intros [= <-]. simpl. unfold get_price, mbind, M_bind.
    assert (Hcached' : get_cached_stock_info ticker' 21600 w = (Some i, w)).
    { revert Hcached. unfold get_cached_stock_info, mbind, M_bind.
      by rewrite Hupper. }
    by rewrite Hcached'.
  - destruct (fetch_stock_info source ticker w) as [[i|] w1]; [|done].
    unfold cache_stock_info, mbind, M_bind, load_cache, get_clock,
      save_cache. simpl. intros [= <-].
    unfold get_price, mbind, M_bind.
    rewrite (get_cached_hit ticker' _
               {| info := i; timestamp := clock w1 |}); [done| |].
    + simpl. rewrite Hupper. apply lookup_insert_eq.
    + simpl. apply Qltb_lt, Qltb_zero_age. reflexivity.
Qed.

Lemma get_price_again_witness :
  get_price steady_source "aapl"
    (get_price steady_source "AAPL" (cold_world 0)).2
  = (Some 110%Q, (get_price steady_source "AAPL" (cold_world 0)).2).
Proof.
  apply (get_price_again steady_source "AAPL" "aapl" (cold_world 0));
    reflexivity.
Defined.

(** ** Refused and accepted picks *)

(** X6. A POST to [/draft] that does not end in a pick leaves the game
    record as it was.  For a ticker that is empty once upper-cased and
    stripped, or already drafted, no price is looked up either: cache,
    clock and request count are untouched. *)
Theorem draft_refusals (source : string → nat → response)
    (who raw : string) (data : game_data) (w : world) :
  let r := draft_post source who raw data w in
  (r.1.1 ≠ Picked → r.1.2 = data)
  ∧ (strip (upper raw) = "" ∨ strip (upper raw) ∈ all_picks data →
     r.1.1 ≠ Picked ∧ r.2 = w)
  ∧ ((get_price source (strip (upper raw)) w).1 = None →
     r.1.1 ≠ Picked).
Proof.
  intros r. subst r. split_and!.
  - apply draft_post_unsaved.
  - intros Hbad. unfold draft_post, draft_error_page.
    destruct (decide (strip (upper raw) = "")) as [Hempty|Hempty].
    + split; [|done]. simpl. by destruct (draft_order data).
    + destruct Hbad as [?|Hdup]; [done|]. rewrite decide_True by done.
      split; [|done]. simpl. by destruct (draft_order data).
  - intros Hnone Hpicked.
    destruct (draft_post_picked source who raw data w Hpicked)
      as (order & current & _ & Hprice & _). congruence.
Qed.

Lemma draft_refusals_witness :
  (draft_post steady_source "ann" "   " opening_data (cold_world 5)).2
  = cold_world 5.
Proof.
  apply (proj1 (proj2 (draft_refusals steady_source "ann" "   "
                         opening_data (cold_world 5)))).
  left. reflexivity.
Defined.

(** X7. What a pick writes.  A pick that is accepted appends one pick to
    the list of the submitting name, with the upper-cased and stripped
    ticker, the price that was looked up and the time of the clock; it
    registers the ticker as drafted, and leaves the pick lists of all
    other names, the trades, the quotas, the milestones, the phase and
    the dates as they were. *)
Theorem draft_pick_written (source : string → nat → response)
    (who raw : string) (data : game_data) (w : world) :
  let r := draft_post source who raw data w in
  r.1.1 = Picked →
  ∃ current,
    (get_price source (strip (upper raw)) w).1 = Some current
    ∧ held r.1.2 who
      = held data who
        ++ [ {| ticker := strip (upper raw); price := current;
                time := clock r.2 |} ]
    ∧ (∀ other, other ≠ who → held r.1.2 other = held data other)
    ∧ all_picks r.1.2 = all_picks data ++ [strip (upper raw)]
    ∧ trades r.1.2 = trades data
    ∧ trade_limits r.1.2 = trade_limits data
    ∧ milestones r.1.2 = milestones data
    ∧ status r.1.2 = status data
    ∧ start_date r.1.2 = start_date data
    ∧ end_date r.1.2 = end_date data.
Proof.
  intros r. subst r. unfold draft_post.
  case_decide as Hempty.
  { unfold draft_error_page. simpl. by destruct (draft_order data). }
  case_decide as Hdup.
  { unfold draft_error_page. simpl. by destruct (draft_order data). }
  unfold mbind, M_bind.
  destruct (get_price source (strip (upper raw)) w) as [[current|] w1].
  - simpl. destruct (list_remove who (draft_order data)) as [order|];
      simpl; [|done].
    intros _. exists current. unfold held, setdefault_append. simpl.
    split_and!; try done.
    + by rewrite dict_get_set_eq.
    + intros other Hother. by rewrite dict_get_set_ne.
  - unfold draft_error_page. simpl. by destruct (draft_order data).
Qed.

Lemma draft_pick_written_witness :
  ∃ current,
    (get_price steady_source "AAPL" (cold_world 5)).1 = Some current
    ∧ held (draft_post steady_source "ann" " aapl" opening_data
                       (cold_world 5)).1.2 "ann"
      = [ {| ticker := "AAPL"; price := current; time := 5 |} ].
Proof.
  destruct (draft_pick_written steady_source "ann" " aapl" opening_data
              (cold_world 5) eq_refl) as (current & Hprice & Hheld & _).
  exists current. split; [exact Hprice|exact Hheld].
Defined.

(** ** What a session keeps true *)

Section SessionFacts.
Implicit Types (data : game_data) (w : world) (who : string).

(** *** The queue and the [picked] lists *)

Lemma list_remove_turns who (l l' : list string) :
  list_remove who l = Some l' →
  turns_left who l = S (turns_left who l')
  ∧ ∀ other, other ≠ who → turns_left other l = turns_left other l'.
Proof.
  intros (l1 & l2 & -> & _ & ->)%list_remove_Some. split.
  - rewrite !turns_left_app. change (who :: l2) with ([who] ++ l2).
    rewrite turns_left_app. unfold turns_left at 2.
    rewrite filter_cons, decide_True by done. simpl. lia.
  - intros other Hother. rewrite !turns_left_app.
    change (who :: l2) with ([who] ++ l2). rewrite turns_left_app.
    unfold turns_left at 2. rewrite filter_cons, decide_False by done.
    simpl. lia.
Qed.

Lemma list_remove_length {A} `{EqDecision A} (x : A) (l l' : list A) :
  list_remove x l = Some l' → length l = S (length l').
Proof.
  intros (l1 & l2 & -> & _ & ->)%list_remove_Some.
  rewrite !length_app. simpl. lia.
Qed.

Lemma add_picked_turns who ticker (queue order : list string) (p : player) :
  list_remove who queue = Some order →
  Z.of_nat (turns_left (name p) queue) + Z.of_nat (length (picked p))
  = max_picks p →
  Z.of_nat (turns_left (name (add_picked who ticker p)) order)
  + Z.of_nat (length (picked (add_picked who ticker p)))
  = max_picks (add_picked who ticker p).
Proof.
  intros [Hwho Hother]%list_remove_turns Hp. unfold add_picked.
  case_decide as Hname; simpl.
  - rewrite Hname, Hwho in Hp. rewrite Hname, length_app. simpl. lia.
  - by rewrite <- Hother.
Qed.

(** An accepted trade leaves the names, the picks per player and the
    number of tickers every player holds as they were. *)
Lemma swap_all_picked_lengths (t : trade) (pl pl' : list player) :
  swap_all_picked t pl = inr pl' →
  Forall2 (λ p p', name p' = name p ∧ max_picks p' = max_picks p
                   ∧ length (picked p') = length (picked p)) pl pl'.
Proof.
  revert pl'. induction pl as [|p pl IH]; intros pl'; simpl.
  { intros [= <-]. constructor. }
  destruct (swap_picked t p) as [e|p1] eqn:Hp; [done|].
  destruct (swap_all_picked t pl) as [e|pl1]; [done|].
  intros [= <-]. constructor; [|by apply IH].
  revert Hp. unfold swap_picked.
  repeat case_decide;
    try (destruct (list_remove _ (picked p)) as [l|] eqn:Hrem; [|done]);
    intros [= <-]; simpl; split_and!; try done;
    apply list_remove_length in Hrem; rewrite length_app; simpl; lia.
Qed.

Lemma turns_ok_swap (queue : list string) (pl pl' : list player) :
  Forall2 (λ p p', name p' = name p ∧ max_picks p' = max_picks p
                   ∧ length (picked p') = length (picked p)) pl pl' →
  Forall (λ p, Z.of_nat (turns_left (name p) queue)
               + Z.of_nat (length (picked p)) = max_picks p) pl →
  Forall (λ p, Z.of_nat (turns_left (name p) queue)
               + Z.of_nat (length (picked p)) = max_picks p) pl'.
Proof.
  induction 1 as [|p p' pl pl' (Hn & Hm & Hl) _ IH]; [done|].
  intros [Hp Hpl]%Forall_cons. constructor; [|by apply IH].
  by rewrite Hn, Hm, Hl.
Qed.

(** *** Trade numbers and quotas *)

Lemma ids_sequential_app (ts : list trade) (t : trade) :
  ids_sequential ts → t_id t = Z.of_nat (length ts) + 1 →
  ids_sequential (ts ++ [t]).
Proof.
  intros Hts Ht i t' Hi.
  apply lookup_app_Some in Hi as [Hi|[Hlen Hi]]; [by apply Hts|].
  apply list_lookup_singleton_Some in Hi as [Hi <-].
  rewrite Ht. lia.
Qed.

Lemma set_trade_status_numbers trade_id response (ts : list trade) :
  t_id <$> set_trade_status trade_id response ts = t_id <$> ts.
Proof.
  induction ts as [|t ts IH]; [done|]. cbn [set_trade_status].
  case_decide; rewrite !fmap_cons; [done|]. by rewrite IH.
Qed.

Lemma ids_sequential_numbers (ts : list trade) :
  ids_sequential ts
  ↔ ∀ i n, (t_id <$> ts) !! i = Some n → n = Z.of_nat i + 1.
Proof.
  unfold ids_sequential. split.
  - intros Hts i n. rewrite list_lookup_fmap.
    destruct (ts !! i) as [t|] eqn:Ht; [|done]. intros [= <-]. eauto.
  - intros Hts i t Ht. apply Hts. by rewrite list_lookup_fmap, Ht.
Qed.

Lemma set_trade_status_ids trade_id response (ts : list trade) :
  ids_sequential ts → ids_sequential (set_trade_status trade_id response ts).
Proof.
  intros Hts. apply ids_sequential_numbers.
  rewrite set_trade_status_numbers. by apply ids_sequential_numbers.
Qed.

Lemma ids_sequential_NoDup (ts : list trade) :
  ids_sequential ts → NoDup (t_id <$> ts).
Proof.
  rewrite ids_sequential_numbers. intros Hts. apply NoDup_alt.
  intros i j n Hi Hj. apply Hts in Hi, Hj. lia.
Qed.

(** With distinct numbers, the one trade of that number gets the new
    status and every other trade stays as it is. *)
Lemma set_trade_status_fmap trade_id response (ts : list trade) :
  NoDup (t_id <$> ts) →
  set_trade_status trade_id response ts
  = (λ t, if decide (t_id t = trade_id) then with_status response t else t)
    <$> ts.
Proof.
  induction ts as [|t ts IH]; [done|]. rewrite fmap_cons.
  intros [Ht Hts]%NoDup_cons. simpl. case_decide as Hid.
  - f_equal. symmetry. rewrite <- (list_fmap_id ts) at 2.
    apply list_fmap_ext. intros i t' Ht'. simpl.
    rewrite decide_False; [done|]. intros Hid'. apply Ht.
    rewrite <- Hid' in Hid. rewrite Hid.
    apply list_elem_of_fmap. exists t'. split; [done|].
    by eapply list_elem_of_lookup_2.
  - f_equal. by apply IH.
Qed.

Lemma set_trade_status_proposals who trade_id response (ts : list trade) :
  proposals who (set_trade_status trade_id response ts) = proposals who ts.
Proof.
  unfold proposals. induction ts as [|t ts IH]; [done|]. simpl.
  case_decide as Hid.
  - rewrite !filter_cons. simpl. by case_decide.
  - rewrite !filter_cons. case_decide; simpl; by rewrite IH.
Qed.

End SessionFacts.

Section SessionSteps.
Variable source : string → nat → response.
Variable annualized_volatility : string → Q → Q → option deviation.
Variable np : numpy.
Implicit Types (data : game_data) (w : world) (who : string).

(** *** Picks *)

Lemma draft_post_cases who raw data w :
  (draft_post source who raw data w).1.2 = data
  ∨ ∃ order new_pick,
      list_remove who (draft_order data) = Some order
      ∧ (draft_post source who raw data w).1.2
        = {| players := add_picked who (ticker new_pick) <$> players data;
             draft_order := order;
             picks := setdefault_append who new_pick (picks data);
             status := status data;
             all_picks := all_picks data ++ [ticker new_pick];
             time_frame := time_frame data;
             start_date := start_date data;
             end_date := end_date data;
             trades := trades data;
             milestones := milestones data;
             trade_limits := trade_limits data |}.
Proof.
  unfold draft_post. case_decide; [by left|]. case_decide; [by left|].
  unfold mbind, M_bind.
  destruct (get_price source (strip (upper raw)) w) as [[current|] w1];
    [|by left].
  simpl. destruct (list_remove who (draft_order data)) as [order|] eqn:Hrem;
    [|by left].
  right. exists order,
    {| ticker := strip (upper raw); price := current; time := clock w1 |}.
  by split.
Qed.

Lemma draft_post_quota who raw data w :
  quota_ok data → quota_ok (draft_post source who raw data w).1.2.
Proof.
  destruct (draft_post_cases who raw data w)
    as [->|(order & pk & _ & ->)]; done.
Qed.

Lemma draft_post_ids who raw data w :
  ids_sequential (trades data) →
  ids_sequential (trades (draft_post source who raw data w).1.2).
Proof.
  destruct (draft_post_cases who raw data w)
    as [->|(order & pk & _ & ->)]; done.
Qed.

Lemma draft_post_dated who raw data w :
  dated data → dated (draft_post source who raw data w).1.2.
Proof.
  destruct (draft_post_cases who raw data w)
    as [->|(order & pk & _ & ->)]; done.
Qed.

Lemma draft_post_turns who raw data w :
  turns_ok data → turns_ok (draft_post source who raw data w).1.2.
Proof.
  destruct (draft_post_cases who raw data w)
    as [->|(order & pk & Hrem & ->)]; [done|].
  unfold turns_ok. simpl. intros Hturns. apply Forall_fmap.
  eapply Forall_impl; [exact Hturns|]. intros p Hp. simpl.
  by eapply add_picked_turns.
Qed.

Lemma draft_get_cases preview data w :
  (draft_get source preview data w).1.2 = data
  ∨ (draft_get source preview data w).1.2 = set_status "done" data.
Proof.
  unfold draft_get. destruct (draft_order data); [by right|].
  destruct preview as [ticker|]; [|by left].
  case_decide; [by left|]. unfold mbind, M_bind.
  destruct (get_price source ticker w). by left.
Qed.

(** *** Trades *)

Lemma proposals_app who (ts : list trade) (t : trade) :
  proposals who (ts ++ [t])
  = (proposals who ts + if decide (from_player t = who) then 1 else 0)%nat.
Proof.
  unfold proposals. rewrite filter_app, length_app, filter_cons.
  case_decide; simpl; lia.
Qed.

Lemma propose_quota proposer partner offer request data :
  quota_ok data →
  quota_ok (propose proposer partner offer request data).2.
Proof.
  intros Hq. unfold propose. case_decide as Hbad; [done|].
  intros who. simpl. rewrite proposals_app. simpl.
  specialize (Hq who). rewrite lookup_alter.
  destruct (decide (proposer = who)) as [->|Hne].
  - destruct (trade_limits data !! who) as [n|] eqn:Hn; simpl in *.
    + destruct Hq as [H0 Hsum]. split; lia.
    + exfalso. apply Hbad. right. lia.
  - by rewrite Nat.add_0_r.
Qed.

Lemma propose_ids proposer partner offer request data :
  ids_sequential (trades data) →
  ids_sequential (trades (propose proposer partner offer request data).2).
Proof.
  intros Hids. unfold propose. case_decide; [done|]. simpl.
  by apply ids_sequential_app.
Qed.

Lemma respond_cases trade_id response data :
  (respond trade_id response data).2 = data
  ∨ (respond trade_id response data).2
    = set_trades (set_trade_status trade_id response (trades data))
                 (trade_limits data) data
  ∨ ∃ t ps pl,
      swap_all_picked t (players data) = inr pl
      ∧ (respond trade_id response data).2
        = set_players pl
            (set_picks ps
               (set_trades (set_trade_status trade_id response (trades data))
                           (trade_limits data) data)).
Proof.
  unfold respond.
  destruct (find_first _ (trades data)) as [t|]; [|by left].
  case_decide; [|by right; left]. simpl.
  destruct (swap_picks t (picks data)) as [e|ps]; [by left|].
  destruct (swap_all_picked t (players data)) as [e|pl] eqn:Hpl; [by left|].
  right. right. by exists t, ps, pl.
Qed.

Lemma respond_quota trade_id response data :
  quota_ok data → quota_ok (respond trade_id response data).2.
Proof.
  intros Hq.
  destruct (respond_cases trade_id response data)
    as [->|[->|(t & ps & pl & _ & ->)]]; [done|..];
    intros who; simpl; rewrite set_trade_status_proposals; apply Hq.
Qed.

Lemma respond_ids trade_id response data :
  ids_sequential (trades data) →
  ids_sequential (trades (respond trade_id response data).2).
Proof.
  intros Hids.
  destruct (respond_cases trade_id response data)
    as [->|[->|(t & ps & pl & _ & ->)]]; [done|..]; simpl;
    by apply set_trade_status_ids.
Qed.

Lemma respond_turns trade_id response data :
  turns_ok data → turns_ok (respond trade_id response data).2.
Proof.
  intros Hturns.
  destruct (respond_cases trade_id response data)
    as [->|[->|(t & ps & pl & Hpl & ->)]]; [done|done|].
  unfold turns_ok. simpl.
  eapply turns_ok_swap; [|exact Hturns].
  by eapply swap_all_picked_lengths.
Qed.

Lemma respond_dated trade_id response data :
  dated data → dated (respond trade_id response data).2.
Proof.
  destruct (respond_cases trade_id response data)
    as [->|[->|(t & ps & pl & _ & ->)]]; done.
Qed.

(** *** The summary *)

Lemma game_dates data w :
  let data' := (game source annualized_volatility np data w).1.2 in
  end_date data' = end_date data ∧ start_date data' = start_date data.
Proof.
  unfold game, mbind, M_bind, get_clock.
  destruct (process_milestones _ _ _ _ _ _ _ w) as [ms w1].
  destruct (leaderboard_loop _ _ _ w1) as [r w2]. simpl.
  by destruct (expired data (clock w)).
Qed.

Lemma game_dated data w :
  dated data → dated (game source annualized_volatility np data w).1.2.
Proof.
  unfold dated. intros Hd.
  rewrite game_status, (proj1 (game_dates data w)).
  unfold expired. destruct (end_date data) as [e|]; [by eauto|]. exact Hd.
Qed.

End SessionSteps.

(** *** Setting up *)

Section SetupFacts.
Variables year month day : Q → Z.
Variable datetime : Z → Z → Z → Q.
Implicit Types (data : game_data) (w : world) (form : setup_form).

(** The players the name loop builds: distinct non-empty names, the
    same picks per player for all, nothing picked. *)
Lemma read_players_built form_player max indices : ∀ acc players,
  read_players form_player max indices acc = inr players →
  NoDup (player_names acc) →
  Forall (λ p, name p ≠ "" ∧ max_picks p = max ∧ picked p = []) acc →
  NoDup (player_names players)
  ∧ Forall (λ p, name p ≠ "" ∧ max_picks p = max ∧ picked p = []) players
  ∧ length players = (length acc + length indices)%nat.
Proof.
  induction indices as [|i rest IH]; intros acc players; simpl.
  { intros [= <-] Hnd Hacc. split_and!; [done|done|lia]. }
  destruct (form_player i) as [raw|]; [|done].
  case_decide as Hempty; [done|]. case_decide as Hdup; [done|].
  intros Hread Hnd Hacc.
  destruct (IH _ _ Hread) as (Hnd' & Hall & Hlen).
  - unfold player_names in *. rewrite fmap_app. simpl.
    apply NoDup_app. split_and!; [done| |apply NoDup_singleton].
    by intros x Hx ->%list_elem_of_singleton.
  - apply Forall_app. split; [done|]. by repeat constructor.
  - split_and!; [done|done|]. rewrite Hlen, length_app. simpl. lia.
Qed.

Lemma initial_trade_limits_lookup (players : list player) (who : string) :
  initial_trade_limits players !! who
  = if decide (who ∈ player_names players) then Some 3 else None.
Proof.
  unfold initial_trade_limits, player_names.
  assert (Hgen : ∀ limits : gmap string Z,
    foldl (λ limits p, <[name p := 3]> limits) limits players !! who
    = if decide (who ∈ name <$> players) then Some 3 else limits !! who).
  { induction players as [|p players IH]; intros limits.
    { destruct (decide (who ∈ name <$> [])) as [Hin|]; [|done].
      by apply elem_of_nil in Hin. }
    cbn [foldl]. rewrite IH, fmap_cons.
    destruct (decide (who ∈ name <$> players)) as [Hin|Hnot].
    - rewrite decide_True; [done|]. by right.
    - destruct (decide (name p = who)) as [<-|Hne].
      + rewrite lookup_insert_eq, decide_True; [done|]. left.
      + rewrite lookup_insert_ne by done. rewrite decide_False; [done|].
        intros [?|?]%elem_of_cons; by auto. }
  rewrite Hgen. by case_decide.
Qed.

Lemma read_players_answers form_player max indices : ∀ acc answer,
  read_players form_player max indices acc = inl answer →
  answer = EmptyName ∨ answer = RepeatedName
  ∨ answer = StartRaised AttributeError.
Proof.
  induction indices as [|i rest IH]; intros acc answer; simpl; [done|].
  destruct (form_player i); [|intros [= <-]; auto].
  case_decide; [intros [= <-]; auto|].
  case_decide; [intros [= <-]; auto|]. apply IH.
Qed.

Lemma read_players_names form_player max indices : ∀ acc players,
  read_players form_player max indices acc = inr players →
  ∃ new_names,
    player_names players = player_names acc ++ new_names
    ∧ Forall2 (λ i nm, ∃ raw, form_player i = Some raw ∧ nm = strip raw)
        indices new_names.
Proof.
  induction indices as [|i rest IH]; intros acc players; simpl.
  { intros [= <-]. exists []. by rewrite app_nil_r. }
  destruct (form_player i) as [raw|] eqn:Hraw; [|done].
  case_decide; [done|]. case_decide; [done|].
  intros Hread. apply IH in Hread as (new_names & Hn & Hall).
  exists (strip raw :: new_names). split.
  - rewrite Hn. unfold player_names. rewrite fmap_app. simpl.
    by rewrite <-app_assoc.
  - constructor; [eauto|done].
Qed.

Lemma start_cases form data w :
  ((start year month day datetime form data w).1.1 ≠ Started
   ∧ (start year month day datetime form data w).1.2 = data
   ∧ (start year month day datetime form data w).2 = w)
  ∨ ∃ players,
      read_players (f_player form)
        (Z.of_nat (parse_num_picks (f_num_picks form)))
        (seq 1 (Z.to_nat (f_num_players form))) [] = inr players
      ∧ 2 ≤ f_num_players form ≤ 12
      ∧ (normal_time_frame (f_time_frame form) = "Custom" →
         ∃ n, f_custom_days form = Some n ∧ 30 ≤ n ≤ 730)
      ∧ start year month day datetime form data w
        = (Started,
           {| players := players;
              draft_order :=
                get_snake_order (player_names players)
                  (parse_num_picks (f_num_picks form));
              picks := []; status := "draft"; all_picks := [];
              time_frame := Some (normal_time_frame (f_time_frame form));
              start_date := Some (clock w);
              end_date :=
                Some (get_time_frame_dates year month day datetime
                        (normal_time_frame (f_time_frame form)) (clock w)
                        (f_custom_days form));
              trades := [];
              milestones :=
                initial_milestones (clock w)
                  (get_time_frame_dates year month day datetime
                     (normal_time_frame (f_time_frame form)) (clock w)
                     (f_custom_days form));
              trade_limits := initial_trade_limits players |}, w).
Proof.
  unfold start. case_decide as Hcount; [by left|].
  destruct (decide (normal_time_frame (f_time_frame form) = "Custom"))
    as [Hcustom|Hcustom].
  - destruct (f_custom_days form) as [n|]; [|by left].
    case_decide; [by left|].
    destruct (read_players _ _ _ _) as [answer|players] eqn:Hread.
    + left. split_and!; try done. simpl.
      by destruct (read_players_answers _ _ _ _ _ Hread) as [->|[->| ->]].
    + right. exists players. split_and!; [done|lia|lia| |done].
      intros _. exists n. split; [done|lia].
  - destruct (read_players _ _ _ _) as [answer|players] eqn:Hread.
    + left. split_and!; try done. simpl.
      by destruct (read_players_answers _ _ _ _ _ Hread) as [->|[->| ->]].
    + right. exists players. split_and!; [done|lia|lia|done|done].
Qed.

End SetupFacts.

Section SessionInvariant.
Variable source : string → nat → response.
Variable annualized_volatility : string → Q → Q → option deviation.
Variable np : numpy.
Variables year month day : Q → Z.
Variable datetime : Z → Z → Z → Q.
Variable date_text : Q → string.
Implicit Types (data : game_data) (w : world) (s : session).

Lemma blank_data_ok :
  well_formed blank_data ∧ quota_ok blank_data
  ∧ ids_sequential (trades blank_data) ∧ turns_ok blank_data
  ∧ dated blank_data.
Proof.
  split_and!.
  - by apply fresh_well_formed.
  - intros who. simpl. by rewrite lookup_empty.
  - by intros i t.
  - constructor.
  - by intros [=].
Qed.

Lemma start_record_ok form data w :
  let data' := (start year month day datetime form data w).1.2 in
  (data' = data
   ∨ (well_formed data' ∧ quota_ok data' ∧ ids_sequential (trades data')
      ∧ turns_ok data' ∧ dated data'))
  ∧ (start year month day datetime form data w).2 = w.
Proof.
  destruct (start_cases year month day datetime form data w)
    as [(_ & -> & ->)|(players & Hread & _ & _ & ->)]; [by split; [left|]|].
  destruct (read_players_built _ _ _ _ _ Hread) as (Hnd & Hall & _);
    [constructor|constructor|]. simpl.
  split; [right|done]. split_and!.
  - apply fresh_well_formed; [done|done|]. simpl.
    eapply Forall_impl; [exact Hall|]. by intros p (_ & _ & ?).
  - intros who. simpl. rewrite initial_trade_limits_lookup.
    by case_decide.
  - by intros i t.
  - unfold turns_ok. simpl. apply Forall_forall. intros p Hp.
    rewrite Forall_forall in Hall. destruct (Hall p Hp) as (_ & -> & ->).
    rewrite turns_left_snake_order, turns_left_once; [simpl; lia|done|].
    unfold player_names. apply list_elem_of_fmap. eauto.
  - by intros [=].
Qed.

Lemma archive_rows_keeps_priced items :
  keeps_priced (archive_rows source items).
Proof.
  induction items as [|[player picks] rest IH]; simpl.
  { apply keeps_priced_ret. }
  apply keeps_priced_bind; [apply calculate_points_keeps_priced|].
  intros points. apply keeps_priced_bind; [apply IH|].
  intros rows. apply keeps_priced_ret.
Qed.

Lemma new_game_cases history data w :
  let r := new_game source date_text history data w in
  (cache_priced w → cache_priced r.2)
  ∧ ((r.1.1.1 = NewGameRaised ∧ r.1.1.2 = data ∧ r.1.2 = history
      ∧ status data = "finished" ∧ end_date data = None)
     ∨ (r.1.1.1 = BackToIndex ∧ r.1.1.2 = blank_data
        ∧ ((status data ≠ "finished" ∧ r.1.2 = history ∧ r.2 = w)
           ∨ (status data = "finished" ∧ is_Some (end_date data)
              ∧ ∃ e, r.1.2 = history ++ [e]
                     ∧ h_id e = Z.of_nat (length history) + 1)))).
Proof.
  intros r. subst r. unfold new_game.
  case_decide as Hfin; [|split; [done|]; right; split_and!; try done; by left].
  unfold archive_game, mbind, M_bind.
  pose proof (archive_rows_keeps_priced (picks data) w) as Hw1.
  destruct (archive_rows source (picks data) w) as [rows w1].
  destruct (end_date data) as [e|] eqn:He; simpl.
  - split; [done|]. right. split_and!; try done. right.
    split_and!; [done|done|]. eexists. by split.
  - split; [done|]. by left.
Qed.

Lemma draft_get_session preview data w :
  quota_ok data → ids_sequential (trades data) → turns_ok data →
  dated data →
  let data' := (draft_get source preview data w).1.2 in
  quota_ok data' ∧ ids_sequential (trades data') ∧ turns_ok data'
  ∧ dated data'.
Proof.
  intros Hq Hids Hturns Hdated.
  destruct (draft_get_cases source preview data w) as [->| ->]; [done|].
  by split_and!.
Qed.

Lemma trade_post_session action data :
  quota_ok data → ids_sequential (trades data) → turns_ok data →
  dated data →
  let data' := (trade_post action data).2 in
  quota_ok data' ∧ ids_sequential (trades data') ∧ turns_ok data'
  ∧ dated data'.
Proof.
  intros Hq Hids Hturns Hdated. unfold trade_post.
  case_decide; [|done]. destruct action as [f t o r|i r].
  - split_and!; [by apply propose_quota|by apply propose_ids| |].
    + unfold propose. by case_decide.
    + unfold propose. by case_decide.
  - split_and!; [by apply respond_quota|by apply respond_ids
                |by apply respond_turns|by apply respond_dated].
Qed.

Lemma game_session data w :
  quota_ok data → ids_sequential (trades data) → turns_ok data →
  dated data →
  let data' := (game source annualized_volatility np data w).1.2 in
  quota_ok data' ∧ ids_sequential (trades data') ∧ turns_ok data'
  ∧ dated data'.
Proof.
  intros Hq Hids Hturns Hdated.
  destruct (game_record source annualized_volatility np data w)
    as (Hpl & Hdo & _ & _ & Htr & Htl).
  split_and!.
  - intros who. rewrite Htl, Htr. apply Hq.
  - by rewrite Htr.
  - unfold turns_ok. by rewrite Hpl, Hdo.
  - by apply game_dated.
Qed.

Lemma history_ids_app (history : list history_entry) (e : history_entry) :
  history_ids history → h_id e = Z.of_nat (length history) + 1 →
  history_ids (history ++ [e]).
Proof.
  intros Hh He i e' Hi. apply lookup_app_Some in Hi as [Hi|[Hlen Hi]].
  { by apply Hh. }
  apply list_lookup_singleton_Some in Hi as [Hi <-]. rewrite He. lia.
Qed.

Lemma handle_session (st : game_data * world) (req : request) :
  quota_ok st.1 → ids_sequential (trades st.1) → turns_ok st.1 →
  dated st.1 →
  let data' := (handle source annualized_volatility np st req).1 in
  quota_ok data' ∧ ids_sequential (trades data') ∧ turns_ok data'
  ∧ dated data'.
Proof.
  intros Hq Hids Hturns Hdated.
  destruct req as [who raw|preview|action|]; simpl.
  - split_and!; [by apply draft_post_quota|by apply draft_post_ids
                |by apply draft_post_turns|by apply draft_post_dated].
  - by apply draft_get_session.
  - by apply trade_post_session.
  - by apply game_session.
Qed.

(** Every request keeps the books of the session in order. *)
Lemma serve_ok s (req : session_request) :
  session_ok s →
  session_ok (serve source annualized_volatility np year month day datetime
                date_text s req).
Proof.
  intros [Hq Hids Hturns Hdated Hh].
  destruct req as [form| |req]; simpl.
  - destruct (start_record_ok form (s_data s) (s_world s))
      as [[->|(? & ? & ? & ? & ?)] _]; by constructor.
  - destruct (new_game_cases (s_history s) (s_data s) (s_world s))
      as [_ [(_ & Hd & Hh' & _)|(_ & Hd & Hrest)]].
    + constructor; simpl; by rewrite ?Hd, ?Hh'.
    + destruct blank_data_ok as (? & ? & ? & ? & ?).
      constructor; simpl; rewrite ?Hd; try done.
      destruct Hrest as [(_ & -> & _)|(_ & _ & e & -> & He)]; [done|].
      by apply history_ids_app.
  - destruct (handle_session (s_data s, s_world s) req)
      as (? & ? & ? & ?); by try constructor.
Qed.

Lemma serve_all_ok (reqs : list session_request) : ∀ s,
  session_ok s →
  session_ok (serve_all source annualized_volatility np year month day datetime
                date_text s reqs).
Proof.
  unfold serve_all. induction reqs as [|req reqs IH]; intros s Hs; [done|].
  simpl. by apply IH, serve_ok.
Qed.

Lemma new_session_ok w : session_ok (new_session w).
Proof.
  destruct blank_data_ok as (? & ? & ? & ? & ?). by constructor.
Qed.

(** Every request keeps the record well formed and the cache free of
    zero prices. *)
Lemma serve_sound s (req : session_request) :
  session_sound s →
  session_sound (serve source annualized_volatility np year month day datetime
                   date_text s req).
Proof.
  intros [Hwf Hw]. destruct req as [form| |req]; unfold session_sound; simpl.
  - destruct (start_record_ok form (s_data s) (s_world s))
      as [[->|(? & _)] ->]; by split.
  - destruct (new_game_cases (s_history s) (s_data s) (s_world s))
      as [Hw' [(_ & -> & _)|(_ & -> & _)]]; (split; [|by apply Hw']);
      [done|apply blank_data_ok].
  - by apply (handle_invariant source annualized_volatility np
                (s_data s, s_world s) req).
Qed.

Lemma serve_all_sound (reqs : list session_request) : ∀ s,
  session_sound s →
  session_sound (serve_all source annualized_volatility np year month day
                   datetime date_text s reqs).
Proof.
  unfold serve_all. induction reqs as [|req reqs IH]; intros s Hs; [done|].
  simpl. by apply IH, serve_sound.
Qed.

End SessionInvariant.

(** ** Sessions that begin with no files *)

Lemma set_trade_status_insert trade_id response (ts : list trade) (t : trade) :
  ids_sequential ts →
  find_first (λ t, t_id t = trade_id) ts = Some t →
  1 ≤ trade_id
  ∧ ts !! Z.to_nat (trade_id - 1) = Some t
  ∧ set_trade_status trade_id response ts
    = <[Z.to_nat (trade_id - 1) := with_status response t]> ts.
Proof.
  intros Hids Hfind.
  apply find_first_Some in Hfind as (l1 & l2 & -> & Hid & _).
  pose proof (list_lookup_middle l1 l2 t _ eq_refl) as Hlook.
  pose proof (Hids _ _ Hlook) as Hn.
  assert (Hpos : Z.to_nat (trade_id - 1) = length l1) by lia.
  rewrite Hpos. split_and!; [lia|done|].
  rewrite set_trade_status_fmap by by apply ids_sequential_NoDup.
  apply list_eq. intros j. rewrite list_lookup_fmap.
  destruct (decide (j = length l1)) as [->|Hne].
  - rewrite Hlook, list_lookup_insert_eq by (by eapply lookup_lt_Some).
    simpl. by rewrite decide_True.
  - rewrite list_lookup_insert_ne by done.
    destruct (_ !! j) as [t'|] eqn:Hj; [|done]. simpl.
    rewrite decide_False; [done|]. intros Heq. apply Hids in Hj. lia.
Qed.

Section Reached.
Variable source : string → nat → response.
Variable annualized_volatility : string → Q → Q → option deviation.
Variable np : numpy.
Variables year month day : Q → Z.
Variable datetime : Z → Z → Z → Q.
Variable date_text : Q → string.

Local Abbreviation reached w reqs :=
  (serve_all source annualized_volatility np year month day datetime date_text
     (new_session w) reqs).

(** X8. In a session that begins with no game, whatever the requests
    are, nobody has proposed more than three trades in the running game,
    and a player's quota is three less the proposals made, never below
    zero. *)
Theorem session_proposal_quota (w : world) (reqs : list session_request)
    (who : string) :
  let data := s_data (reached w reqs) in
  (proposals who (trades data) ≤ 3)%nat
  ∧ ∀ n, trade_limits data !! who = Some n →
         0 ≤ n ≤ 3 ∧ n = 3 - Z.of_nat (proposals who (trades data)).
Proof.
  intros data.
  pose proof (ok_quota _ (serve_all_ok source annualized_volatility np year
    month day datetime date_text reqs _ (new_session_ok w)) who) as Hq.
  fold data in Hq.
  destruct (trade_limits data !! who) as [n|].
  - split; [lia|]. intros ? [= <-]. lia.
  - split; [lia|done].
Qed.

(** X9. In such a session the trades are numbered 1, 2, ... in the
    order they were proposed, so an answer to trade [i] leaves every
    other trade as it is: the trade list is unchanged, or differs in the
    status of its entry [i] alone. *)
Theorem respond_marks_one_trade (w : world) (reqs : list session_request)
    (trade_id : Z) (response : string) :
  let data := s_data (reached w reqs) in
  let data' := (respond trade_id response data).2 in
  (∀ i t, trades data !! i = Some t → t_id t = Z.of_nat i + 1)
  ∧ (trades data' = trades data
     ∨ ∃ t, 1 ≤ trade_id
            ∧ trades data !! Z.to_nat (trade_id - 1) = Some t
            ∧ trades data'
              = <[Z.to_nat (trade_id - 1) := with_status response t]>
                  (trades data)).
Proof.
  intros data data'.
  pose proof (ok_ids _ (serve_all_ok source annualized_volatility np year
    month day datetime date_text reqs _ (new_session_ok w))) as Hids.
  fold data in Hids. split; [exact Hids|].
  subst data'. unfold respond.
  destruct (find_first _ (trades data)) as [t|] eqn:Hfind; [|by left].
  destruct (set_trade_status_insert trade_id response _ _ Hids Hfind)
    as (Hpos & Hlook & Hset).
  case_decide; [|right; by exists t]. simpl.
  destruct (swap_picks t (picks data)) as [e|ps]; [by left|].
  destruct (swap_all_picked t (players data)) as [e|pl]; [by left|].
  right. by exists t.
Qed.

(** X10. In such a session the turns a player has left in the draft
    queue and the tickers on the player's list always add up to the picks
    per player: nobody holds more than that, and once the queue is empty
    everybody holds exactly that many, trades included. *)
Theorem session_hands (w : world) (reqs : list session_request) :
  let data := s_data (reached w reqs) in
  Forall (λ p,
    Z.of_nat (turns_left (name p) (draft_order data))
    + Z.of_nat (length (picked p)) = max_picks p
    ∧ Z.of_nat (length (picked p)) ≤ max_picks p
    ∧ (draft_order data = [] → Z.of_nat (length (picked p)) = max_picks p))
    (players data).
Proof.
  intros data.
  pose proof (ok_turns _ (serve_all_ok source annualized_volatility np year
    month day datetime date_text reqs _ (new_session_ok w))) as Hturns.
  fold data in Hturns. unfold turns_ok in Hturns.
  eapply Forall_impl; [exact Hturns|]. intros p Hp. simpl in Hp.
  split_and!; [done|lia|]. intros Hq. rewrite Hq in Hp.
  unfold turns_left in Hp. simpl in Hp. lia.
Qed.

(** X11. In such a session, if the cache file has no zero price at the
    beginning, no ticker is ever held twice, every ticker held is
    registered as drafted, no pick has a draft price of zero, a player's
    ticker list is the ticker list of the player's picks and has at most
    the picks per player, and the cache still has no zero price. *)
Theorem session_portfolios (w : world) (reqs : list session_request) :
  cache_priced w →
  let data := s_data (reached w reqs) in
  NoDup (tickers (all_held (picks data)))
  ∧ (∀ tk, tk ∈ tickers (all_held (picks data)) → tk ∈ all_picks data)
  ∧ priced (picks data)
  ∧ Forall (λ p, picked p = tickers (held data (name p))
                 ∧ Z.of_nat (length (held data (name p))) ≤ max_picks p)
           (players data)
  ∧ cache_priced (s_world (reached w reqs)).
Proof.
  intros Hw data.
  destruct (serve_all_sound source annualized_volatility np year month day
    datetime date_text reqs (new_session w)) as [Hwf Hw'].
  { split; [apply blank_data_ok|done]. }
  pose proof (ok_turns _ (serve_all_ok source annualized_volatility np year
    month day datetime date_text reqs _ (new_session_ok w))) as Hturns.
  fold data in Hwf, Hturns. destruct Hwf as [_ Hnd Hdr Hpr Hsy _].
  split_and!; try done.
  unfold turns_ok in Hturns. rewrite Forall_forall in Hturns, Hsy.
  apply Forall_forall. intros p Hp.
  specialize (Hturns p Hp). specialize (Hsy p Hp). unfold synced in Hsy.
  split; [done|]. unfold held.
  assert (length (picked p)
          = length (default [] (dict_get (name p) (picks data)))) as <-.
  { rewrite Hsy. unfold tickers. by rewrite length_fmap. }
  lia.
Qed.

(** X12. In such a session [new_game] never fails: a finished game has
    an end date to cut.  It answers with the index page and leaves the
    blank record; the history, numbered 1, 2, ..., gets one more entry
    with the next number, the picks and the time frame of the game when
    the game was finished, and is left as it is otherwise. *)
Theorem new_game_after_session (w : world) (reqs : list session_request) :
  let s := reached w reqs in
  let r := new_game source date_text (s_history s) (s_data s) (s_world s) in
  r.1.1.1 = BackToIndex
  ∧ r.1.1.2 = blank_data
  ∧ (∀ i e, s_history s !! i = Some e → h_id e = Z.of_nat i + 1)
  ∧ (status (s_data s) ≠ "finished" →
     r.1.2 = s_history s ∧ r.2 = s_world s)
  ∧ (status (s_data s) = "finished" →
     ∃ e, r.1.2 = s_history s ++ [e]
          ∧ h_id e = Z.of_nat (length (s_history s)) + 1
          ∧ h_picks e = picks (s_data s)
          ∧ h_time_frame e = time_frame (s_data s)).
Proof.
  intros s r.
  pose proof (serve_all_ok source annualized_volatility np year
    month day datetime date_text reqs _ (new_session_ok w)) as Hok.
  fold s in Hok. destruct Hok as [_ _ _ Hdated Hh].
  subst r. unfold new_game.
  case_decide as Hfin; [|by split_and!].
  destruct (Hdated Hfin) as [e He].
  unfold archive_game, mbind, M_bind.
  destruct (archive_rows source (picks (s_data s)) (s_world s)) as [rows w1].
  rewrite He. simpl. split_and!; try done.
  intros _. eexists. by split_and!.
Qed.

End Reached.

Lemma session_portfolios_witness :
  NoDup (tickers (all_held (picks (s_data
    (serve_all steady_source no_history sample_numpy sample_year sample_month sample_day
       sample_datetime sample_date_text (new_session (cold_world 0))
       sample_requests))))).
Proof.
  apply (session_portfolios steady_source no_history sample_numpy sample_year sample_month
           sample_day sample_datetime sample_date_text (cold_world 0)
           sample_requests).
  intros k e. unfold cold_world. simpl. by rewrite lookup_empty.
Defined.

(** ** Setting up a game *)

Lemma parse_num_picks_shown (num_picks : string) :
  parse_num_picks
    (if decide (num_picks ∈ ["1"; "5"; "10"]) then num_picks else "5")
  = parse_num_picks num_picks.
Proof.
  case_decide as Hin; [done|]. unfold parse_num_picks.
  destruct (decide (num_picks = "1")) as [->|];
    [exfalso; apply Hin; set_solver|].
  destruct (decide (num_picks = "10")) as [->|];
    [exfalso; apply Hin; set_solver|]. done.
Qed.

Lemma normal_time_frame_elem (time_frame : string) :
  normal_time_frame time_frame ∈ time_frames.
Proof.
  unfold normal_time_frame. case_decide; [done|].
  unfold time_frames. set_solver.
Qed.

Lemma normal_time_frame_again (time_frame : string) :
  normal_time_frame (normal_time_frame time_frame)
  = normal_time_frame time_frame.
Proof.
  unfold normal_time_frame at 1. rewrite decide_True; [done|].
  apply normal_time_frame_elem.
Qed.

Lemma game_duration_days (start_date : Q) (n : Z) :
  game_duration start_date (start_date + days n) = n.
Proof.
  unfold game_duration, days.
  assert (Heq : ((start_date + inject_Z (n * 86400) - start_date) / 86400
                 == inject_Z n)%Q).
  { rewrite inject_Z_mult. change (inject_Z 86400) with 86400%Q. field. }
  rewrite Heq. apply Qfloor_Z.
Qed.

Lemma game_duration_bounds (start_date end_date : Q) :
  (start_date <= end_date)%Q →
  0 ≤ game_duration start_date end_date
  ∧ (start_date + days (game_duration start_date end_date) <= end_date)%Q.
Proof.
  intros Hle. unfold game_duration, days.
  set (x := ((end_date - start_date) / 86400)%Q).
  assert (Hx : (0 <= x)%Q).
  { unfold x. apply Qle_shift_div_l; [done|]. lra. }
  split.
  - change 0 with (Qfloor 0). by apply Qfloor_resp_le.
  - pose proof (Qfloor_le x) as Hfloor.
    rewrite inject_Z_mult. change (inject_Z 86400) with 86400%Q.
    assert (Hx' : (x * 86400 == end_date - start_date)%Q).
    { unfold x. field. }
    lra.
Qed.

Lemma days_le (m n : Z) : m ≤ n → (days m <= days n)%Q.
Proof. intros Hmn. unfold days. rewrite <-Zle_Qle. lia. Qed.

Section StartTheorems.
Variables year month day : Q → Z.
Variable datetime : Z → Z → Z → Q.

(** X13. When [start] does not begin a game it writes nothing.  When it
    does, the record has between 2 and 12 players whose names are the
    stripped name fields in their order, all different and none empty;
    every player has no ticker, a quota of three proposals and as many
    turns in the queue as there are picks per player; the queue has
    players x picks entries; and the phase is the draft. *)
Theorem start_sets_up_game (form : setup_form) (data : game_data)
    (w : world) :
  let r := start year month day datetime form data w in
  (r.1.1 ≠ Started → r.1.2 = data ∧ r.2 = w)
  ∧ (r.1.1 = Started →
     let data' := r.1.2 in
     let rounds := parse_num_picks (f_num_picks form) in
     r.2 = w
     ∧ 2 ≤ f_num_players form ≤ 12
     ∧ Forall2 (λ i p, ∃ raw, f_player form i = Some raw
                              ∧ name p = strip raw)
         (seq 1 (Z.to_nat (f_num_players form))) (players data')
     ∧ NoDup (player_names (players data'))
     ∧ Forall (λ p, name p ≠ "" ∧ max_picks p = Z.of_nat rounds
                    ∧ picked p = []
                    ∧ trade_limits data' !! name p = Some 3
                    ∧ turns_left (name p) (draft_order data') = rounds)
         (players data')
     ∧ length (draft_order data')
       = (Z.to_nat (f_num_players form) * rounds)%nat
     ∧ status data' = "draft" ∧ picks data' = [] ∧ all_picks data' = []
     ∧ trades data' = [] ∧ start_date data' = Some (clock w)).
Proof.
  intros r. subst r.
  destruct (start_cases year month day datetime form data w)
    as [(Hne & -> & ->)|(players & Hread & Hcount & _ & ->)]; [done|].
  split; [done|]. intros _. simpl.
  destruct (read_players_built _ _ _ _ _ Hread) as (Hnd & Hall & Hlen);
    [constructor|constructor|].
  destruct (read_players_names _ _ _ _ _ Hread) as (new_names & Hn & Hnames).
  simpl in Hn. subst new_names. unfold player_names in Hnames.
  apply Forall2_fmap_r in Hnames.
  split_and!; try done; try lia.
  - rewrite Forall_forall in Hall. apply Forall_forall. intros p Hp.
    destruct (Hall p Hp) as (? & ? & ?).
    assert (Hin : name p ∈ player_names players).
    { unfold player_names. apply list_elem_of_fmap. eauto. }
    split_and!; try done.
    + rewrite initial_trade_limits_lookup. by rewrite decide_True.
    + rewrite turns_left_snake_order, turns_left_once by done. lia.
  - rewrite get_snake_order_length. unfold player_names.
    rewrite length_fmap, Hlen, length_seq. simpl. lia.
Qed.

(** X14. [names] and [start] read the form in the same way: the hidden
    fields that [names] puts into the name form never make [start] go
    back to the index page or fail on the number of days, and [start]
    reads from them the picks per player and the time frame that [names]
    read from the first form. *)
Theorem names_then_start (form form' : setup_form)
    (fields : Z * string * string * option Z) (data : game_data)
    (w : world) :
  names form = Some fields →
  f_num_players form' = fields.1.1.1 →
  f_num_picks form' = fields.1.1.2 →
  f_time_frame form' = fields.1.2 →
  f_custom_days form' = fields.2 →
  let r := start year month day datetime form' data w in
  r.1.1 ≠ ToIndex
  ∧ r.1.1 ≠ StartRaised TypeError
  ∧ parse_num_picks (f_num_picks form') = parse_num_picks (f_num_picks form)
  ∧ normal_time_frame (f_time_frame form')
    = normal_time_frame (f_time_frame form).
Proof.
  intros Hnames Hplayers Hpicks Hframe Hdays r.
  assert (Hshape :
    ¬ (f_num_players form' < 2 ∨ 12 < f_num_players form')
    ∧ f_num_picks form'
      = (if decide (f_num_picks form ∈ ["1"; "5"; "10"])
         then f_num_picks form else "5")
    ∧ f_time_frame form' = normal_time_frame (f_time_frame form)
    ∧ (normal_time_frame (f_time_frame form) = "Custom" →
       ∃ n, f_custom_days form' = Some n ∧ ¬ (n < 30 ∨ 730 < n))).
  { unfold names in Hnames. case_decide as Hcount; [done|].
    case_decide as Hcustom.
    - destruct (f_custom_days form) as [n|]; [|done].
      case_decide as Hn; [done|]. injection Hnames as <-.
      cbn in Hplayers, Hpicks, Hframe, Hdays.
      split_and!; [by rewrite Hplayers|done|done|]. intros _. exists n.
      split; [|done]. rewrite Hdays.
      destruct (decide (n = 0)); [exfalso; lia|done].
    - injection Hnames as <-. cbn in Hplayers, Hpicks, Hframe, Hdays.
      split_and!; [by rewrite Hplayers|done|done|done]. }
  destruct Hshape as (Hcount & Hpicks' & Hframe' & Hcustom).
  assert (Hnormal : normal_time_frame (f_time_frame form')
                    = normal_time_frame (f_time_frame form))
    by (rewrite Hframe'; apply normal_time_frame_again).
  assert (Hanswer : r.1.1 ≠ ToIndex ∧ r.1.1 ≠ StartRaised TypeError).
  { subst r. unfold start. rewrite decide_False by done. rewrite Hnormal.
    destruct (decide (normal_time_frame (f_time_frame form) = "Custom"))
      as [Hc|Hc].
    - destruct (Hcustom Hc) as (n & -> & Hn). rewrite decide_False by done.
      destruct (read_players _ _ _ _) as [answer|players] eqn:Hread; [|done].
      by destruct (read_players_answers _ _ _ _ _ Hread) as [->|[->| ->]].
    - destruct (read_players _ _ _ _) as [answer|players] eqn:Hread; [|done].
      by destruct (read_players_answers _ _ _ _ _ Hread) as [->|[->| ->]]. }
  split_and!; [apply Hanswer|apply Hanswer| |done].
  rewrite Hpicks'. apply parse_num_picks_shown.
Qed.

(** X15. The two milestones [start] schedules lie within the game, the
    highest-gain one first, whenever the game does not end before it
    starts; and in a game of [n] whole days they fall [n // 3] and
    [2 * n // 3] days after the start. *)
Theorem milestones_within_game (start_date end_date : Q) :
  ((start_date <= end_date)%Q →
   ∃ t1 t2, m_time <$> initial_milestones start_date end_date = [t1; t2]
            ∧ (start_date <= t1)%Q ∧ (t1 <= t2)%Q ∧ (t2 <= end_date)%Q)
  ∧ ∀ n, m_time <$> initial_milestones start_date (start_date + days n)
         = [(start_date + days (n / 3))%Q; (start_date + days (2 * n / 3))%Q].
Proof.
  split.
  - intros Hle. destruct (game_duration_bounds _ _ Hle) as [Hpos Hend].
    eexists _, _. split; [reflexivity|].
    set (d := game_duration start_date end_date) in *.
    assert (Ha : 0 ≤ d / 3) by (apply Z.div_pos; lia).
    assert (Hb : d / 3 ≤ 2 * d / 3) by (apply Z.div_le_mono; lia).
    assert (Hc : 2 * d / 3 ≤ d) by (apply Z.div_le_upper_bound; lia).
    apply days_le in Ha, Hb, Hc.
    assert (H0 : (days 0 == 0)%Q) by done.
    simpl. split_and!; lra.
  - intros n. unfold initial_milestones. by rewrite game_duration_days.
Qed.

(** X16. A game that [start] begins with another time frame than the
    fiscal year lasts between 30 and 730 days: its end date is that many
    days after its start date, so it is not over when it begins. *)
Theorem start_game_length (form : setup_form) (data : game_data)
    (w : world) :
  let r := start year month day datetime form data w in
  r.1.1 = Started →
  normal_time_frame (f_time_frame form) ≠ "Fiscal Year" →
  ∃ e n, end_date r.1.2 = Some e
         ∧ start_date r.1.2 = Some (clock w)
         ∧ 30 ≤ n ≤ 730
         ∧ (e == clock w + days n)%Q
         ∧ expired r.1.2 (clock w) = false.
Proof.
  intros r. subst r.
  destruct (start_cases year month day datetime form data w)
    as [(Hne & _)|(players & _ & _ & Hcustom & ->)]; [done|].
  intros _ Hfiscal. simpl.
  assert (Hlen : ∃ n, 30 ≤ n ≤ 730
    ∧ (get_time_frame_dates year month day datetime
         (normal_time_frame (f_time_frame form)) (clock w)
         (f_custom_days form) == clock w + days n)%Q).
  { pose proof (normal_time_frame_elem (f_time_frame form)) as Hin.
    unfold time_frames in Hin. unfold get_time_frame_dates.
    repeat (apply elem_of_cons in Hin as [Hin|Hin]); try done.
    - rewrite Hin. exists 90. by simpl.
    - rewrite Hin. exists 180. by simpl.
    - rewrite Hin. simpl.
      destruct (_ && _).
      + exists 366. split; [lia|]. unfold days.
        rewrite <-Qplus_assoc, <-inject_Z_plus. reflexivity.
      + by exists 365.
    - destruct (Hcustom Hin) as (n & -> & Hn). rewrite Hin. simpl.
      exists n. split; [done|]. rewrite decide_True; [done|]. split; [done|lia].
    - by apply elem_of_nil in Hin. }
  destruct Hlen as (n & Hn & Heq).
  eexists _, n. split_and!; try done; try lia.
  unfold expired. simpl. apply Qltb_ge. rewrite Heq.
  assert (H0 : (days 0 <= days n)%Q) by (apply days_le; lia).
  assert (Hz : (days 0 == 0)%Q) by done. lra.
Qed.

(** X17. The fiscal year on its last day.  [datetime(year, 6, 30)] is
    the midnight that begins the 30th of June, and the test
    [start.day > 30] does not hold on that day: a fiscal-year game
    started later on the 30th of June gets that midnight as its end date,
    and the next read of the game page sets the phase to finished. *)
Theorem fiscal_year_on_june_30 (source : string → nat → response)
    (annualized_volatility : string → Q → Q → option deviation)
    (np : numpy)
    (form : setup_form) (data : game_data) (w w' : world) :
  let r := start year month day datetime form data w in
  r.1.1 = Started →
  normal_time_frame (f_time_frame form) = "Fiscal Year" →
  month (clock w) = 6 → day (clock w) = 30 →
  (datetime (year (clock w)) 6 30 < clock w)%Q →
  (clock w <= clock w')%Q →
  end_date r.1.2 = Some (datetime (year (clock w)) 6 30)
  ∧ status (game source annualized_volatility np r.1.2 w').1.2 = "finished".
Proof.
  intros r. subst r.
  destruct (start_cases year month day datetime form data w)
    as [(Hne & _)|(players & _ & _ & _ & ->)]; [done|].
  intros _ Hframe Hmonth Hday Hbefore Hlater.
  assert (Hend : get_time_frame_dates year month day datetime
                   (normal_time_frame (f_time_frame form)) (clock w)
                   (f_custom_days form)
                 = datetime (year (clock w)) 6 30).
  { rewrite Hframe. unfold get_time_frame_dates. simpl.
    by rewrite Hmonth, Hday. }
  simpl. rewrite Hend. split; [done|].
  rewrite game_status. unfold expired. simpl.
  rewrite (proj2 (Qltb_lt _ _)); [done|]. lra.
Qed.

End StartTheorems.

Lemma start_sets_up_game_witness :
  player_names
    (players (start sample_year sample_month sample_day sample_datetime
                (sample_form "1 Quarter" None) blank_data (cold_world 5)).1.2)
  = ["ann"; "bob"]
  ∧ NoDup ["ann"; "bob"].
Proof.
  split; [reflexivity|].
  apply (proj2 (start_sets_up_game sample_year sample_month sample_day
                  sample_datetime (sample_form "1 Quarter" None) blank_data
                  (cold_world 5)) eq_refl).
Defined.

Lemma names_then_start_witness :
  names (sample_form "Custom" (Some 45)) = Some (2, "1", "Custom", Some 45)
  ∧ (start sample_year sample_month sample_day sample_datetime
       (sample_form "Custom" (Some 45)) blank_data (cold_world 5)).1.1
    ≠ ToIndex.
Proof.
  split; [reflexivity|].
  apply (names_then_start sample_year sample_month sample_day sample_datetime
           (sample_form "Custom" (Some 45)) (sample_form "Custom" (Some 45))
           (2, "1", "Custom", Some 45) blank_data (cold_world 5)
           eq_refl eq_refl eq_refl eq_refl eq_refl).
Defined.

Lemma milestones_within_game_witness :
  ∃ t1 t2, m_time <$> initial_milestones 0 7776000 = [t1; t2]
           ∧ (0 <= t1)%Q ∧ (t1 <= t2)%Q ∧ (t2 <= 7776000)%Q.
Proof.
  apply (proj1 (milestones_within_game 0 7776000)).
  unfold Qle. simpl. lia.
Defined.

Lemma start_game_length_witness :
  ∃ e n,
    end_date (start sample_year sample_month sample_day sample_datetime
                (sample_form "Custom" (Some 45)) blank_data
                (cold_world 5)).1.2 = Some e
    ∧ start_date (start sample_year sample_month sample_day sample_datetime
                    (sample_form "Custom" (Some 45)) blank_data
                    (cold_world 5)).1.2 = Some (clock (cold_world 5))
    ∧ 30 ≤ n ≤ 730
    ∧ (e == clock (cold_world 5) + days n)%Q
    ∧ expired (start sample_year sample_month sample_day sample_datetime
                 (sample_form "Custom" (Some 45)) blank_data
                 (cold_world 5)).1.2 (clock (cold_world 5)) = false.
Proof.
  apply (start_game_length sample_year sample_month sample_day
           sample_datetime (sample_form "Custom" (Some 45)) blank_data
           (cold_world 5) eq_refl).
  vm_compute. discriminate.
Defined.

Lemma fiscal_year_on_june_30_witness :
  status (game steady_source no_history sample_numpy
            (start sample_year sample_month sample_day sample_datetime
               (sample_form "Fiscal Year" None) blank_data
               (cold_world 3600)).1.2 (cold_world 3600)).1.2
  = "finished".
Proof.
  apply (fiscal_year_on_june_30 sample_year sample_month sample_day
           sample_datetime steady_source no_history sample_numpy
           (sample_form "Fiscal Year" None) blank_data
           (cold_world 3600) (cold_world 3600)
           eq_refl eq_refl eq_refl eq_refl).
  - reflexivity.
  - unfold Qle. simpl. lia.
Defined.

(** ** The highest-gain milestone *)


Section HighestGain.
Variable source : string → nat → response.
Variable annualized_volatility : string → Q → Q → option deviation.
Variable np : numpy.




End HighestGain.


(** ** The archive *)

Lemma insert_row_perm (x : archived_row) (l : list archived_row) :
  insert_row x l ≡ₚ x :: l.
Proof.
  induction l as [|y l IH]; simpl; [done|].
  destruct (Qltb (a_points x) (a_points y)); [|done].
  rewrite IH. apply Permutation_swap.
Qed.

Lemma sort_rows_perm (l : list archived_row) : sort_rows l ≡ₚ l.
Proof.
  induction l as [|x l IH]; simpl; [done|].
  by rewrite insert_row_perm, IH.
Qed.

Lemma insert_row_sorted (x : archived_row) (l : list archived_row) :
  StronglySorted (λ a b, (a_points b <= a_points a)%Q) l →
  StronglySorted (λ a b, (a_points b <= a_points a)%Q) (insert_row x l).
Proof.
  induction 1 as [|y l Hl IH Hy]; simpl.
  { repeat constructor. }
  destruct (Qltb (a_points x) (a_points y)) eqn:Hxy.
  - constructor; [done|]. rewrite insert_row_perm.
    constructor; [|done]. by apply Qlt_le_weak, Qltb_lt.
  - apply Qltb_ge in Hxy. constructor; [by constructor|].
    constructor; [done|]. eapply Forall_impl; [exact Hy|].
    intros z Hz. simpl in Hz. by eapply Qle_trans.
Qed.

Lemma sort_rows_sorted (l : list archived_row) :
  StronglySorted (λ a b, (a_points b <= a_points a)%Q) (sort_rows l).
Proof.
  induction l as [|x l IH]; simpl; [constructor|].
  by apply insert_row_sorted.
Qed.

Section ArchiveFacts.
Variable source : string → nat → response.
Variable date_text : Q → string.

Lemma archive_rows_names (items : dict (list pick)) : ∀ w,
  a_name <$> (archive_rows source items w).1 = items.*1.
Proof.
  induction items as [|[player picks] rest IH]; intros w; [done|].
  cbn [archive_rows]. unfold mbind, M_bind.
  destruct (calculate_points source picks w) as [points w1].
  specialize (IH w1).
  destruct (archive_rows source rest w1) as [rows w2].
  cbn [fst snd mret M_ret] in *. by rewrite !fmap_cons, IH.
Qed.

(** X19. [archive_game] computes one row per player with picks and
    fails when the record has no end date.  Otherwise it adds one entry
    to the history, after the entries that were there: its number is the
    next one, its leaderboard has the computed rows sorted so that no row
    has fewer points than a later one, its winner is the name in the top
    row, whose points no row exceeds, and its picks are those of the
    record. *)
Theorem archive_game_entry (history : list history_entry)
    (data : game_data) (w : world) :
  let r := archive_game source date_text history data w in
  let rows := (archive_rows source (picks data) w).1 in
  r.2 = (archive_rows source (picks data) w).2
  ∧ a_name <$> rows = (picks data).*1
  ∧ match end_date data with
    | None => r.1 = None
    | Some end_date =>
        ∃ e, r.1 = Some (history ++ [e])
             ∧ h_id e = Z.of_nat (length history) + 1
             ∧ h_end_date e = date_text end_date
             ∧ h_time_frame e = time_frame data
             ∧ h_picks e = picks data
             ∧ h_leaderboard e ≡ₚ rows
             ∧ StronglySorted (λ a b, (a_points b <= a_points a)%Q)
                 (h_leaderboard e)
             ∧ h_winner e = a_name <$> head (h_leaderboard e)
             ∧ Forall (λ row, ∃ top, head (h_leaderboard e) = Some top
                                     ∧ (a_points row <= a_points top)%Q)
                 (h_leaderboard e)
    end.
Proof.
  intros r rows. subst r rows. unfold archive_game, mbind, M_bind.
  pose proof (archive_rows_names (picks data) w) as Hnames.
  destruct (archive_rows source (picks data) w) as [rows w1].
  cbn [fst snd] in *.
  destruct (end_date data) as [e|]; cbn [fst snd mret M_ret]; [|done].
  split_and!; [done|done|]. eexists. split; [reflexivity|]. cbn.
  split_and!; try done.
  - apply sort_rows_perm.
  - apply sort_rows_sorted.
  - by destruct (sort_rows rows).
  - pose proof (sort_rows_sorted rows) as Hsorted.
    destruct (sort_rows rows) as [|top l]; [constructor|].
    apply StronglySorted_inv in Hsorted as [_ Htop].
    constructor.
    + exists top. split; [done|]. apply Qle_refl.
    + eapply Forall_impl; [exact Htop|]. intros row Hrow. by exists top.
Qed.

End ArchiveFacts.

(** ** The cost of a page *)

Section Budget.
Variable source : string → nat → response.
Variable annualized_volatility : string → Q → Q → option deviation.
Variable np : numpy.

Lemma within_budget_ret {A} (a : A) : within_budget (mret a) 0.
Proof.
  intros w. unfold mret, M_ret. cbn [fst snd].
  change (inject_Z (150 * Z.of_nat 0)) with 0%Q.
  split_and!; [lia|lia|apply Qle_refl|lra].
Qed.

Lemma within_budget_more {A} (m : M A) (a b : nat) :
  within_budget m a → (a ≤ b)%nat → within_budget m b.
Proof.
  intros Hm Hab w. destruct (Hm w) as (Hcalls & Hclock & Hslept).
  split_and!; [lia|lia|done|].
  eapply Qle_trans; [exact Hslept|].
  assert (inject_Z (150 * Z.of_nat a) <= inject_Z (150 * Z.of_nat b))%Q
    by (rewrite <-Zle_Qle; lia).
  lra.
Qed.

Lemma within_budget_bind {A B} (m : M A) (k : A → M B) (a b : nat) :
  within_budget m a → (∀ x, within_budget (k x) b) →
  within_budget (m ≫= k) (a + b).
Proof.
  intros Hm Hk w. unfold mbind, M_bind.
  destruct (Hm w) as (Hcalls & Hclock & Hslept).
  destruct (m w) as [x w1]. cbn [snd] in *.
  destruct (Hk x w1) as (Hcalls' & Hclock' & Hslept').
  split_and!; [lia|lia|by eapply Qle_trans|].
  replace (150 * Z.of_nat (a + b))
    with (150 * Z.of_nat a + 150 * Z.of_nat b) by lia.
  rewrite inject_Z_plus. lra.
Qed.

Lemma fetch_stock_info_budget ticker :
  within_budget (fetch_stock_info source ticker) 1.
Proof.
  intros w. unfold fetch_stock_info, fetch_stock_info_with.
  destruct (fetch_attempts_world source ticker 5 10 4 0%nat w eq_refl)
    as (k & Hk & ->).
  cbn [count_request calls clock].
  rewrite after_retries_calls.
  pose proof (after_retries_clock 10 0 k w) as Hclock.
  assert (Hsum : (0 <= Qsum (backoff_delay 10 <$> seq 0 k))%Q
                 ∧ (Qsum (backoff_delay 10 <$> seq 0 k) <= 150)%Q).
  { do 5 (destruct k as [|k]; [by split|]). lia. }
  change (inject_Z (150 * Z.of_nat 1)) with 150%Q.
  split_and!; [lia|lia|lra|lra].
Qed.

Lemma get_price_budget ticker : within_budget (get_price source ticker) 1.
Proof.
  intros w. unfold get_price, mbind, M_bind.
  pose proof (get_cached_stock_info_world ticker 21600 w) as Hw.
  destruct (get_cached_stock_info ticker 21600 w) as [[i|] w0];
    cbn [snd] in Hw; subst w0.
  { apply (within_budget_more (mret (Some (currentPrice i))) 0 1);
      [apply within_budget_ret|lia]. }
  pose proof (fetch_stock_info_budget ticker w) as Hfetch.
  destruct (fetch_stock_info source ticker w) as [[i|] w1]; exact Hfetch.
Qed.

Lemma points_loop_budget picks : ∀ total_change count,
  within_budget (points_loop source picks total_change count) (length picks).
Proof.
  induction picks as [|pick rest IH]; intros total_change count.
  { apply within_budget_ret. }
  cbn [points_loop length].
  apply (within_budget_bind _ _ 1 (length rest)); [apply get_price_budget|].
  intros [current|]; [|apply IH].
  destruct (pct_change current (price pick)); apply IH.
Qed.

Lemma calculate_points_budget picks :
  within_budget (calculate_points source picks) (length picks).
Proof.
  destruct picks as [|pick rest]; [apply within_budget_ret|].
  unfold calculate_points.
  replace (length (pick :: rest)) with (length (pick :: rest) + 0)%nat by lia.
  apply within_budget_bind; [apply points_loop_budget|].
  intros [total_change count]. apply within_budget_ret.
Qed.

Lemma summarize_budget picks :
  within_budget (summarize source picks) (length picks).
Proof.
  induction picks as [|pick rest IH]; [apply within_budget_ret|].
  cbn [summarize length].
  apply (within_budget_bind _ _ 1 (length rest)); [apply get_price_budget|].
  intros current.
  replace (length rest) with (length rest + 0)%nat by lia.
  apply within_budget_bind; [apply IH|]. intros rows.
  apply within_budget_ret.
Qed.

Lemma gain_picks_budget player picks : ∀ max_gain winner,
  within_budget (gain_picks source player picks max_gain winner)
    (length picks).
Proof.
  induction picks as [|pick rest IH]; intros max_gain winner.
  { apply within_budget_ret. }
  cbn [gain_picks length].
  apply (within_budget_bind _ _ 1 (length rest)); [apply get_price_budget|].
  intros [current|]; [|apply IH].
  destruct (pct_change current (price pick)) as [gain|]; [|apply IH].
  destruct (ext_ltb max_gain (Fin gain)); apply IH.
Qed.

Lemma pick_count_cons player (picks : list pick) (rest : dict (list pick)) :
  pick_count ((player, picks) :: rest) = (length picks + pick_count rest)%nat.
Proof. unfold pick_count, all_held. simpl. by rewrite length_app. Qed.

Lemma gain_players_budget items : ∀ max_gain winner,
  within_budget (gain_players source items max_gain winner)
    (pick_count items).
Proof.
  induction items as [|[player picks] rest IH]; intros max_gain winner.
  { apply within_budget_ret. }
  rewrite pick_count_cons. cbn [gain_players].
  apply within_budget_bind; [apply gain_picks_budget|]. intros r. apply IH.
Qed.

Lemma volatility_players_budget start_date end_date items :
  ∀ min_volatility winner,
  within_budget (volatility_players annualized_volatility np start_date
                   end_date items min_volatility winner) 0.
Proof.
  intros min_volatility winner w.
  destruct (volatility_players_least annualized_volatility np start_date
              end_date items min_volatility winner w) as [-> _].
  apply (within_budget_ret tt w).
Qed.

Lemma process_milestone_budget data now winner_var m :
  within_budget (process_milestone source annualized_volatility np data now
                   winner_var m) (pick_count (picks data)).
Proof.
  unfold process_milestone.
  destruct (_ && _);
    [|eapply within_budget_more; [apply within_budget_ret|lia]].
  case_decide.
  { replace (pick_count (picks data))
      with (pick_count (picks data) + 0)%nat by lia.
    apply within_budget_bind; [apply gain_players_budget|].
    intros r. apply within_budget_ret. }
  case_decide.
  { eapply within_budget_more; [|apply Nat.le_0_l].
    apply (within_budget_bind _ _ 0 0);
      [apply volatility_players_budget|].
    intros r. apply within_budget_ret. }
  eapply within_budget_more; [apply within_budget_ret|lia].
Qed.

Lemma process_milestones_budget data now ms : ∀ winner_var,
  within_budget (process_milestones source annualized_volatility np data now
                   winner_var ms) (length ms * pick_count (picks data)).
Proof.
  induction ms as [|m rest IH]; intros winner_var.
  { apply within_budget_ret. }
  cbn [process_milestones length Nat.mul].
  apply within_budget_bind; [apply process_milestone_budget|]. intros r.
  replace (length rest * pick_count (picks data))%nat
    with (length rest * pick_count (picks data) + 0)%nat by lia.
  apply within_budget_bind; [apply IH|]. intros r'.
  apply within_budget_ret.
Qed.

Lemma leaderboard_loop_budget ms items :
  within_budget (leaderboard_loop source ms items) (2 * pick_count items).
Proof.
  induction items as [|[player picks] rest IH]; [apply within_budget_ret|].
  rewrite pick_count_cons. cbn [leaderboard_loop].
  replace (2 * (length picks + pick_count rest))%nat
    with (length picks + (length picks + (2 * pick_count rest + 0)))%nat
    by lia.
  apply within_budget_bind; [apply calculate_points_budget|]. intros points.
  apply within_budget_bind; [apply summarize_budget|]. intros rows.
  apply within_budget_bind; [apply IH|]. intros r.
  apply within_budget_ret.
Qed.

(** X20. The cost of a page is bounded whatever the quote source
    answers.  A price lookup sends at most 5 quote requests and sleeps at
    most 150 seconds; scoring a pick list makes at most one lookup per
    pick, and the game page at most one per pick for every milestone and
    two more per pick for the leaderboard and the summaries.  The clock
    never goes back.  The history requests of the graphs and of
    [calculate_volatility] are not quote requests and are not counted. *)
Theorem page_budget (data : game_data) (pks : list pick) (ticker : string) :
  within_budget (get_price source ticker) 1
  ∧ within_budget (calculate_points source pks) (length pks)
  ∧ within_budget (game source annualized_volatility np data)
      ((length (milestones data) + 2) * pick_count (picks data)).
Proof.
  split_and!; [apply get_price_budget|apply calculate_points_budget|].
  unfold game.
  assert (Hget : within_budget get_clock 0).
  { intros w. apply (within_budget_ret (clock w) w). }
  replace ((length (milestones data) + 2) * pick_count (picks data))%nat
    with (0 + (0 + (length (milestones data) * pick_count (picks data)
                    + (2 * pick_count (picks data) + 0))))%nat by lia.
  apply within_budget_bind; [exact Hget|]. intros now.
  apply within_budget_bind; [exact Hget|]. intros now'.
  assert (Hsame : ∀ d : game_data,
    d = (if expired data now then set_status "finished" data else data) →
    milestones d = milestones data ∧ picks d = picks data).
  { intros d ->. by destruct (expired data now). }
  destruct (Hsame _ eq_refl) as [Hms Hps].
  apply within_budget_bind.
  { rewrite Hms, <-Hps. apply process_milestones_budget. }
  intros ms. apply within_budget_bind; [|intros r; apply within_budget_ret].
  cbn [picks set_milestones]. rewrite Hps. apply leaderboard_loop_budget.
Qed.

End Budget.

(** ** The game page *)

Section GamePage.
Variable source : string → nat → response.
Variable annualized_volatility : string → Q → Q → option deviation.
Variable np : numpy.

Lemma process_milestone_kept data now winner_var (m : milestone) w :
  let r := process_milestone source annualized_volatility np data now
             winner_var m w in
  m_time r.1.1 = m_time m ∧ m_type r.1.1 = m_type m
  ∧ (no_winner m = false ∨ (now < m_time m)%Q → r = (m, winner_var, w)).
Proof.
  unfold process_milestone.
  destruct (Qle_bool (m_time m) now) eqn:Hdue; cbn [andb].
  - destruct (no_winner m) eqn:Hnone.
    + assert (Hnot : ¬ (true = false ∨ (now < m_time m)%Q)).
      { intros [?|Hlt]; [done|]. apply Qle_bool_iff in Hdue. lra. }
      case_decide; [|case_decide]; unfold mbind, M_bind.
      * destruct (gain_players _ _ _ _ w) as [r w1].
        split_and!; [done|done|]. intros Hm. by destruct Hnot.
      * destruct (volatility_players _ _ _ _ _ _ _ w) as [r w1].
        split_and!; [done|done|]. intros Hm. by destruct Hnot.
      * done.
    + done.
  - done.
Qed.

Lemma process_milestones_kept data now (ms : list milestone) :
  ∀ winner_var w,
  Forall2 (λ m m', m_time m' = m_time m ∧ m_type m' = m_type m
                   ∧ (no_winner m = false ∨ (now < m_time m)%Q → m' = m))
    ms (process_milestones source annualized_volatility np data now
          winner_var ms w).1.1.
Proof.
  induction ms as [|m rest IH]; intros winner_var w; [constructor|].
  cbn [process_milestones]. unfold mbind, M_bind.
  destruct (process_milestone_kept data now winner_var m w)
    as (Htime & Htype & Hkept).
  destruct (process_milestone _ _ _ data now winner_var m w) as [r w1].
  specialize (IH r.2 w1).
  destruct (process_milestones _ _ _ data now r.2 rest w1) as [r' w2].
  cbn [fst snd mret M_ret] in *. constructor; [|done].
  split_and!; [done|done|]. intros Hm. by injection (Hkept Hm) as -> _.
Qed.

(** X21. The game page never changes the time or the type of a
    milestone, nor their number and order; a milestone that has a winner
    keeps winner and value for good, and a milestone that is not yet due
    is left as it is. *)
Theorem milestones_kept (data : game_data) (w : world) :
  Forall2 (λ m m', m_time m' = m_time m ∧ m_type m' = m_type m
                   ∧ (no_winner m = false ∨ (clock w < m_time m)%Q →
                      m' = m))
    (milestones data)
    (milestones (game source annualized_volatility np data w).1.2).
Proof.
  unfold game, mbind, M_bind, get_clock.
  assert (Hms : milestones
                  (if expired data (clock w)
                   then set_status "finished" data else data)
                = milestones data).
  { by destruct (expired data (clock w)). }
  rewrite Hms.
  pose proof (process_milestones_kept
    (if expired data (clock w) then set_status "finished" data else data)
    (clock w) (milestones data) None w) as Hkept.
  destruct (process_milestones _ _ _ _ _ _ _ w) as [ms w1].
  destruct (leaderboard_loop _ _ _ w1) as [r w2]. exact Hkept.
Qed.

(** X22. The winner the game page shows when the game has ended and
    somebody has picks is the name in the top row of the leaderboard,
    and no row has more points than that one, bonus included. *)
Theorem game_shown_winner (data : game_data) (w : world) :
  let view := (game source annualized_volatility np data w).1.1 in
  game_ended view = expired data (clock w)
  ∧ ∀ first rest,
      game_ended view = true → leaderboard view = first :: rest →
      shown_winner view = Some (e_name first)
      ∧ Forall (λ e, (points e <= points first)%Q) rest.
Proof.
  unfold game, mbind, M_bind, get_clock.
  destruct (process_milestones _ _ _ _ _ _ _ w) as [ms w1].
  destruct (leaderboard_loop _ _ _ w1) as [r w2].
  cbn [fst snd mret M_ret game_ended leaderboard shown_winner].
  split; [done|]. intros first rest -> Hrows.
  pose proof (sort_desc_descending r.1) as Hsorted.
  rewrite Hrows in *. split; [done|].
  by apply StronglySorted_inv in Hsorted as [_ Htop].
Qed.

End GamePage.

(** ** Tickers as they are typed *)

Lemma ascii_upper_again (c : Ascii.ascii) :
  ascii_upper (ascii_upper c) = ascii_upper c.
Proof. by destruct c as [[] [] [] [] [] [] [] []]. Qed.

Lemma is_space_upper (c : Ascii.ascii) :
  is_space (ascii_upper c) = is_space c.
Proof. by destruct c as [[] [] [] [] [] [] [] []]. Qed.

Lemma upper_again (s : string) : upper (upper s) = upper s.
Proof.
  induction s as [|c s IH]; [done|]. simpl. by rewrite ascii_upper_again, IH.
Qed.

Lemma upper_rev_app (s t : string) :
  upper (String.rev_app s t) = String.rev_app (upper s) (upper t).
Proof.
  revert t. induction s as [|c s IH]; intros t; [done|]. simpl.
  by rewrite IH.
Qed.

Lemma upper_lstrip (s : string) : upper (lstrip s) = lstrip (upper s).
Proof.
  induction s as [|c s IH]; [done|]. simpl. rewrite is_space_upper.
  by destruct (is_space c).
Qed.

Lemma upper_strip (s : string) : upper (strip s) = strip (upper s).
Proof.
  unfold strip, String.rev.
  by rewrite upper_rev_app, upper_lstrip, upper_rev_app, upper_lstrip.
Qed.

Lemma append_cons (c : Ascii.ascii) (s t : string) :
  String.append (String c s) t = String c (String.append s t).
Proof. done. Qed.

Lemma append_empty (s : string) : String.append s "" = s.
Proof. induction s as [|c s IH]; [done|]. by rewrite append_cons, IH. Qed.

Lemma rev_app_rev_app (s t u : string) :
  String.rev_app (String.rev_app s t) u
  = String.rev_app t (String.append s u).
Proof.
  revert t u. induction s as [|c s IH]; intros t u; [done|].
  simpl. by rewrite IH.
Qed.

Lemma rev_rev (s : string) : String.rev (String.rev s) = s.
Proof. unfold String.rev. by rewrite rev_app_rev_app, append_empty. Qed.

Lemma rev_app_append (s t u : string) :
  String.rev_app (String.append s t) u
  = String.rev_app t (String.rev_app s u).
Proof.
  revert u. induction s as [|c s IH]; intros u; [done|].
  rewrite append_cons. simpl. by rewrite IH.
Qed.

Lemma append_append (s t u : string) :
  String.append (String.append s t) u = String.append s (String.append t u).
Proof.
  induction s as [|c s IH]; [done|]. by rewrite !append_cons, IH.
Qed.

Lemma rev_app_tail (s t : string) :
  String.rev_app s t = String.append (String.rev s) t.
Proof.
  unfold String.rev. revert t. induction s as [|c s IH]; intros t; [done|].
  simpl. rewrite (IH (String c t)), (IH (String c "")).
  by rewrite append_append.
Qed.

Lemma rev_cons (c : Ascii.ascii) (s : string) :
  String.rev (String c s) = String.append (String.rev s) (String c "").
Proof. unfold String.rev at 1. simpl. apply rev_app_tail. Qed.

Lemma lstrip_head (s : string) :
  lstrip s = ""
  ∨ ∃ c t, lstrip s = String c t ∧ is_space c = false.
Proof.
  induction s as [|c s IH]; [by left|]. simpl.
  destruct (is_space c) eqn:Hc; [done|]. right. by exists c, s.
Qed.

Lemma lstrip_before (s : string) (c : Ascii.ascii) :
  is_space c = false →
  ∃ u, lstrip (String.append s (String c ""))
       = String.append u (String c "").
Proof.
  intros Hc. induction s as [|a s IH].
  - exists "". simpl. by rewrite Hc.
  - rewrite append_cons. simpl. destruct (is_space a); [done|].
    by exists (String a s).
Qed.

(** What is left of a string without leading spaces when its trailing
    spaces are cut has no leading spaces either. *)
Lemma lstrip_rstrip (s : string) :
  lstrip (String.rev (lstrip (String.rev (lstrip s))))
  = String.rev (lstrip (String.rev (lstrip s))).
Proof.
  destruct (lstrip_head s) as [->|(c & t & -> & Hc)]; [done|].
  rewrite rev_cons. destruct (lstrip_before (String.rev t) c Hc) as [u ->].
  unfold String.rev. rewrite rev_app_append. simpl. by rewrite Hc.
Qed.

Lemma strip_again (s : string) : strip (strip s) = strip s.
Proof.
  unfold strip. rewrite lstrip_rstrip, rev_rev. apply lstrip_rstrip.
Qed.

Lemma ticker_normal (raw : string) :
  strip (upper (strip (upper raw))) = strip (upper raw).
Proof. by rewrite <-upper_strip, strip_again, upper_strip, upper_again. Qed.

Lemma ascii_upper_ascii (c : Ascii.ascii) :
  (Ascii.nat_of_ascii (ascii_upper c) <? 128)%nat
  = (Ascii.nat_of_ascii c <? 128)%nat.
Proof. by destruct c as [[] [] [] [] [] [] [] []]. Qed.

Lemma ascii_text_upper (s : string) :
  ascii_text s = true → ascii_text (upper s) = true.
Proof.
  induction s as [|c s IH]; [done|]. simpl. rewrite ascii_upper_ascii.
  intros [-> Hs]%andb_prop. by rewrite IH.
Qed.

Lemma ascii_text_lstrip (s : string) :
  ascii_text s = true → ascii_text (lstrip s) = true.
Proof.
  induction s as [|c s IH]; [done|]. simpl.
  destruct (is_space c); [|done]. intros [_ Hs]%andb_prop. by apply IH.
Qed.

Lemma ascii_text_rev_app (s t : string) :
  ascii_text s = true → ascii_text t = true →
  ascii_text (String.rev_app s t) = true.
Proof.
  revert t. induction s as [|c s IH]; intros t; [done|]. simpl.
  intros [Hc Hs]%andb_prop Ht. apply IH; [done|]. simpl. by rewrite Hc.
Qed.

Lemma ascii_text_strip (s : string) :
  ascii_text s = true → ascii_text (strip s) = true.
Proof.
  intros Hs. unfold strip, String.rev.
  apply ascii_text_rev_app; [|done]. apply ascii_text_lstrip.
  apply ascii_text_rev_app; [|done]. by apply ascii_text_lstrip.
Qed.

(** X23. A ticker typed in ASCII is taken up to case and surrounding
    white space: upper-casing and stripping it again changes nothing, so
    [draft] answers and writes the same for the text typed and for its
    upper-cased, stripped form, and that form is its own cache key.  The
    white space is what [str.isspace] accepts in ASCII, the characters 9
    to 13 and 28 to 32, and the letters a to z are the ones that change
    case. *)
Theorem draft_ticker_normalised (source : string → nat → response)
    (who raw : string) (data : game_data) (w : world) :
  ascii_text raw = true →
  ascii_text (strip (upper raw)) = true
  ∧ strip (upper (strip (upper raw))) = strip (upper raw)
  ∧ upper (strip (upper raw)) = strip (upper raw)
  ∧ draft_post source who (strip (upper raw)) data w
    = draft_post source who raw data w
  ∧ (∀ c : Ascii.ascii,
       let n := Ascii.nat_of_ascii c in
       strip (String c "") = ""
       ↔ ((9 <=? n)%nat && (n <=? 13)%nat
          || (28 <=? n)%nat && (n <=? 32)%nat) = true)
  ∧ (∀ c : Ascii.ascii,
       let n := Ascii.nat_of_ascii c in
       upper (String c "")
       = String (if ((97 <=? n)%nat && (n <=? 122)%nat)%bool
                 then Ascii.ascii_of_nat (n - 32) else c) "").
Proof.
  intros Hascii. split_and!.
  - by apply ascii_text_strip, ascii_text_upper.
  - apply ticker_normal.
  - by rewrite upper_strip, upper_again.
  - unfold draft_post. by rewrite ticker_normal.
  - intros [[] [] [] [] [] [] [] []]; vm_compute; split; congruence.
  - intros [[] [] [] [] [] [] [] []]; reflexivity.
Qed.

Lemma draft_ticker_normalised_witness :
  strip (upper (strip (upper " aapl"))) = "AAPL"
  ∧ draft_post steady_source "ann" (strip (upper " aapl")) opening_data
      (cold_world 5)
    = draft_post steady_source "ann" " aapl" opening_data (cold_world 5)
  ∧ (draft_post steady_source "ann" (String (Ascii.ascii_of_nat 31) " ")
       opening_data (cold_world 5)).1.1
    = NoTicker "ann".
Proof.
  destruct (draft_ticker_normalised steady_source "ann" " aapl" opening_data
              (cold_world 5) eq_refl) as (_ & Hnormal & _ & Hsame & _).
  split_and!; [by rewrite Hnormal|exact Hsame|reflexivity].
Defined.

(** ** Trading begins when the draft is over *)

Section TradingAfterDraft.
Variable source : string → nat → response.
Variable annualized_volatility : string → Q → Q → option deviation.
Variable np : numpy.
Variables year month day : Q → Z.
Variable datetime : Z → Z → Z → Q.
Variable date_text : Q → string.

Lemma draft_post_closed who raw data w :
  draft_closed data → draft_closed (draft_post source who raw data w).1.2.
Proof.
  intros Hclosed.
  destruct (draft_post_cases source who raw data w)
    as [->|(order & new_pick & Hremove & ->)]; [done|].
  intros Hover. simpl in Hover. rewrite (Hclosed Hover) in Hremove. done.
Qed.

Lemma draft_get_closed preview data w :
  draft_closed data → draft_closed (draft_get source preview data w).1.2.
Proof.
  intros Hclosed. unfold draft_get.
  destruct (draft_order data) as [|current_player rest] eqn:Hqueue.
  { by intros _. }
  destruct preview as [ticker|]; [|done].
  case_decide; [done|]. unfold mbind, M_bind.
  by destruct (get_price source ticker w).
Qed.

Lemma trade_post_closed action data :
  draft_closed data → draft_closed (trade_post action data).2.
Proof.
  intros Hclosed. unfold trade_post. case_decide as Hdone; [|done].
  pose proof (Hclosed (or_introl Hdone)) as Hqueue. intros _.
  destruct action as [f t o r|i r].
  - unfold propose. by case_decide.
  - destruct (respond_cases i r data) as [->|[->|(t & ps & pl & _ & ->)]];
      done.
Qed.

Lemma game_closed data w :
  draft_closed data →
  draft_closed (game source annualized_volatility np data w).1.2.
Proof.
  intros Hclosed.
  destruct (game_record source annualized_volatility np data w)
    as (_ & Hqueue & _ & _ & Htrades & _).
  pose proof (game_status source annualized_volatility np data w) as Hstatus.
  intros Hover. rewrite Hqueue. apply Hclosed.
  rewrite Htrades, Hstatus in Hover.
  destruct Hover as [Hdone|?]; [|by right]. left.
  by destruct (expired data (clock w)).
Qed.

Lemma serve_closed (s : session) (req : session_request) :
  draft_closed (s_data s) →
  draft_closed (s_data (serve source annualized_volatility np year month day
                          datetime date_text s req)).
Proof.
  intros Hclosed. destruct req as [form| |req]; simpl.
  - destruct (start_cases year month day datetime form (s_data s) (s_world s))
      as [(_ & -> & _)|(players & _ & _ & _ & ->)]; [done|].
    by intros [?|?].
  - destruct (new_game_cases source date_text (s_history s) (s_data s)
                (s_world s)) as [_ [(_ & -> & _)|(_ & -> & _)]]; [done|].
    by intros [?|?].
  - destruct req as [who raw|preview|action|]; simpl.
    + by apply draft_post_closed.
    + by apply draft_get_closed.
    + by apply trade_post_closed.
    + by apply game_closed.
Qed.

Lemma serve_all_closed (reqs : list session_request) : ∀ s,
  draft_closed (s_data s) →
  draft_closed (s_data (serve_all source annualized_volatility np year month
                          day datetime date_text s reqs)).
Proof.
  unfold serve_all. induction reqs as [|req reqs IH]; intros s Hs; [done|].
  simpl. by apply IH, serve_closed.
Qed.

(** X24. In a session that begins with no game, trading begins when the
    draft is over: whenever the phase is [done], or the record holds a
    trade, the draft queue is empty and every player has exactly the
    picks per player on the list. *)
Theorem trading_after_draft (w : world) (reqs : list session_request) :
  let data := s_data (serve_all source annualized_volatility np year month day
                        datetime date_text (new_session w) reqs) in
  status data = "done" ∨ trades data ≠ [] →
  draft_order data = []
  ∧ Forall (λ p, Z.of_nat (length (picked p)) = max_picks p) (players data).
Proof.
  intros data Hover.
  assert (Hqueue : draft_order data = []).
  { apply (serve_all_closed reqs (new_session w)); [|done]. by intros [?|?]. }
  split; [done|].
  pose proof (ok_turns _ (serve_all_ok source annualized_volatility np year
    month day datetime date_text reqs _ (new_session_ok w))) as Hturns.
  fold data in Hturns. unfold turns_ok in Hturns. rewrite Hqueue in Hturns.
  eapply Forall_impl; [exact Hturns|]. intros p Hp. simpl in Hp.
  unfold turns_left in Hp. simpl in Hp. lia.
Qed.

End TradingAfterDraft.

Lemma trading_after_draft_witness :
  draft_order (s_data (serve_all steady_source no_history sample_numpy sample_year
                         sample_month sample_day sample_datetime
                         sample_date_text (new_session (cold_world 0))
                         sample_requests)) = []
  ∧ Forall (λ p, Z.of_nat (length (picked p)) = max_picks p)
      (players (s_data (serve_all steady_source no_history sample_numpy sample_year
                          sample_month sample_day sample_datetime
                          sample_date_text (new_session (cold_world 0))
                          sample_requests))).
Proof.
  apply (trading_after_draft steady_source no_history sample_numpy sample_year
           sample_month sample_day sample_datetime sample_date_text
           (cold_world 0) sample_requests).
  left. reflexivity.
Defined.

(** ** The picks of the game are conserved *)

Section Conservation.
Variable source : string → nat → response.
Variable annualized_volatility : string → Q → Q → option deviation.
Variable np : numpy.

Lemma respond_picks trade_id response data :
  well_formed data →
  all_held (picks (respond trade_id response data).2)
  ≡ₚ all_held (picks data).
Proof.
  intros [_ _ _ _ _ Hpa]. unfold respond.
  destruct (find_first _ (trades data)) as [t|] eqn:Hfind; [|done].
  assert (Hparties : from_player t ≠ to_player t).
  { rewrite Forall_forall in Hpa. by eapply Hpa, find_first_elem. }
  case_decide as Hresp; [|done]. simpl.
  destruct (swap_picks t (picks data)) as [e|ps'] eqn:Hswap; [done|].
  destruct (swap_picks_found _ _ _ Hswap)
    as (l1 & fp & l2 & m1 & tp & m2 & Hfrom & Hto & Hfp & Htp & Hl1 & Hm1).
  destruct (swap_picks_swapped t l1 l2 m1 m2 fp tp Hparties Hfp Htp Hl1 Hm1
              (picks data) Hfrom Hto)
    as (ps'' & Hswap' & _ & _ & Hperm & _).
  assert (ps'' = ps') as -> by congruence.
  by destruct (swap_all_picked t (players data)).
Qed.

(** X25. No request loses, copies or alters a pick.  A POST to [/draft]
    leaves the picks of the game as they are or adds one pick, for the
    ticker posted; a POST to [/trade] and a read of the draft page or of
    the game page leave the picks of the game as they are, up to who
    holds them and in which order: ticker, draft price and draft time of
    every pick stay. *)
Theorem picks_conserved (st : game_data * world) (req : request) :
  well_formed st.1 →
  let before := all_held (picks st.1) in
  let after := all_held (picks (handle source annualized_volatility np st req).1) in
  match req with
  | PostDraft who raw =>
      after ≡ₚ before
      ∨ ∃ new_pick, ticker new_pick = strip (upper raw)
                    ∧ after ≡ₚ before ++ [new_pick]
  | _ => after ≡ₚ before
  end.
Proof.
  intros Hwf before after. subst before after.
  destruct req as [who raw|preview|action|]; simpl.
  - destruct (draft_post source who raw st.1 st.2).1.1 eqn:Hanswer.
    2-5: left; rewrite (draft_post_unsaved source who raw st.1 st.2); [done|];
         by rewrite Hanswer.
    right.
    destruct (draft_post_picked source who raw st.1 st.2 Hanswer)
      as (order & current & _ & _ & _ & _ & _ & ->).
    eexists. split; [|by rewrite all_held_setdefault_append,
                            <-Permutation_cons_append].
    done.
  - by destruct (draft_get_cases source preview st.1 st.2) as [->| ->].
  - unfold trade_post. case_decide; [|done].
    destruct action as [f t o r|i r]; [|by apply respond_picks].
    unfold propose. by case_decide.
  - destruct (game_record source annualized_volatility np st.1 st.2)
      as (_ & _ & -> & _). done.
Qed.

End Conservation.

Lemma picks_conserved_witness :
  all_held (picks (handle steady_source no_history sample_numpy
                     (proposed_data "pending", cold_world 0)
                     (PostTrade (Respond 1 "accepted"))).1)
  ≡ₚ all_held (picks (proposed_data "pending")).
Proof.
  apply (picks_conserved steady_source no_history sample_numpy
           (proposed_data "pending", cold_world 0)
           (PostTrade (Respond 1 "accepted"))).
  constructor; simpl.
  - apply (bool_decide_unpack _). vm_compute. exact I.
  - apply (bool_decide_unpack _). vm_compute. exact I.
  - intros tk Htk. apply (bool_decide_unpack _).
    repeat (apply elem_of_cons in Htk as [->|Htk]; [vm_compute; exact I|]).
    by apply elem_of_nil in Htk.
  - repeat constructor; simpl; discriminate.
  - repeat constructor.
  - repeat constructor. simpl. discriminate.
Defined.
